(** * WO-App-Exercises: the content pipeline and the read API

    A shallow embedding of
      - [scripts/md-to-json.js]  (module [Pipeline]): section capture, asset
        enrichment, thumbnails, index files, hash ledger and version tracking;
      - the Express server, [api/index.js]  (module [Api]): the routes, the
        List / GetById / Batch / Search handlers, pagination and the
        categories / muscles listings;
      - [scripts/validate.js]  (module [Validate]) and the schema
        [schemas/exercise.json]  (module [Schema]);
    together with the JavaScript built-ins the files rely on (module [JS]) and
    the regular expressions of the two scripts, run by a backtracking matcher
    (modules [RegExp] and [Scans]).

    Modelling conventions.
      - JavaScript strings are [string] (bytes); [toLowerCase], [toUpperCase]
        and the white space of [parseInt] are the ASCII ones.
      - A JavaScript number that is an integer is a [Z]; [NaN] is [None]. In
        the read API the model is exact on the safe integers (below 2^53 in
        magnitude). The patch number of the version is a double: [JS.toDouble]
        rounds an integer to the nearest double, ties to even, and
        [JS.numberToString] prints it with the shortest digits that read
        back, in exponent notation from 10^21 on.
      - The object of muscles that [buildMuscleReference] fills is an
        association list, listed in the order of [Object.values]
        ([JS.ownOrder]: array indexes first, in ascending order, then the
        other keys as inserted). A name that [Object.prototype] defines
        ([JS.inherited]) is found in the empty object; the script then calls
        a method of what it finds, and the run throws. Categories and
        equipment are collected in a [Set], which has no
        inherited names.
      - A file of the output directory holds a JSON value ([JS.Json]); the
        directory is one map from file names to values ([Converter.Dir]), so
        two writes to one name leave the later one. A run is the list of its
        writes, in order, with the way it ended ([Converter.Run]).
      - The clock is read once for every record parsed, once for the version
        record and once for the aggregate; [clock n] is the n-th reading of a
        run.
      - Front matter loads to the fields the schema names and the map
        [others] of its remaining properties, which are copied to the record.
      - Calls into npm libraries (js-yaml, marked, ajv, crypto, glob), the
        clock and the reads of sources are [Variable]s of a [Section]: every
        fact below holds whatever they return. Module [Pipeline] has the
        functions of the script with the scans as [Variable]s too; module
        [Converter] is the run of the script with the scans of module [Scans]
        and the validator of module [Schema] in their place; module [History]
        is a sequence of runs, and module [Worlds] holds sample sources and
        directories.
      - A write to the file system succeeds; a read of a source either yields
        the content or throws. *)

From Stdlib Require Import ZArith Ascii.
From stdpp Require Import base numbers option list strings gmap sorting pretty.

Local Open Scope Z_scope.
Set Warnings "-clear-no-such-hyp".

(* ================================================================== *)
(** * JavaScript built-ins                                              *)
(* ================================================================== *)
Module JS.

(** ** Strings *)

Definition is_upper (c : ascii) : bool :=
  let n := N_of_ascii c in ((65 <=? n) && (n <=? 90))%N.

Definition lower_char (c : ascii) : ascii :=
  if is_upper c then ascii_of_N (N_of_ascii c + 32) else c.

(** [s.toLowerCase()] *)
Fixpoint toLowerCase (s : string) : string :=
  match s with
  | EmptyString => EmptyString
  | String c r => String (lower_char c) (toLowerCase r)
  end.

Definition is_lower (c : ascii) : bool :=
  let n := N_of_ascii c in ((97 <=? n) && (n <=? 122))%N.

Definition upper_char (c : ascii) : ascii :=
  if is_lower c then ascii_of_N (N_of_ascii c - 32) else c.

(** [s.charAt(0).toUpperCase() + s.slice(1)] *)
Definition capitalize (s : string) : string :=
  match s with
  | EmptyString => EmptyString
  | String c r => String (upper_char c) r
  end.

(** [s.startsWith(p)] *)
Fixpoint startsWith (p s : string) : bool :=
  match p, s with
  | EmptyString, _ => true
  | String a p', String b s' => if Ascii.eqb a b then startsWith p' s' else false
  | String _ _, EmptyString => false
  end.

(** [s.includes(needle)] on strings: substring search. *)
Fixpoint includes (needle s : string) : bool :=
  startsWith needle s ||
  match s with
  | EmptyString => false
  | String _ s' => includes needle s'
  end.

(** [s.endsWith(suffix)] *)
Fixpoint endsWith (suffix s : string) : bool :=
  String.eqb suffix s ||
  match s with
  | EmptyString => false
  | String _ s' => endsWith suffix s'
  end.

(** [s.split(sep)] for a one-character separator; never returns []. *)
Fixpoint split (sep : ascii) (s : string) : list string :=
  match s with
  | EmptyString => [EmptyString]
  | String c r =>
      if Ascii.eqb c sep then EmptyString :: split sep r
      else match split sep r with
           | [] => [String c EmptyString]
           | h :: t => String c h :: t
           end
  end.

(** [parts.join(sep)] *)
Fixpoint join (sep : string) (parts : list string) : string :=
  match parts with
  | [] => EmptyString
  | [p] => p
  | p :: rest => p +:+ sep +:+ join sep rest
  end.

(** Whether the character [c] occurs in [s]. *)
Fixpoint occurs (c : ascii) (s : string) : bool :=
  match s with
  | EmptyString => false
  | String x r => Ascii.eqb x c || occurs c r
  end.

(** [arr.includes(x)] on arrays of strings. *)
Definition arr_includes (x : string) (arr : list string) : bool :=
  existsb (String.eqb x) arr.

(** Truthiness of a value that is a string or [undefined]. *)
Definition truthy (v : option string) : bool :=
  match v with
  | Some s => negb (String.eqb s "")
  | None => false
  end.

(** ** Numbers *)

(** Integer-valued numbers; [None] is [NaN]. *)
Definition Number := option Z.

Definition is_digit (c : ascii) : bool :=
  let n := N_of_ascii c in ((48 <=? n) && (n <=? 57))%N.

Fixpoint all_digits (s : string) : bool :=
  match s with
  | EmptyString => true
  | String c r => is_digit c && all_digits r
  end.

Definition digit_val (radix : Z) (c : ascii) : option Z :=
  let n := Z.of_N (N_of_ascii c) in
  let d := if (48 <=? n) && (n <=? 57) then Some (n - 48)
           else if (97 <=? n) && (n <=? 122) then Some (n - 87)
           else if (65 <=? n) && (n <=? 90) then Some (n - 55)
           else None in
  match d with
  | Some v => if v <? radix then Some v else None
  | None => None
  end.

(** Value of the longest prefix of radix digits, from accumulator [acc]. *)
Fixpoint accum_digits (radix acc : Z) (s : string) : Z :=
  match s with
  | EmptyString => acc
  | String c r =>
      match digit_val radix c with
      | Some d => accum_digits radix (acc * radix + d) r
      | None => acc
      end
  end.

Definition parse_digits (radix : Z) (s : string) : Number :=
  match s with
  | EmptyString => None
  | String c _ =>
      match digit_val radix c with
      | Some _ => Some (accum_digits radix 0 s)
      | None => None
      end
  end.

Fixpoint trimStart (s : string) : string :=
  match s with
  | EmptyString => EmptyString
  | String c r => if Ascii.is_space c then trimStart r else s
  end.

(** [parseInt(string)] with no radix argument: leading white space, an
    optional sign, an optional [0x]/[0X] prefix, then the longest prefix of
    digits; [NaN] when there is none. *)
Definition parseInt_string (input : string) : Number :=
  let s := trimStart input in
  let '(sign, s) :=
    match s with
    | String "-" r => (-1, r)
    | String "+" r => (1, r)
    | _ => (1, s)
    end in
  let '(radix, s) :=
    match s with
    | String "0" (String "x" r) => (16, r)
    | String "0" (String "X" r) => (16, r)
    | _ => (10, s)
    end in
  match parse_digits radix s with
  | Some n => Some (sign * n)
  | None => None
  end.

(** [parseInt(v)] where [v] is a string or [undefined] (which reads as the
    string "undefined" and so gives [NaN]). *)
Definition parseInt (v : option string) : Number :=
  match v with
  | Some s => parseInt_string s
  | None => None
  end.

(** [n || dflt] for a number [n]: [NaN] and [0] are falsy. *)
Definition or_default (n : Number) (dflt : Z) : Z :=
  match n with
  | Some v => if v =? 0 then dflt else v
  | None => dflt
  end.

(** Number to string, as in a template literal. *)
Definition toString (n : Number) : string :=
  match n with
  | Some v => pretty v
  | None => "NaN"
  end.

(** [Math.ceil(a / b)] for integers [a] and [b <> 0]. *)
Definition ceil_div (a b : Z) : Z := - ((- a) `div` b).

(** ** Arrays *)

(** [arr.slice(start, end)], negative indices counting from the end. *)
Definition slice {A} (arr : list A) (start end_ : Z) : list A :=
  let len := Z.of_nat (length arr) in
  let k := if start <? 0 then Z.max (len + start) 0 else Z.min start len in
  let final := if end_ <? 0 then Z.max (len + end_) 0 else Z.min end_ len in
  take (Z.to_nat (final - k)) (drop (Z.to_nat k) arr).

(** Insertion into a [Set], which keeps first-insertion order. *)
Definition set_add (x : string) (s : list string) : list string :=
  if arr_includes x s then s else s ++ [x].

(** [[...new Set(arr)]]: the distinct values, in order of first occurrence. *)
Definition unique {A} `{EqDecision A} (arr : list A) : list A :=
  foldl (λ s x, if bool_decide (x ∈ s) then s else s ++ [x]) [] arr.

(** [Array.prototype.sort()] with the default comparison, on strings. *)
Definition sort (arr : list string) : list string := merge_sort String.le arr.

(** ** Numbers beyond the safe integers *)

(** A number that is an integer, an infinity or [NaN]: what [parseInt]
    returns and what adding one to it gives. *)
Inductive Double :=
  | NaN
  | Infinity (negative : bool)
  | Finite (n : Z).

(** The number for an integer: the nearest one of 53 significant bits, a tie
    going to the even significand, and an infinity from 2^1024 on. *)
Definition toDouble (n : Z) : Double :=
  let a := Z.abs n in
  if a <? 2 ^ 53 then Finite n
  else
    let ulp := 2 ^ (Z.log2 a - 52) in
    let q := a `div` ulp in
    let r := a `mod` ulp in
    let q := if (2 * r <? ulp) || ((2 * r =? ulp) && Z.even q) then q else q + 1 in
    if q * ulp <? 2 ^ 1024 then Finite (Z.sgn n * (q * ulp)) else Infinity (n <? 0).

(** [parseInt(v)], as the number the engine holds. *)
Definition parseDouble (v : option string) : Double :=
  match parseInt v with
  | Some n => toDouble n
  | None => NaN
  end.

(** [x + 1] *)
Definition increment (x : Double) : Double :=
  match x with
  | Finite n => toDouble (n + 1)
  | _ => x
  end.

(** The decimals [s] of [k] digits that, followed by zeros up to [N] or
    [N + 1] digits, read as the number [n] of [N] digits; each comes with
    the number of digits of its value. *)
Definition decimals (n k : Z) : list (Z * Z) :=
  let N := Z.of_nat (String.length (pretty n)) in
  flat_map (λ N, let s := n `div` 10 ^ (N - k) in
                 List.filter (λ '(s, N),
                                (10 ^ (k - 1) <=? s) && (s <? 10 ^ k) &&
                                match toDouble (s * 10 ^ (N - k)) with
                                | Finite m => m =? n
                                | _ => false
                                end)
                             [(s, N); (s + 1, N)])
           [N; N + 1].

(** Of these the one nearest to [n], the even one of two equally near. *)
Definition nearest (n k : Z) (candidates : list (Z * Z)) : option (Z * Z) :=
  foldl (λ best '(s, N),
           match best with
           | None => Some (s, N)
           | Some (s', N') =>
               let d := Z.abs (s * 10 ^ (N - k) - n) in
               let d' := Z.abs (s' * 10 ^ (N' - k) - n) in
               if (d <? d') || ((d =? d') && Z.even s) then Some (s, N) else best
           end) None candidates.

(** The shortest decimal that reads as [n], tried from [k] digits on. *)
Fixpoint shortest (tries : nat) (n k : Z) : option (Z * Z * Z) :=
  match tries with
  | O => None
  | S tries =>
      match nearest n k (decimals n k) with
      | Some (s, N) => Some (s, k, N)
      | None => shortest tries n (k + 1)
      end
  end.

Fixpoint zeros (n : nat) : string :=
  match n with
  | O => ""
  | S n => String "0" (zeros n)
  end.

(** Number to string for an integer from 2^53 on: the digits of the shortest
    decimal that reads as it, followed by zeros up to 21 digits and by an
    exponent beyond. *)
Definition largeToString (n : Z) : string :=
  match shortest 17 n 1 with
  | Some (s, k, N) =>
      if N <=? 21 then pretty s +:+ zeros (Z.to_nat (N - k))
      else match pretty s with
           | String d rest =>
               String d (if k =? 1 then "" else String "." rest) +:+ "e+" +:+ pretty (N - 1)
           | EmptyString => ""
           end
  | None => pretty n
  end.

(** Number to string, as in a template literal: a safe integer is printed
    digit by digit. *)
Definition numberToString (x : Double) : string :=
  match x with
  | NaN => "NaN"
  | Infinity negative => if negative then "-Infinity" else "Infinity"
  | Finite n =>
      if Z.abs n <? 2 ^ 53 then pretty n
      else (if n <? 0 then "-" else "") +:+ largeToString (Z.abs n)
  end.

(** ** Plain objects *)

(** The names every plain object inherits from [Object.prototype]. *)
Definition inherited : list string :=
  ["constructor"; "hasOwnProperty"; "isPrototypeOf"; "propertyIsEnumerable";
   "toLocaleString"; "toString"; "valueOf"; "__proto__"; "__defineGetter__";
   "__defineSetter__"; "__lookupGetter__"; "__lookupSetter__"].

(** An array index: the decimal numeral, without leading zero, of a number
    below 2^32 - 1. *)
Definition arrayIndex (key : string) : option N :=
  let n := Z.to_N (accum_digits 10 0 key) in
  if all_digits key && String.eqb (pretty n) key && (n <? 4294967295)%N
  then Some n else None.

Definition isIndex (key : string) : Prop := is_Some (arrayIndex key).

#[global] Instance isIndex_dec key : Decision (isIndex key).
Proof. unfold isIndex. apply _. Defined.

(** The order of two properties named by array indices. *)
Definition indexLe {A} (name : A → string) (x y : A) : Prop :=
  (default 0 (arrayIndex (name x)) ≤ default 0 (arrayIndex (name y)))%N.

#[global] Instance indexLe_dec {A} (name : A → string) : RelDecision (indexLe name).
Proof. intros x y. unfold indexLe. apply _. Defined.

(** The own properties of an object in the order [Object.values] lists them,
    given in the order of their creation: those named by an array index
    first, in ascending order, then the others. *)
Definition ownOrder {A} (name : A → string) (created : list A) : list A :=
  merge_sort (indexLe name) (filter (λ x, isIndex (name x)) created) ++
  filter (λ x, ¬ isIndex (name x)) created.

(** ** JSON *)

(** The value of a JSON text; numbers are the integer ones. *)
#[warnings="-register-all"]
Inductive Json :=
  | JNull
  | JBool (b : bool)
  | JNumber (n : Z)
  | JString (s : string)
  | JArray (items : list Json)
  | JObject (properties : gmap string Json).

(** [value[key]] on a value that is not [null], for a key that no prototype
    has and that is neither an index nor [length]: an own property of an
    object, [undefined] otherwise. *)
Definition get (key : string) (value : Json) : option Json :=
  match value with
  | JObject properties => properties !! key
  | _ => None
  end.

(** [v === s] for a string [s]. *)
Definition isString (v : option Json) (s : string) : bool :=
  match v with
  | Some (JString t) => String.eqb t s
  | _ => false
  end.

(** An object written out property by property; [JSON.stringify] leaves out
    the properties that are [undefined]. *)
Definition object (l : list (string * option Json)) : gmap string Json :=
  list_to_map (omap (λ '(key, value), (λ v, (key, v)) <$> value) l).

Definition text (s : string) : option Json := Some (JString s).
Definition texts (l : list string) : option Json := Some (JArray (JString <$> l)).
Definition number (n : Z) : option Json := Some (JNumber n).

End JS.


(* ================================================================== *)
(** * The read API (api/index.js)                                       *)
(* ================================================================== *)
Module Api.

(** ** Data model *)

Record Mobile := {
  displayOrder : Z;
  categoryDisplayName : string;
  estimatedTime : Z;
  hasVideo : bool;
  thumbnails : list string
}.

(** A persisted exercise record. The fields the schema requires are plain
    strings; every field the handlers guard with [ex.f && ...] is optional. *)
Record Exercise := {
  id : string;
  name : string;
  category : string;
  difficulty : string;
  primaryMuscles : option (list string);
  secondaryMuscles : option (list string);
  equipment : option (list string);
  tags : option (list string);
  description : option string;
  instructions : list string;
  tips : list string;
  variations : list string;
  images : list string;
  videos : list string;
  mobile : option Mobile;
  updatedAt : option string
}.

(** [exercises.json] *)
Record Aggregate := {
  agg_version : string;
  agg_lastUpdated : string;
  agg_count : Z;
  agg_exercises : list Exercise
}.

(** The data directory as the handlers read it: the aggregate file, if it
    exists, and the per-record files [<stem>.json], keyed by their stem. The
    other JSON files the pipeline writes there (version, ledger, indexes) are
    no exercise records and are left out. *)
Record DataDir := {
  exercises_json : option Aggregate;
  record_files : gmap string Exercise
}.

(** [dataVersion] is read once, when the server starts. *)
Record Server := {
  dataVersion : string;
  data : DataDir
}.

(** [req.query], each parameter a string or absent. *)
Record Query := {
  q_category : option string;
  q_difficulty : option string;
  q_equipment : option string;
  q_muscle : option string;
  q_tags : option string;
  q_page : option string;
  q_limit : option string;
  q_fields : option string;
  q_query : option string;
  q_ids : option string
}.

Definition no_query : Query :=
  {| q_category := None; q_difficulty := None; q_equipment := None;
     q_muscle := None; q_tags := None; q_page := None; q_limit := None;
     q_fields := None; q_query := None; q_ids := None |}.

(** ** Responses *)

Inductive value :=
  | VString (s : string)
  | VStrings (l : list string)
  | VMobile (m : Mobile).

(** An exercise in a response: whole, or the object built by field selection. *)
Inductive view :=
  | Whole (ex : Exercise)
  | Picked (o : list (string * value)).

Record Metadata := {
  total : Z;
  page : Z;
  limit : Z;
  pages : Z;
  version : option string
}.

Inductive Body :=
  | BError (error : string)
  | BVersion (version apiVersion : string)
  | BList (metadata : Metadata) (exercises : list view)
  | BExercise (exercise : view)
  | BBatch (exercises : list Exercise)
  | BCategories (categories : list (string * string))
  | BMuscles (muscles : list string)
  | BRoot.

Record Response := {
  status : Z;
  body : Body
}.

Definition API_VERSION : string := "1.0".

(** ** Filters *)

(** [if (param) { exercises = f(param, exercises) }] *)
Definition when (param : option string)
    (f : string → list Exercise → list Exercise) (exercises : list Exercise) :
    list Exercise :=
  if JS.truthy param then f (default "" param) exercises else exercises.

(** [arr && arr.includes(x)] *)
Definition has (arr : option (list string)) (x : string) : bool :=
  match arr with
  | Some a => JS.arr_includes x a
  | None => false
  end.

Definition matchesCategory (c : string) (ex : Exercise) : bool :=
  String.eqb (category ex) c.
Definition matchesDifficulty (d : string) (ex : Exercise) : bool :=
  String.eqb (difficulty ex) d.
Definition matchesEquipment (e : string) (ex : Exercise) : bool :=
  has (equipment ex) e.
Definition matchesMuscle (m : string) (ex : Exercise) : bool :=
  has (primaryMuscles ex) m || has (secondaryMuscles ex) m.
(** [ex.tags && tags.some(tag => ex.tags.includes(tag))] with
    [tags = req.query.tags.split(',')] *)
Definition matchesTags (param : string) (ex : Exercise) : bool :=
  let tags_ := JS.split "," param in
  match tags ex with
  | Some exTags => existsb (λ tag, JS.arr_includes tag exTags) tags_
  | None => false
  end.
(** The text predicate of Search, [searchQuery] already lower-cased. *)
Definition matchesText (searchQuery : string) (ex : Exercise) : bool :=
  JS.includes searchQuery (JS.toLowerCase (name ex)) ||
  match description ex with
  | Some d => negb (String.eqb d "") && JS.includes searchQuery (JS.toLowerCase d)
  | None => false
  end ||
  match tags ex with
  | Some ts => existsb (λ tag, JS.includes searchQuery (JS.toLowerCase tag)) ts
  | None => false
  end.

(** ** Field selection *)

(** [ex[field]], [None] for [undefined]. *)
Definition get (ex : Exercise) (field : string) : option value :=
  if String.eqb field "id" then Some (VString (id ex))
  else if String.eqb field "name" then Some (VString (name ex))
  else if String.eqb field "category" then Some (VString (category ex))
  else if String.eqb field "difficulty" then Some (VString (difficulty ex))
  else if String.eqb field "primaryMuscles" then VStrings <$> primaryMuscles ex
  else if String.eqb field "secondaryMuscles" then VStrings <$> secondaryMuscles ex
  else if String.eqb field "equipment" then VStrings <$> equipment ex
  else if String.eqb field "tags" then VStrings <$> tags ex
  else if String.eqb field "description" then VString <$> description ex
  else if String.eqb field "instructions" then Some (VStrings (instructions ex))
  else if String.eqb field "tips" then Some (VStrings (tips ex))
  else if String.eqb field "variations" then Some (VStrings (variations ex))
  else if String.eqb field "images" then Some (VStrings (images ex))
  else if String.eqb field "videos" then Some (VStrings (videos ex))
  else if String.eqb field "mobile" then VMobile <$> mobile ex
  else if String.eqb field "updatedAt" then VString <$> updatedAt ex
  else None.

(** [filtered[field] = v] on an object kept in key-insertion order. *)
Fixpoint assign (field : string) (v : value) (o : list (string * value)) :
    list (string * value) :=
  match o with
  | [] => [(field, v)]
  | (k, w) :: rest =>
      if String.eqb k field then (k, v) :: rest else (k, w) :: assign field v rest
  end.

Definition pick (fields : list string) (ex : Exercise) : list (string * value) :=
  foldl (λ filtered field,
           match get ex field with
           | Some v => assign field v filtered
           | None => filtered
           end) [] fields.

(** [if (req.query.fields) { ... pick ... }], else the record as it is. *)
Definition select (q : Query) (ex : Exercise) : view :=
  if JS.truthy (q_fields q)
  then Picked (pick (JS.split "," (default "" (q_fields q))) ex)
  else Whole ex.

(** ** Pagination *)

(** [parseInt(req.query.page) || 1] and [parseInt(req.query.limit) || 20] *)
Definition pageOf (q : Query) : Z := JS.or_default (JS.parseInt (q_page q)) 1.
Definition limitOf (q : Query) : Z := JS.or_default (JS.parseInt (q_limit q)) 20.

Definition paginate (q : Query) (exercises : list Exercise) :
    Metadata * list Exercise :=
  let page := pageOf q in
  let limit := limitOf q in
  let startIndex := (page - 1) * limit in
  let endIndex := page * limit in
  let len := Z.of_nat (length exercises) in
  ({| total := len; page := page; limit := limit;
      pages := JS.ceil_div len limit; version := None |},
   JS.slice exercises startIndex endIndex).

(** ** Handlers

    Each handler runs inside [try { ... } catch], answering 500 on an
    exception; with well-formed files and string parameters nothing throws,
    so that branch does not appear. *)

(** GET /api/v1/version *)
Definition getVersion (srv : Server) : Response :=
  {| status := 200; body := BVersion (dataVersion srv) API_VERSION |}.

(** The filters of GET /api/v1/exercises, in source order. *)
Definition listFilters (q : Query) (exercises : list Exercise) : list Exercise :=
  let exercises := when (q_category q) (λ c, List.filter (matchesCategory c)) exercises in
  let exercises := when (q_difficulty q) (λ d, List.filter (matchesDifficulty d)) exercises in
  let exercises := when (q_equipment q) (λ e, List.filter (matchesEquipment e)) exercises in
  let exercises := when (q_muscle q) (λ m, List.filter (matchesMuscle m)) exercises in
  when (q_tags q) (λ t, List.filter (matchesTags t)) exercises.

(** GET /api/v1/exercises *)
Definition listExercises (srv : Server) (q : Query) : Response :=
  match exercises_json (data srv) with
  | None =>
      {| status := 404;
         body := BError "No exercise data found. Run the conversion script first." |}
  | Some file =>
      let exercises := listFilters q (agg_exercises file) in
      let '(m, paginatedExercises) := paginate q exercises in
      let metadata :=
        {| total := total m; page := page m; limit := limit m;
           pages := pages m; version := Some (dataVersion srv) |} in
      {| status := 200; body := BList metadata (map (select q) paginatedExercises) |}
  end.

(** GET /api/v1/exercises/:id *)
Definition getExercise (srv : Server) (id_param : string) (q : Query) : Response :=
  match record_files (data srv) !! id_param with
  | None => {| status := 404; body := BError "Exercise not found" |}
  | Some exercise =>
      {| status := 200; body := BExercise (select q exercise) |}
  end.

(** The loop of the batch handler: push each id's record if its file exists. *)
Fixpoint collect (files : gmap string Exercise) (ids : list string) : list Exercise :=
  match ids with
  | [] => []
  | id_ :: rest =>
      match files !! id_ with
      | Some ex => ex :: collect files rest
      | None => collect files rest
      end
  end.

(** GET /api/v1/exercises/batch *)
Definition getBatch (srv : Server) (q : Query) : Response :=
  if negb (JS.truthy (q_ids q))
  then {| status := 400; body := BError "IDs parameter is required" |}
  else let ids := JS.split "," (default "" (q_ids q)) in
       {| status := 200; body := BBatch (collect (record_files (data srv)) ids) |}.

(** The filters of GET /api/v1/search, in source order. *)
Definition searchFilters (q : Query) (exercises : list Exercise) : list Exercise :=
  let results := when (q_query q)
                   (λ query, List.filter (matchesText (JS.toLowerCase query))) exercises in
  let results := when (q_category q) (λ c, List.filter (matchesCategory c)) results in
  let results := when (q_difficulty q) (λ d, List.filter (matchesDifficulty d)) results in
  let results := when (q_equipment q) (λ e, List.filter (matchesEquipment e)) results in
  when (q_muscle q) (λ m, List.filter (matchesMuscle m)) results.

(** GET /api/v1/search *)
Definition search (srv : Server) (q : Query) : Response :=
  if negb (JS.truthy (q_query q)) && negb (JS.truthy (q_category q)) &&
     negb (JS.truthy (q_difficulty q)) && negb (JS.truthy (q_equipment q)) &&
     negb (JS.truthy (q_muscle q))
  then {| status := 400; body := BError "At least one search parameter is required" |}
  else
    match exercises_json (data srv) with
    | None => {| status := 404; body := BError "No exercise data found" |}
    | Some file =>
        let results := searchFilters q (agg_exercises file) in
        let '(metadata, paginatedResults) := paginate q results in
        {| status := 200; body := BList metadata (map Whole paginatedResults) |}
    end.

(** GET /api/v1/categories: a literal table. *)
Definition categoryTable : list (string * string) :=
  [("upper-body", "Upper Body"); ("lower-body", "Lower Body"); ("core", "Core");
   ("cardio", "Cardio"); ("flexibility", "Flexibility")].

Definition getCategories (srv : Server) : Response :=
  {| status := 200; body := BCategories categoryTable |}.

(** The [muscleSet] built by GET /api/v1/muscles. *)
Definition addMuscles (muscleSet : list string) (exercise : Exercise) : list string :=
  let muscleSet := foldl (λ s muscle, JS.set_add muscle s) muscleSet
                         (default [] (primaryMuscles exercise)) in
  foldl (λ s muscle, JS.set_add muscle s) muscleSet
        (default [] (secondaryMuscles exercise)).

Definition muscleSetOf (exercises : list Exercise) : list string :=
  foldl addMuscles [] exercises.

(** GET /api/v1/muscles *)
Definition getMuscles (srv : Server) : Response :=
  match exercises_json (data srv) with
  | None => {| status := 404; body := BError "No exercise data found" |}
  | Some file =>
      {| status := 200; body := BMuscles (JS.sort (muscleSetOf (agg_exercises file))) |}
  end.

(** ** Routing *)

Inductive segment :=
  | Lit (s : string)
  | Param (name : string).

Inductive handler :=
  | HVersion | HList | HGetById | HBatch | HSearch | HCategories | HMuscles | HRoot.

Definition apiRoute : list segment := [Lit "api"; Lit "v1"].

(** The [app.get] registrations, in source order. *)
Definition routes : list (list segment * handler) :=
  [ (apiRoute ++ [Lit "version"], HVersion);
    (apiRoute ++ [Lit "exercises"], HList);
    (apiRoute ++ [Lit "exercises"; Param "id"], HGetById);
    (apiRoute ++ [Lit "exercises"; Lit "batch"], HBatch);
    (apiRoute ++ [Lit "search"], HSearch);
    (apiRoute ++ [Lit "categories"], HCategories);
    (apiRoute ++ [Lit "muscles"], HMuscles);
    ([], HRoot) ].

(** Matching a request path, given by its segments, against a route path;
    the result is [req.params]. Literals compare case-insensitively and a
    parameter takes one non-empty segment, as Express does by default. *)
Fixpoint matchPath (pattern : list segment) (path : list string) :
    option (list (string * string)) :=
  match pattern, path with
  | [], [] => Some []
  | Lit s :: pattern', seg :: path' =>
      if String.eqb (JS.toLowerCase s) (JS.toLowerCase seg)
      then matchPath pattern' path' else None
  | Param p :: pattern', seg :: path' =>
      if String.eqb seg "" then None
      else (λ params, (p, seg) :: params) <$> matchPath pattern' path'
  | _, _ => None
  end.

(** The first registered route whose path matches. *)
Fixpoint findRoute (table : list (list segment * handler)) (path : list string) :
    option (handler * list (string * string)) :=
  match table with
  | [] => None
  | (pattern, h) :: rest =>
      match matchPath pattern path with
      | Some params => Some (h, params)
      | None => findRoute rest path
      end
  end.

Fixpoint param (params : list (string * string)) (key : string) : string :=
  match params with
  | [] => ""
  | (k, v) :: rest => if String.eqb k key then v else param rest key
  end.

Definition runHandler (h : handler) (srv : Server)
    (params : list (string * string)) (q : Query) : Response :=
  match h with
  | HVersion => getVersion srv
  | HList => listExercises srv q
  | HGetById => getExercise srv (param params "id") q
  | HBatch => getBatch srv q
  | HSearch => search srv q
  | HCategories => getCategories srv
  | HMuscles => getMuscles srv
  | HRoot => {| status := 200; body := BRoot |}
  end.

(** A GET request for [path]. No handler passes control on, so the first
    matching route answers; [None] when no route matches (the request is
    then left to the static [/assets] middleware or to Express's own 404
    page). *)
Definition handle (srv : Server) (path : list string) (q : Query) : option Response :=
  match findRoute routes path with
  | Some (h, params) => Some (runHandler h srv params q)
  | None => None
  end.

(** ** The query engine in the words of the specification

    The statements below follow the specification, not the code; the facts
    further down compare them with the handlers. *)

(** [needle] occurs in [s]. *)
Definition substring (needle s : string) : Prop :=
  ∃ before after, s = before +:+ needle +:+ after.

(** Substring match over name, description, or some tag, ignoring case. *)
Definition textMatch (text : string) (ex : Exercise) : Prop :=
  let needle := JS.toLowerCase text in
  substring needle (JS.toLowerCase (name ex)) ∨
  (∃ d, description ex = Some d ∧ substring needle (JS.toLowerCase d)) ∨
  (∃ ts tag, tags ex = Some ts ∧ tag ∈ ts ∧ substring needle (JS.toLowerCase tag)).

(** A criterion binds only when its parameter is supplied (and not empty). *)
Definition supplied (param : option string) (P : string → Prop) : Prop :=
  ∀ v, param = Some v → v ≠ "" → P v.

Definition inField (field : option (list string)) (x : string) : Prop :=
  ∃ l, field = Some l ∧ x ∈ l.

(** Category equality, difficulty equality, equipment membership, muscle
    membership over primary union secondary. *)
Definition equalityFilters (q : Query) (ex : Exercise) : Prop :=
  supplied (q_category q) (λ c, category ex = c) ∧
  supplied (q_difficulty q) (λ d, difficulty ex = d) ∧
  supplied (q_equipment q) (λ e, inField (equipment ex) e) ∧
  supplied (q_muscle q)
    (λ m, inField (primaryMuscles ex) m ∨ inField (secondaryMuscles ex) m).

(** Tags any-of intersection. *)
Definition tagsFilter (q : Query) (ex : Exercise) : Prop :=
  supplied (q_tags q)
    (λ t, ∃ tag, tag ∈ JS.split "," t ∧ inField (tags ex) tag).

(** Search as stated: text match and the five filters of List. *)
Definition searchAsStated (q : Query) (dataset : list Exercise) : Prop :=
  ∀ ex, ex ∈ searchFilters q dataset ↔
        ex ∈ dataset ∧ supplied (q_query q) (λ text, textMatch text ex) ∧
        equalityFilters q ex ∧ tagsFilter q ex.

(** Some criterion of Search is supplied. *)
Definition hasCriterion (q : Query) : bool :=
  JS.truthy (q_query q) || JS.truthy (q_category q) || JS.truthy (q_difficulty q) ||
  JS.truthy (q_equipment q) || JS.truthy (q_muscle q).

(** The same request with the [tags] parameter taken out. *)
Definition withoutTags (q : Query) : Query :=
  {| q_category := q_category q; q_difficulty := q_difficulty q;
     q_equipment := q_equipment q; q_muscle := q_muscle q; q_tags := None;
     q_page := q_page q; q_limit := q_limit q; q_fields := q_fields q;
     q_query := q_query q; q_ids := q_ids q |}.

(** [p] is the ceiling of [c / l]. *)
Definition isCeiling (c l p : Z) : Prop :=
  if 0 <? l then (p - 1) * l < c ≤ p * l else p * l ≤ c < (p - 1) * l.

(** Pagination as stated, for the filtered list of a request. *)
Definition paginationAsStated (q : Query) (filtered : list Exercise) : Prop :=
  let c := Z.of_nat (length filtered) in
  let l := limitOf q in
  let '(m, shown) := paginate q filtered in
  shown = take (Z.to_nat l) (drop (Z.to_nat ((pageOf q - 1) * l)) filtered) ∧
  isCeiling c l (pages m) ∧
  (pages m < pageOf q → shown = [] ∧ total m = c).

(** A facet as stated: what is listed is what occurs in the dataset. *)
Definition listsValuesOf (listed values : list string) : Prop :=
  ∀ v, v ∈ listed ↔ v ∈ values.

Definition categoriesAsStated (srv : Server) : Prop :=
  ∀ file categories,
    exercises_json (data srv) = Some file →
    body (getCategories srv) = BCategories categories →
    listsValuesOf categories.*1 (category <$> agg_exercises file).

(** The muscles of a record: primary union secondary. *)
Definition targets (ex : Exercise) (muscle : string) : Prop :=
  inField (primaryMuscles ex) muscle ∨ inField (secondaryMuscles ex) muscle.

End Api.

(* ================================================================== *)
(** * The content pipeline (scripts/md-to-json.js)                      *)
(* ================================================================== *)
Module Pipeline.

(** ** Data model *)

(** The front matter: the properties the pipeline and the schema look at,
    and the properties the schema does not name. The properties the
    converter overwrites ([description], [instructions], [tips],
    [variations], [images], [videos], [mobile], [updatedAt]) are not among
    them. *)
Record Metadata := {
  id : option string;
  name : option string;
  category : option string;
  difficulty : option string;
  primaryMuscles : option (list string);
  secondaryMuscles : option (list string);
  equipment : option (list string);
  tags : option (list string);
  others : gmap string JS.Json
}.

Record Mobile := {
  displayOrder : Z;
  categoryDisplayName : option string;
  estimatedTime : Z;
  hasVideo : bool;
  thumbnails : list string
}.

(** The object [parseMarkdownFile] returns. *)
Record ExerciseData := {
  metadata : Metadata;
  description : string;
  instructions : list string;
  tips : list string;
  variations : list string;
  images : list string;
  videos : list string;
  mobile : Mobile;
  updatedAt : string
}.

(** The block tokens of [marked.lexer] the parser distinguishes; a list
    token is given by the texts of its items. *)
Inductive token :=
  | Heading (text : string)
  | Paragraph (text : string)
  | ListBlock (items : list string)
  | OtherBlock.

(** ** Section capture *)

Record Capture := {
  sections : gmap string (list string);
  currentSection : option string
}.

Definition noCapture : Capture := {| sections := ∅; currentSection := None |}.

(** One iteration of [for (const token of tokens)]. The array a paragraph
    is pushed onto exists whenever [currentSection] is set (lemma
    [current_is_captured]), so [alter] never meets a missing key. *)
Definition capture (st : Capture) (tok : token) : Capture :=
  match tok with
  | Heading text =>
      let cur := JS.toLowerCase text in
      {| sections := <[cur := []]> (sections st); currentSection := Some cur |}
  | ListBlock items =>
      if JS.truthy (currentSection st)
      then {| sections := <[default "" (currentSection st) := items]> (sections st);
              currentSection := currentSection st |}
      else st
  | Paragraph text =>
      if JS.truthy (currentSection st)
      then {| sections := alter (λ content, content ++ [text])
                                (default "" (currentSection st)) (sections st);
              currentSection := currentSection st |}
      else st
  | OtherBlock => st
  end.

Definition captureAll (tokens : list token) : Capture := foldl capture noCapture tokens.

(** The heading a block falls under, in the words of the specification: the
    lower-cased text of the last heading before it. *)
Definition currentHeading (before : list token) : option string :=
  foldl (λ cur tok, match tok with
                    | Heading text => Some (JS.toLowerCase text)
                    | _ => cur
                    end) None before.

(** Section capture as stated: under the current heading a paragraph appends
    its text and a list replaces what was captured. *)
Definition captureAsStated (before : list token) : Prop :=
  ∀ h, currentHeading before = Some h →
    (∀ text, sections (captureAll (before ++ [Paragraph text])) !! h =
             (λ content, content ++ [text]) <$> sections (captureAll before) !! h) ∧
    (∀ items, sections (captureAll (before ++ [ListBlock items])) !! h = Some items).

(** ** Enrichment *)

Definition getDifficultyOrder (difficulty : option string) : Z :=
  match difficulty with
  | Some d =>
      if String.eqb d "beginner" then 1
      else if String.eqb d "intermediate" then 2
      else if String.eqb d "advanced" then 3
      else 999
  | None => 999
  end.

Definition categoryMap : gmap string string :=
  list_to_map [("upper-body", "Upper Body"); ("lower-body", "Lower Body");
               ("core", "Core"); ("cardio", "Cardio"); ("flexibility", "Flexibility")].

(** [categoryMap[category] || category] *)
Definition getCategoryDisplayName (category : option string) : option string :=
  match category with
  | Some c => Some (default c (categoryMap !! c))
  | None => None
  end.

(** [Math.round(30 * multiplier)] for the multipliers 1, 1.2 and 1.5. *)
Definition estimateExerciseTime (m : Metadata) : Z :=
  match difficulty m with
  | Some d =>
      if String.eqb d "advanced" then 45
      else if String.eqb d "intermediate" then 36
      else 30
  | None => 30
  end.

Fixpoint dropChars (n : nat) (s : string) : string :=
  match n, s with
  | S n', String _ r => dropChars n' r
  | _, _ => s
  end.

Section Script.

(** Configuration and library calls. *)
Variable BASE_URL : string.
(** The front-matter regular expression of [content.match]: the text
    between the leading [---] line and the next one, and the body after it;
    [None] when the content does not match. *)
Variable frontmatterMatch : string → option (string * string).
(** [yaml.load]; [None] when it throws or loads [null] or [undefined], for
    which [metadata.category] throws. *)
Variable yaml_load : string → option Metadata.
(** [marked.lexer] *)
Variable lexer : string → list token.
(** The two regular-expression scans of the body. *)
Variable extractImageLinks : string → list string.
Variable extractVideoLinks : string → list string.
(** What [new Date().toISOString()] gives at the end of the call. *)
Variable now : string.

(** Paths that climb out of the document's directory become absolute. *)
Definition absolute (assetPath : string) : string :=
  if JS.startsWith "../" assetPath
  then BASE_URL +:+ "/" +:+ dropChars 3 assetPath
  else assetPath.

(** [imgPath => { parts = imgPath.split('.'); ext = parts.pop();
                  return `${parts.join('.')}-thumb.${ext}` }] *)
Definition thumbnail (imgPath : string) : string :=
  let pathParts := JS.split "." imgPath in
  let ext := default "undefined" (last pathParts) in
  let pathParts := removelast pathParts in
  JS.join "." pathParts +:+ "-thumb." +:+ ext.

(** [parseMarkdownFile]; [None] when it throws. *)
Definition parseMarkdownFile (content : string) : option ExerciseData :=
  match frontmatterMatch content with
  | None => None
  | Some (frontmatter, markdown) =>
      match yaml_load frontmatter with
      | None => None
      | Some metadata =>
          let sections := sections (captureAll (lexer markdown)) in
          let images := map absolute (extractImageLinks markdown) in
          let videos := map absolute (extractVideoLinks markdown) in
          let thumbnails := map thumbnail images in
          let mobileMetadata :=
            {| displayOrder := getDifficultyOrder (difficulty metadata);
               categoryDisplayName := getCategoryDisplayName (category metadata);
               estimatedTime := estimateExerciseTime metadata;
               hasVideo := bool_decide (0 < length videos)%nat;
               thumbnails := thumbnails |} in
          Some {| metadata := metadata;
                  description := match sections !! "description" with
                                 | Some d => JS.join (String "010" "") d
                                 | None => ""
                                 end;
                  instructions := default [] (sections !! "instructions");
                  tips := default [] (sections !! "tips");
                  variations := default [] (sections !! "variations");
                  images := images;
                  videos := videos;
                  mobile := mobileMetadata;
                  updatedAt := now |}
      end
  end.

End Script.

(** ** Thumbnails in the words of the specification *)

(** A file extension: the text after the last dot of a file name. *)
Definition extension (ext : string) : Prop :=
  JS.occurs "." ext = false ∧ JS.occurs "/" ext = false.

(** [thumb] is [image] with the thumbnail suffix inserted immediately before
    the file extension. *)
Definition thumbnailOf (image thumb : string) : Prop :=
  ∃ stem ext, image = stem +:+ "." +:+ ext ∧ extension ext ∧
              thumb = stem +:+ "-thumb." +:+ ext.

(** One thumbnail for each image, index by index. *)
Definition thumbnailsAsStated (exerciseData : ExerciseData) : Prop :=
  length (thumbnails (mobile exerciseData)) = length (images exerciseData) ∧
  ∀ (i : nat) image, images exerciseData !! i = Some image →
    ∃ thumb, thumbnails (mobile exerciseData) !! i = Some thumb ∧
             thumbnailOf image thumb.

(** ** Index files *)

(** An entry of [muscles.json]. *)
Record MuscleUse := {
  use_id : option string;
  use_name : option string;
  isPrimary : bool
}.

Record MuscleEntry := {
  muscle_name : string;
  muscle_exercises : list MuscleUse
}.

(** An entry of [categories.json]. *)
Record CategoryEntry := {
  cat_id : option string;
  cat_name : option string;
  cat_count : Z
}.

(** An entry of [equipment.json]. *)
Record EquipmentEntry := {
  eq_id : string;
  eq_name : string;
  eq_count : Z
}.

(** [if (!muscles[muscle]) muscles[muscle] = {name, exercises: []}], then a
    push onto its [exercises]; with [unlessListed], only when no entry of the
    same exercise id is there yet. The entries are in the order of their
    creation. *)
Fixpoint addUse (muscle : string) (use : MuscleUse) (unlessListed : bool)
    (muscles : list MuscleEntry) : list MuscleEntry :=
  match muscles with
  | [] => [{| muscle_name := muscle; muscle_exercises := [use] |}]
  | entry :: rest =>
      if String.eqb (muscle_name entry) muscle
      then
        let alreadyAdded :=
          existsb (λ ex, bool_decide (use_id ex = use_id use)) (muscle_exercises entry) in
        if unlessListed && alreadyAdded then entry :: rest
        else {| muscle_name := muscle;
                muscle_exercises := muscle_exercises entry ++ [use] |} :: rest
      else entry :: addUse muscle use unlessListed rest
  end.

(** The same on the object [muscles = {}], which inherits from
    [Object.prototype]: for an inherited name [muscles[muscle]] is what the
    prototype has, no entry is created, and the access to the [exercises] of
    what was found throws. [None] once it has thrown. *)
Definition addMuscle (use : MuscleUse) (unlessListed : bool)
    (muscles : option (list MuscleEntry)) (muscle : string) :
    option (list MuscleEntry) :=
  if JS.arr_includes muscle JS.inherited then None
  else addUse muscle use unlessListed <$> muscles.

(** The loop of [buildMuscleReference] over the exercises. *)
Definition collectMuscles (muscles : option (list MuscleEntry))
    (exercises : list ExerciseData) : option (list MuscleEntry) :=
  foldl (λ muscles exercise,
           let use primary :=
             {| use_id := id (metadata exercise); use_name := name (metadata exercise);
                isPrimary := primary |} in
           let muscles :=
             foldl (addMuscle (use true) false) muscles
                   (default [] (primaryMuscles (metadata exercise))) in
           foldl (addMuscle (use false) true) muscles
                 (default [] (secondaryMuscles (metadata exercise))))
        muscles exercises.

(** [buildMuscleReference]; [None] when it throws. *)
Definition buildMuscleReference (exercises : list ExerciseData) :
    option (list MuscleEntry) :=
  JS.ownOrder muscle_name <$> collectMuscles (Some []) exercises.

(** The unique categories, each with its display name and its count. *)
Definition categoryIndex (exercises : list ExerciseData) : list CategoryEntry :=
  map (λ cat,
         {| cat_id := cat; cat_name := getCategoryDisplayName cat;
            cat_count :=
              Z.of_nat (length (List.filter
                                  (λ ex, bool_decide (category (metadata ex) = cat))
                                  exercises)) |})
      (JS.unique (map (λ ex, category (metadata ex)) exercises)).

(** The unique equipment, sorted, each with its count. *)
Definition equipmentIndex (exercises : list ExerciseData) : list EquipmentEntry :=
  let equipmentSet :=
    foldl (λ s ex, foldl (λ s eq, JS.set_add eq s) s
                         (default [] (equipment (metadata ex))))
          [] exercises in
  map (λ eq,
         {| eq_id := eq; eq_name := JS.capitalize eq;
            eq_count :=
              Z.of_nat (length (List.filter
                                  (λ ex, match equipment (metadata ex) with
                                         | Some l => JS.arr_includes eq l
                                         | None => false
                                         end)
                                  exercises)) |})
      (JS.sort equipmentSet).

(** ** The version *)

(** A part of the version inside the template literal. *)
Definition part (p : option string) : string := default "undefined" p.

(** The body of [if (hasChanges) { ... }], on a version that is a string. *)
Definition bumpPatch (currentVersion : string) : string :=
  let versionParts := JS.split "." currentVersion in
  let patch := JS.increment (JS.parseDouble (versionParts !! 2%nat)) in
  part (versionParts !! 0%nat) +:+ "." +:+ part (versionParts !! 1%nat)
    +:+ "." +:+ JS.numberToString patch.

(** A semantic version triple, printed. *)
Definition semver (major minor patch : N) : string :=
  pretty major +:+ "." +:+ pretty minor +:+ "." +:+ pretty patch.

(** ** The files of the output directory *)

(** [version.json]; the version is whatever [currentVersion] holds,
    [undefined] being [None]. *)
Record VersionRecord := {
  version : option JS.Json;
  lastUpdated : string;
  exerciseCount : Z
}.

(** [exercises.json] *)
Record Aggregate := {
  agg_version : option JS.Json;
  agg_lastUpdated : string;
  agg_count : Z;
  agg_exercises : list ExerciseData
}.

(** What a call of [fs.writeFileSync] of the script writes. *)
Inductive Document :=
  | HashesFile (currentHashes : gmap string string)
  | VersionFile (versionData : VersionRecord)
  | ExercisesFile (aggregate : Aggregate)
  | MusclesFile (muscles : list MuscleEntry)
  | CategoriesFile (categories : list CategoryEntry)
  | EquipmentFile (equipment : list EquipmentEntry)
  | ExerciseFile (exercise : ExerciseData).

(** [`${exercise.id}.json`] without the extension. *)
Definition fileStem (exercise : ExerciseData) : string := part (id (metadata exercise)).

Definition mobileJson (m : Mobile) : JS.Json :=
  JS.JObject (JS.object
    [("displayOrder", JS.number (displayOrder m));
     ("categoryDisplayName", JS.JString <$> categoryDisplayName m);
     ("estimatedTime", JS.number (estimatedTime m));
     ("hasVideo", Some (JS.JBool (hasVideo m)));
     ("thumbnails", JS.texts (thumbnails m))]).

(** The record [{...metadata, description, ..., updatedAt}]: what the
    converter adds takes the place of a property of the same name. *)
Definition exerciseJson (e : ExerciseData) : JS.Json :=
  let m := metadata e in
  JS.JObject (JS.object
    [("id", JS.JString <$> id m); ("name", JS.JString <$> name m);
     ("category", JS.JString <$> category m);
     ("difficulty", JS.JString <$> difficulty m);
     ("primaryMuscles", primaryMuscles m ≫= JS.texts);
     ("secondaryMuscles", secondaryMuscles m ≫= JS.texts);
     ("equipment", equipment m ≫= JS.texts); ("tags", tags m ≫= JS.texts);
     ("description", JS.text (description e));
     ("instructions", JS.texts (instructions e)); ("tips", JS.texts (tips e));
     ("variations", JS.texts (variations e)); ("images", JS.texts (images e));
     ("videos", JS.texts (videos e)); ("mobile", Some (mobileJson (mobile e)));
     ("updatedAt", JS.text (updatedAt e))] ∪ others m).

Definition useJson (use : MuscleUse) : JS.Json :=
  JS.JObject (JS.object
    [("id", JS.JString <$> use_id use); ("name", JS.JString <$> use_name use);
     ("isPrimary", Some (JS.JBool (isPrimary use)))]).

Definition muscleJson (entry : MuscleEntry) : JS.Json :=
  JS.JObject (JS.object
    [("name", JS.text (muscle_name entry));
     ("exercises", Some (JS.JArray (useJson <$> muscle_exercises entry)))]).

Definition categoryJson (entry : CategoryEntry) : JS.Json :=
  JS.JObject (JS.object
    [("id", JS.JString <$> cat_id entry); ("name", JS.JString <$> cat_name entry);
     ("count", JS.number (cat_count entry))]).

Definition equipmentJson (entry : EquipmentEntry) : JS.Json :=
  JS.JObject (JS.object
    [("id", JS.text (eq_id entry)); ("name", JS.text (eq_name entry));
     ("count", JS.number (eq_count entry))]).

(** [JSON.stringify(document, null, 2)], as the value a reader of the file
    gets back from [JSON.parse]. *)
Definition stringify (document : Document) : JS.Json :=
  match document with
  | HashesFile currentHashes => JS.JObject (JS.JString <$> currentHashes)
  | VersionFile versionData =>
      JS.JObject (JS.object
        [("version", version versionData);
         ("lastUpdated", JS.text (lastUpdated versionData));
         ("exerciseCount", JS.number (exerciseCount versionData))])
  | ExercisesFile aggregate =>
      JS.JObject (JS.object
        [("version", agg_version aggregate);
         ("lastUpdated", JS.text (agg_lastUpdated aggregate));
         ("count", JS.number (agg_count aggregate));
         ("exercises", Some (JS.JArray (exerciseJson <$> agg_exercises aggregate)))])
  | MusclesFile muscles =>
      JS.JObject (JS.object [("muscles", Some (JS.JArray (muscleJson <$> muscles)))])
  | CategoriesFile categories =>
      JS.JObject (JS.object [("categories", Some (JS.JArray (categoryJson <$> categories)))])
  | EquipmentFile equipment =>
      JS.JObject (JS.object [("equipment", Some (JS.JArray (equipmentJson <$> equipment)))])
  | ExerciseFile exercise => exerciseJson exercise
  end.

End Pipeline.

(* ================================================================== *)
(** * A sample dataset: the two exercises of the repository             *)
(* ================================================================== *)
Module Sample.
Import Api.

Definition assets : string :=
  "https://raw.githubusercontent.com/yourusername/WO-App-Exercises/main/../../assets/".

Definition push_up : Exercise :=
  {| id := "push-up"; name := "Push-up"; category := "upper-body";
     difficulty := "beginner";
     primaryMuscles := Some ["chest"; "triceps"; "shoulders"];
     secondaryMuscles := Some ["core"; "serratus-anterior"];
     equipment := Some ["none"];
     tags := Some ["bodyweight"; "compound"];
     description := Some "A bodyweight exercise that primarily targets the chest, triceps, and shoulders.";
     instructions := ["Start in a plank position with hands slightly wider than shoulder-width"];
     tips := ["Keep your body in a straight line from head to heels"];
     variations := ["Knee push-ups (easier)"];
     images := [assets +:+ "images/push-up.jpg"];
     videos := [assets +:+ "videos/push-up.mp4"];
     mobile := Some {| displayOrder := 1; categoryDisplayName := "Upper Body";
                       estimatedTime := 30; hasVideo := true;
                       thumbnails := [assets +:+ "images/push-up-thumb.jpg"] |};
     updatedAt := Some "2025-01-01T00:00:00.000Z" |}.

Definition squat : Exercise :=
  {| id := "squat"; name := "Squat"; category := "lower-body";
     difficulty := "beginner";
     primaryMuscles := Some ["quadriceps"; "glutes"];
     secondaryMuscles := Some ["hamstrings"; "calves"; "lower-back"];
     equipment := Some ["none"; "barbell"; "dumbbell"];
     tags := Some ["compound"; "functional"];
     description := Some "A fundamental lower body exercise that targets multiple muscle groups simultaneously and improves overall strength and mobility.";
     instructions := ["Stand with feet shoulder-width apart, toes slightly pointed outward"];
     tips := ["Keep your knees aligned with your toes, not caving inward"];
     variations := ["Bodyweight squat (beginner)"];
     images := [assets +:+ "images/squat.jpg"];
     videos := [assets +:+ "videos/squat.mp4"];
     mobile := Some {| displayOrder := 1; categoryDisplayName := "Lower Body";
                       estimatedTime := 30; hasVideo := true;
                       thumbnails := [assets +:+ "images/squat-thumb.jpg"] |};
     updatedAt := Some "2025-01-01T00:00:00.000Z" |}.

Definition aggregate : Aggregate :=
  {| agg_version := "1.0.1"; agg_lastUpdated := "2025-01-01T00:00:00.000Z";
     agg_count := 2; agg_exercises := [push_up; squat] |}.

(** The data directory after a pipeline run over the two sources. *)
Definition dataDir : DataDir :=
  {| exercises_json := Some aggregate;
     record_files := <["push-up" := push_up]> (<["squat" := squat]> ∅) |}.

Definition server : Server := {| dataVersion := "1.0.1"; data := dataDir |}.

Definition query (category difficulty equipment muscle tags page limit fields text ids :
    option string) : Query :=
  {| q_category := category; q_difficulty := difficulty; q_equipment := equipment;
     q_muscle := muscle; q_tags := tags; q_page := page; q_limit := limit;
     q_fields := fields; q_query := text; q_ids := ids |}.

(** [?ids=push-up,nonexistent,squat] *)
Definition batchQuery : Query :=
  query None None None None None None None None None (Some "push-up,nonexistent,squat").
(** [?query=push&tags=yoga] *)
Definition taggedSearch : Query :=
  query None None None None (Some "yoga") None None None (Some "push") None.
(** [?category=upper-body] *)
Definition upperBody : Query :=
  query (Some "upper-body") None None None None None None None None None.
(** [?limit=-1] *)
Definition negativeLimit : Query :=
  query None None None None None None (Some "-1") None None None.
(** [?page=2&limit=1] *)
Definition secondOfOne : Query :=
  query None None None None None (Some "2") (Some "1") None None None.

Definition batchPath : list string := ["api"; "v1"; "exercises"; "batch"].
Definition searchPath : list string := ["api"; "v1"; "search"].
Definition listPath : list string := ["api"; "v1"; "exercises"].

(** A source tree for the pipeline: one exercise and the index file. *)
Definition pushUpPath : string := "exercises/categories/upper-body/push-up.md".
Definition squatPath : string := "exercises/categories/lower-body/squat.md".
Definition indexPath : string := "exercises/index.md".

Definition discovered : list string := [pushUpPath; indexPath].

Definition pushUpSource : string :=
  "---" +:+ String "010" "id: push-up" +:+ String "010" "---" +:+ String "010" "# Push-up".

(** The same with an image whose reference has no file extension. *)
Definition bareSource : string :=
  "---" +:+ String "010" "id: push-up" +:+ String "010" "---" +:+ String "010"
  "![Push-up demonstration](../assets/images/push-up)".

Definition readSources (file : string) : option string :=
  if String.eqb file pushUpPath then Some pushUpSource
  else if String.eqb file indexPath then Some "# Exercise Index"
  else None.

(** A stand-in for the digest: the length of the content, printed. *)
Definition lengthHash (content : string) : string :=
  pretty (N.of_nat (String.length content)).

Definition pushUpMetadata : Pipeline.Metadata :=
  {| Pipeline.id := Some "push-up"; Pipeline.name := Some "Push-up";
     Pipeline.category := Some "upper-body"; Pipeline.difficulty := Some "beginner";
     Pipeline.primaryMuscles := Some ["chest"; "triceps"; "shoulders"];
     Pipeline.secondaryMuscles := Some ["core"; "serratus-anterior"];
     Pipeline.equipment := Some ["none"];
     Pipeline.tags := Some ["bodyweight"; "compound"]; Pipeline.others := ∅ |}.

(** Stand-ins for the library calls, enough for the push-up source. *)
Definition sampleMatch (content : string) : option (string * string) :=
  if JS.startsWith "---" content then Some ("id: push-up", "# Push-up") else None.
Definition sampleYaml (frontmatter : string) : option Pipeline.Metadata :=
  Some pushUpMetadata.
Definition sampleLexer (markdown : string) : list Pipeline.token :=
  [Pipeline.Heading "Push-up"; Pipeline.Heading "Description";
   Pipeline.Paragraph "A bodyweight exercise."; Pipeline.Heading "Tips";
   Pipeline.ListBlock ["Keep your body in a straight line"]].
Definition sampleImages (markdown : string) : list string :=
  ["../../../assets/images/push-up.jpg"].
Definition sampleVideos (markdown : string) : list string :=
  ["../../../assets/videos/push-up.mp4"].
Definition sampleNow : string := "2025-01-01T00:00:00.000Z".
Definition sampleBase : string :=
  "https://raw.githubusercontent.com/yourusername/WO-App-Exercises/main".

End Sample.

(* ================================================================== *)
(** * Requests that differ in one parameter                             *)
(* ================================================================== *)
Module Requests.
Import Api.

(** The same request with [page] set. *)
Definition withPage (page : string) (q : Query) : Query :=
  {| q_category := q_category q; q_difficulty := q_difficulty q;
     q_equipment := q_equipment q; q_muscle := q_muscle q; q_tags := q_tags q;
     q_page := Some page; q_limit := q_limit q; q_fields := q_fields q;
     q_query := q_query q; q_ids := q_ids q |}.

(** The same request with [query] set. *)
Definition withQuery (text : string) (q : Query) : Query :=
  {| q_category := q_category q; q_difficulty := q_difficulty q;
     q_equipment := q_equipment q; q_muscle := q_muscle q; q_tags := q_tags q;
     q_page := q_page q; q_limit := q_limit q; q_fields := q_fields q;
     q_query := Some text; q_ids := q_ids q |}.

(** The fields of a record that a field selection can return. *)
Definition present (ex : Exercise) (field : string) : bool :=
  bool_decide (is_Some (get ex field)).

(** The page with number [n] of a request: its records. *)
Definition pageNumber (q : Query) (n : nat) (exercises : list Exercise) : list Exercise :=
  (paginate (withPage (pretty (N.of_nat n)) q) exercises).2.

(** ?page=3&limit=2&fields=id,zzz,id,name *)
Definition thirdOfTwo : Query :=
  Sample.query None None None None None (Some "3") (Some "2")
    (Some "id,zzz,id,name") None None.

End Requests.

(* ================================================================== *)
(** * Regular expressions, as far as the scripts use them               *)
(* ================================================================== *)
Module RegExp.

(** What one position of a pattern accepts: a literal character, the dot
    (any character but a line terminator), any character at all (a class
    together with its complement), or a class given by its ranges. *)
Inductive atom :=
  | Char (c : ascii)
  | Dot
  | Any
  | Class (ranges : list (ascii * ascii)).

Definition lineTerminator (c : ascii) : bool :=
  Ascii.eqb c "010" || Ascii.eqb c "013".

Definition accepts (a : atom) (c : ascii) : bool :=
  match a with
  | Char x => Ascii.eqb c x
  | Dot => negb (lineTerminator c)
  | Any => true
  | Class ranges =>
      existsb (λ '(lo, hi), (N_of_ascii lo <=? N_of_ascii c)%N &&
                             (N_of_ascii c <=? N_of_ascii hi)%N) ranges
  end.

(** The parts of a pattern: the two anchors (without the multiline flag),
    one character, and a starred character, greedy or lazy, inside a capture
    group or not. *)
Inductive node :=
  | Bos
  | Eos
  | One (a : atom)
  | Star (a : atom) (lazy group : bool).

Definition pattern := list node.

(** A match: the captures, in order, and the input after the match. *)
Definition result : Type := list string * string.

Definition snoc (s : string) (c : ascii) : string := s +:+ String c "".

(** The starred character, followed by the rest of the pattern [k]: a lazy
    star tries the rest first and takes one more character when the rest
    fails; a greedy one takes characters first and gives them back one at a
    time. [taken] is what the star has consumed. *)
Fixpoint star (a : atom) (lazy : bool) (k : string → string → option result)
    (taken s : string) : option result :=
  if lazy
  then match k taken s with
       | Some r => Some r
       | None =>
           match s with
           | String c rest =>
               if accepts a c then star a lazy k (snoc taken c) rest else None
           | EmptyString => None
           end
       end
  else match (match s with
              | String c rest =>
                  if accepts a c then star a lazy k (snoc taken c) rest else None
              | EmptyString => None
              end) with
       | Some r => Some r
       | None => k taken s
       end.

(** The backtracking match of [p] at the beginning of [s]; [start] tells
    whether [s] is the whole input. *)
Fixpoint matchHere (p : pattern) (start : bool) (s : string) : option result :=
  match p with
  | [] => Some ([], s)
  | Bos :: p' => if start then matchHere p' start s else None
  | Eos :: p' =>
      match s with
      | EmptyString => matchHere p' start s
      | String _ _ => None
      end
  | One a :: p' =>
      match s with
      | String c rest => if accepts a c then matchHere p' false rest else None
      | EmptyString => None
      end
  | Star a lazy group :: p' =>
      star a lazy
        (λ taken rest,
           match matchHere p' (start && String.eqb taken "") rest with
           | Some (captures, rest') =>
               Some (if group then taken :: captures else captures, rest')
           | None => None
           end)
        "" s
  end.

(** [s.match(p)] and [p.test(s)] without the global flag: the leftmost
    match. *)
Fixpoint exec (p : pattern) (start : bool) (s : string) : option result :=
  match matchHere p start s with
  | Some r => Some r
  | None =>
      match s with
      | String _ rest => exec p false rest
      | EmptyString => None
      end
  end.

Definition test (p : pattern) (s : string) : bool :=
  match exec p true s with
  | Some _ => true
  | None => false
  end.

(** [while ((match = p.exec(s)) !== null) matches.push(match)] with the
    global flag: the matches from left to right, each search starting where
    the match before ended; [skip] counts the characters of [s] a match has
    already consumed. A match of no character would leave [lastIndex] where
    it is and the source's loop would not end; the patterns below cannot
    match without consuming a character. *)
Fixpoint scan (p : pattern) (skip : nat) (start : bool) (s : string) :
    list (list string) :=
  match skip with
  | S skip' =>
      match s with
      | String _ rest => scan p skip' false rest
      | EmptyString => []
      end
  | O =>
      match matchHere p start s with
      | Some (captures, after) =>
          captures ::
          match s with
          | String _ rest =>
              scan p (String.length s - String.length after - 1) false rest
          | EmptyString => []
          end
      | None =>
          match s with
          | String _ rest => scan p 0 false rest
          | EmptyString => []
          end
      end
  end.

(** Every character of [s] is accepted by [a]. *)
Fixpoint accepted (a : atom) (s : string) : bool :=
  match s with
  | EmptyString => true
  | String c rest => accepts a c && accepted a rest
  end.

(** A run of literal characters. *)
Fixpoint lits (s : string) : pattern :=
  match s with
  | EmptyString => []
  | String c rest => One (Char c) :: lits rest
  end.

End RegExp.

(* ================================================================== *)
(** * The scans of scripts/md-to-json.js                                *)
(* ================================================================== *)
Module Scans.
Import RegExp.

Definition nl : string := String "010" "".

(** The line of three dashes that opens the file, and the one that closes
    the front matter. *)
Definition opening : string := "---" +:+ nl.
Definition closing : string := nl +:+ "---" +:+ nl.

(** The pattern of [content.match] in [parseMarkdownFile]: from the start
    of the input the opening line, a lazy group of any characters, the
    closing line, a greedy group of any characters, the end of the input. *)
Definition frontmatterPattern : pattern :=
  Bos :: lits opening ++ Star Any true true :: lits closing ++
  [Star Any false true; Eos].

Definition frontmatterMatch (content : string) : option (string * string) :=
  match exec frontmatterPattern true content with
  | Some (frontmatter :: markdown :: _, _) => Some (frontmatter, markdown)
  | _ => None
  end.

(** The pattern of [extractImageLinks]: an exclamation mark, the alternative
    text in square brackets and the reference in round brackets, both lazy
    groups of the dot. *)
Definition imagePattern : pattern :=
  lits "![" ++ Star Dot true true :: lits "](" ++ Star Dot true true :: lits ")".

(** [matches.push(match[2])] for every match. *)
Definition extractImageLinks (markdown : string) : list string :=
  map (λ captures, default "" (captures !! 1%nat)) (scan imagePattern 0 true markdown).

(** The pattern of [extractVideoLinks]: a link whose text holds [video] or
    [Video]; the reference is the only group. *)
Definition videoPattern : pattern :=
  lits "[" ++ Star Dot true false ::
  One (Class [("v"%char, "v"%char); ("V"%char, "V"%char)]) :: lits "ideo" ++
  Star Dot true false :: lits "](" ++ Star Dot true true :: lits ")".

(** [matches.push(match[1])] for every match. *)
Definition extractVideoLinks (markdown : string) : list string :=
  map (λ captures, default "" (captures !! 0%nat)) (scan videoPattern 0 true markdown).

(** The first closing line of a text, in the words of a reader: the text
    before it and the text after it. *)
Fixpoint cut (before s : string) : option (string * string) :=
  if JS.startsWith closing s
  then Some (before, Pipeline.dropChars 5 s)
  else match s with
       | String c rest => cut (snoc before c) rest
       | EmptyString => None
       end.

(** A text without line terminator. *)
Definition oneLine (s : string) : bool :=
  negb (JS.occurs "010" s) && negb (JS.occurs "013" s).

End Scans.

(* ================================================================== *)
(** * The schema (schemas/exercise.json)                                *)
(* ================================================================== *)
Module Schema.
Import RegExp Pipeline.

(** ["pattern": "^[a-z0-9-]+$"]: one character of the class or more, from
    the start of the input to its end. *)
Definition idClass : atom :=
  Class [("a"%char, "z"%char); ("0"%char, "9"%char); ("-"%char, "-"%char)].
Definition idPattern : pattern := [Bos; One idClass; Star idClass false false; Eos].

Definition categoryEnum : list string :=
  ["upper-body"; "lower-body"; "core"; "cardio"; "flexibility"].
Definition difficultyEnum : list string := ["beginner"; "intermediate"; "advanced"].

(** ["required"] *)
Definition required (m : Metadata) : bool :=
  bool_decide (is_Some (id m)) && bool_decide (is_Some (name m)) &&
  bool_decide (is_Some (category m)) && bool_decide (is_Some (primaryMuscles m)) &&
  bool_decide (is_Some (difficulty m)).

(** A keyword of ["properties"] applies to a property that is present. *)
Definition property {A} (v : option A) (keyword : A → bool) : bool :=
  match v with
  | Some x => keyword x
  | None => true
  end.

(** The compiled validator on a front matter whose properties have the
    types the data model gives them, so that the ["type"] keywords hold. *)
Definition validate (m : Metadata) : bool :=
  required m &&
  property (id m) (test idPattern) &&
  property (category m) (λ c, JS.arr_includes c categoryEnum) &&
  property (primaryMuscles m) (λ a, bool_decide (1 ≤ length a)%nat) &&
  property (difficulty m) (λ d, JS.arr_includes d difficultyEnum).

(** The validator on an enriched record: what the converter adds are strings
    and arrays of strings, as the schema has them, and properties the schema
    does not name. *)
Definition validateExercise (exerciseData : ExerciseData) : bool :=
  validate (metadata exerciseData).

End Schema.

(* ================================================================== *)
(** * The validator (scripts/validate.js)                               *)
(* ================================================================== *)
Module Validate.
Import RegExp.

(** The pattern of [content.match] in [extractFrontmatter]: as the
    converter's, up to the closing line. *)
Definition frontmatterPattern : pattern :=
  Bos :: lits Scans.opening ++ Star Any true true :: lits Scans.closing.

Record Counts := {
  validCount : Z;
  invalidCount : Z
}.

Section Script.

(** [yaml.load], [None] when it throws or loads [null] or [undefined], which
    the schema rejects; [fs.readFileSync], [None] when it throws. *)
Variable yaml_load : string → option Pipeline.Metadata.
Variable readFileSync : string → option string.

(** The text of the first group, [None] where the source throws for want
    of a match. *)
Definition frontmatterOf (content : string) : option string :=
  match exec frontmatterPattern true content with
  | Some (frontmatter :: _, _) => Some frontmatter
  | _ => None
  end.

(** [extractFrontmatter]; [None] when it throws. *)
Definition extractFrontmatter (filePath : string) : option Pipeline.Metadata :=
  match readFileSync filePath with
  | None => None
  | Some content =>
      match frontmatterOf content with
      | None => None
      | Some frontmatter => yaml_load frontmatter
      end
  end.

(** One iteration of [for (const file of files)]. *)
Definition validateFile (st : Counts) (file : string) : Counts :=
  if JS.endsWith "index.md" file then st
  else
    match extractFrontmatter file with
    | Some metadata =>
        if Schema.validate metadata
        then {| validCount := validCount st + 1; invalidCount := invalidCount st |}
        else {| validCount := validCount st; invalidCount := invalidCount st + 1 |}
    | None => {| validCount := validCount st; invalidCount := invalidCount st + 1 |}
    end.

Definition validateAll (files : list string) : Counts :=
  foldl validateFile {| validCount := 0; invalidCount := 0 |} files.

(** [validateExerciseFiles], given the result [files] of the glob. *)
Definition validateExerciseFiles (files : list string) : bool :=
  invalidCount (validateAll files) =? 0.

(** [process.exit(isValid ? 0 : 1)] *)
Definition exitCode (files : list string) : Z :=
  if validateExerciseFiles files then 0 else 1.

End Script.

End Validate.

(* ================================================================== *)
(** * The converter as it runs (scripts/md-to-json.js)                  *)
(* ================================================================== *)
Module Converter.
Import JS Pipeline.

(** The variables of the loop over the discovered files; [readings] is the
    number of readings taken from the clock. *)
Record Loop := {
  currentHashes : gmap string string;
  hasChanges : bool;
  exercises : list ExerciseData;
  validCount : Z;
  invalidCount : Z;
  readings : nat
}.

Definition startLoop : Loop :=
  {| currentHashes := ∅; hasChanges := false; exercises := [];
     validCount := 0; invalidCount := 0; readings := 0 |}.

(** [currentHashes[file] = fileHash] *)
Definition hashed (file fileHash : string) (st : Loop) : Loop :=
  {| currentHashes := <[file := fileHash]> (currentHashes st);
     hasChanges := hasChanges st; exercises := exercises st;
     validCount := validCount st; invalidCount := invalidCount st;
     readings := readings st |}.

(** [if (differs) hasChanges = true] *)
Definition compared (differs : bool) (st : Loop) : Loop :=
  {| currentHashes := currentHashes st; hasChanges := hasChanges st || differs;
     exercises := exercises st; validCount := validCount st;
     invalidCount := invalidCount st; readings := readings st |}.

(** A reading of the clock. *)
Definition read (st : Loop) : Loop :=
  {| currentHashes := currentHashes st; hasChanges := hasChanges st;
     exercises := exercises st; validCount := validCount st;
     invalidCount := invalidCount st; readings := S (readings st) |}.

(** [exercises.push(exerciseData); validCount++] *)
Definition valid (exerciseData : ExerciseData) (st : Loop) : Loop :=
  {| currentHashes := currentHashes st; hasChanges := hasChanges st;
     exercises := exercises st ++ [exerciseData]; validCount := validCount st + 1;
     invalidCount := invalidCount st; readings := readings st |}.

(** [invalidCount++], in the [else] branch and in the [catch] clause. *)
Definition invalid (st : Loop) : Loop :=
  {| currentHashes := currentHashes st; hasChanges := hasChanges st;
     exercises := exercises st; validCount := validCount st;
     invalidCount := invalidCount st + 1; readings := readings st |}.

(** A run either returns or throws out of [processExerciseFiles] or out of
    the lines that load the script. *)
Inductive Outcome :=
  | Returned
  | Thrown.

(** The calls of [fs.writeFileSync] of a run, in order, each with the name
    of its file in the output directory, and how the run ended. *)
Record Run := {
  written : list (string * Document);
  outcome : Outcome
}.

(** The output directory: the files by name, each one the value of the
    JSON text it holds. *)
Definition Dir := gmap string Json.

(** [currentVersion], as set when the script is loaded: [1.0.0] without a
    version file, the [version] of what the file holds otherwise,
    [undefined] being [Some None]; [None] when reading it throws. *)
Definition loadVersion (dir : Dir) : option (option Json) :=
  match dir !! "version.json" with
  | None => Some (Some (JString "1.0.0"))
  | Some JNull => None
  | Some versionData => Some (get "version" versionData)
  end.

(** [previousHashes] *)
Definition loadHashes (dir : Dir) : Json :=
  default (JObject ∅) (dir !! "file-hashes.json").

(** The directory after the calls of a run. *)
Definition persist (dir : Dir) (run : Run) : Dir :=
  foldl (λ (dir : Dir) '(name, document), <[name := stringify document]> dir)
        dir (written run).

(** ** The directory in the words of the specification *)

(** The prior hash ledger: what [file-hashes.json] holds, the empty ledger
    when there is no such file. *)
Definition priorLedger (dir : Dir) (ledger : gmap string Json) : Prop :=
  dir !! "file-hashes.json" = Some (JObject ledger) ∨
  (dir !! "file-hashes.json" = None ∧ ledger = ∅).

(** The last recorded version: the [version] of [version.json], and 1.0.0
    when there is no such file. *)
Definition lastVersion (dir : Dir) (v : string) : Prop :=
  dir !! "version.json" ≫= get "version" = Some (JString v) ∨
  (dir !! "version.json" = None ∧ v = "1.0.0").

Section Script.

(** Configuration and library calls. *)
Variable BASE_URL : string.
(** [yaml.load]; [None] when it throws or loads [null] or [undefined], for
    which [metadata.category] throws before the clock is read. *)
Variable yaml_load : string → option Metadata.
(** [marked.lexer] *)
Variable lexer : string → list token.
(** The readings of [new Date().toISOString()] in one run, in order. *)
Variable clock : nat → string.
(** [crypto.createHash('md5').update(content).digest('hex')] *)
Variable calculateHash : string → string.
(** [fs.readFileSync(file, 'utf8')] on the sources; [None] when it throws. *)
Variable readFileSync : string → option string.

(** [parseMarkdownFile] with the patterns of the script, reading the clock
    as [now]. *)
Definition parseMarkdownFile (now : string) : string → option ExerciseData :=
  Pipeline.parseMarkdownFile BASE_URL Scans.frontmatterMatch yaml_load lexer
    Scans.extractImageLinks Scans.extractVideoLinks now.

(** One iteration of [for (const file of files)], [file] being a path the
    glob returned. The file is hashed and entered in the ledger, compared
    with [previousHashes[file]] (which throws on [null]), parsed and
    validated; what is thrown on the way is caught and counts the file
    invalid. *)
Definition processFile (previousHashes : Json) (st : Loop) (file : string) : Loop :=
  if endsWith "index.md" file then st
  else
    match readFileSync file with
    | None => invalid st
    | Some content =>
        let fileHash := calculateHash content in
        let st := hashed file fileHash st in
        match previousHashes with
        | JNull => invalid st
        | _ =>
            let st := compared (negb (isString (get file previousHashes) fileHash)) st in
            match parseMarkdownFile (clock (readings st)) content with
            | None => invalid st
            | Some exerciseData =>
                let st := read st in
                if Schema.validateExercise exerciseData
                then valid exerciseData st
                else invalid st
            end
        end
    end.

Definition processAll (previousHashes : Json) (files : list string) : Loop :=
  foldl (processFile previousHashes) startLoop files.

(** The script from its first line to its last, given the result [files] of
    the glob and the output directory it finds; console output is left
    out. Outside the loop nothing is caught: the run ends where reading the
    version, splitting a version that is no string or building the muscle
    reference throws. *)
Definition processExerciseFiles (files : list string) (dir : Dir) : Run :=
  match loadVersion dir with
  | None => {| written := []; outcome := Thrown |}
  | Some currentVersion =>
      let st := processAll (loadHashes dir) files in
      let updated :=
        if hasChanges st
        then match currentVersion with
             | Some (JString v) => Some (Some (JString (bumpPatch v)))
             | _ => None
             end
        else Some currentVersion in
      match updated with
      | None => {| written := []; outcome := Thrown |}
      | Some currentVersion =>
          let tracker :=
            [("file-hashes.json", HashesFile (currentHashes st));
             ("version.json",
              VersionFile {| version := currentVersion;
                             lastUpdated := clock (readings st);
                             exerciseCount := validCount st |})] in
          match buildMuscleReference (exercises st) with
          | None => {| written := tracker; outcome := Thrown |}
          | Some muscleData =>
              {| written :=
                   tracker ++
                   [("exercises.json",
                     ExercisesFile {| agg_version := currentVersion;
                                      agg_lastUpdated := clock (S (readings st));
                                      agg_count := Z.of_nat (length (exercises st));
                                      agg_exercises := exercises st |});
                    ("muscles.json", MusclesFile muscleData);
                    ("categories.json", CategoriesFile (categoryIndex (exercises st)));
                    ("equipment.json", EquipmentFile (equipmentIndex (exercises st)))] ++
                   map (λ exercise, (fileStem exercise +:+ ".json", ExerciseFile exercise))
                       (exercises st);
                 outcome := Returned |}
          end
      end
  end.

(** ** The sources in the words of the specification *)

(** A discovered source: a file the loop reads and hashes, with its content. *)
Definition source (files : list string) (file content : string) : Prop :=
  file ∈ files ∧ endsWith "index.md" file = false ∧
  readFileSync file = Some content.

(** The digest the loop computes for a file, if it hashes it at all. *)
Definition fileDigest (file : string) : option string :=
  if endsWith "index.md" file then None
  else calculateHash <$> readFileSync file.

(** The digest computed for a path in this run, if any. *)
Definition digest (files : list string) (file : string) : option string :=
  if bool_decide (file ∈ files) then fileDigest file else None.

(** Some computed digest differs from, or is absent from, the ledger. *)
Definition changed (files : list string) (ledger : gmap string Json) : Prop :=
  ∃ file content,
    source files file content ∧ ledger !! file ≠ Some (JString (calculateHash content)).

(** Every computed digest equals its entry in the ledger. *)
Definition unchanged (files : list string) (ledger : gmap string Json) : Prop :=
  ∀ file content,
    source files file content → ledger !! file = Some (JString (calculateHash content)).

(** The same, decided file by file. *)
Definition differs (files : list string) (ledger : gmap string Json) : bool :=
  existsb (λ file, match fileDigest file with
                   | Some fileHash => negb (isString (ledger !! file) fileHash)
                   | None => false
                   end) files.

(** The front matter of a source, if it is there and loads. *)
Definition frontMatter (file : string) : option Metadata :=
  if endsWith "index.md" file then None
  else match readFileSync file with
       | Some content =>
           match Scans.frontmatterMatch content with
           | Some (frontmatter, _) => yaml_load frontmatter
           | None => None
           end
       | None => None
       end.

(** The front matter of a valid source: it loads and passes the schema. *)
Definition validSource (file : string) : option Metadata :=
  match frontMatter file with
  | Some m => if Schema.validate m then Some m else None
  | None => None
  end.

(** The sources with front matter that loads: one reading of the clock each. *)
Definition parsed (files : list string) : list string :=
  List.filter (λ file, bool_decide (is_Some (frontMatter file))) files.

(** The valid sources. *)
Definition validSources (files : list string) : list string :=
  List.filter (λ file, bool_decide (is_Some (validSource file))) files.

(** A valid record of the run has [stem] for its id. *)
Definition named (files : list string) (stem : string) : Prop :=
  ∃ file m, file ∈ files ∧ validSource file = Some m ∧ id m = Some stem.

(** The record of a source whose front matter loads, the clock giving [now]
    at the end of its parse. *)
Definition record (now file : string) : option ExerciseData :=
  if endsWith "index.md" file then None
  else match readFileSync file with
       | Some content => parseMarkdownFile now content
       | None => None
       end.

(** A valid source targets a muscle whose name every object inherits. *)
Definition inheritedMuscle (files : list string) : Prop :=
  ∃ file m muscle,
    file ∈ files ∧ validSource file = Some m ∧ muscle ∈ inherited ∧
    (muscle ∈ default [] (primaryMuscles m) ∨ muscle ∈ default [] (secondaryMuscles m)).

(** The records of the valid sources, in the order of discovery, the clock
    having been read [readings] times before. *)
Fixpoint records (readings : nat) (files : list string) : list ExerciseData :=
  match files with
  | [] => []
  | file :: files =>
      match record (clock readings) file with
      | Some exerciseData =>
          (if Schema.validateExercise exerciseData then [exerciseData] else []) ++
          records (S readings) files
      | None => records readings files
      end
  end.

(** ** The version tracker in the words of the specification *)

(** The directory a run leaves. *)
Definition left (files : list string) (dir : Dir) : Dir :=
  persist dir (processExerciseFiles files dir).

(** The version tracker as stated: on a changed run the patch component of
    the last recorded version is incremented; the refreshed ledger and a
    version record with a new time and the number of valid records are
    persisted. *)
Definition trackerAsStated (files : list string) (dir : Dir) : Prop :=
  ∀ ledger major minor patch,
    priorLedger dir ledger → lastVersion dir (semver major minor patch) →
    (changed files ledger →
     lastVersion (left files dir) (semver major minor (patch + 1))) ∧
    (∃ ledger', left files dir !! "file-hashes.json" = Some (JObject ledger') ∧
                ∀ p, ledger' !! p = JString <$> digest files p) ∧
    (∃ v, left files dir !! "version.json" =
            Some (stringify (VersionFile
                    {| version := v; lastUpdated := clock (length (parsed files));
                       exerciseCount := Z.of_nat (length (validSources files)) |}))).

(** Idempotence as stated: a run over unchanged sources leaves the persisted
    ledger and the version as they were. *)
Definition rerunAsStated (files : list string) (dir : Dir) : Prop :=
  ∀ ledger,
    dir !! "file-hashes.json" = Some (JObject ledger) → unchanged files ledger →
    left files dir !! "file-hashes.json" = dir !! "file-hashes.json" ∧
    left files dir !! "version.json" ≫= get "version" =
      dir !! "version.json" ≫= get "version".

(** The removal of sources as stated: a run over unchanged sources is not
    treated as changed, the patch component is not incremented, and the
    persisted ledger has no entry for a path that is no source. *)
Definition removalAsStated (files : list string) (dir : Dir) : Prop :=
  ∀ ledger major minor patch,
    dir !! "file-hashes.json" = Some (JObject ledger) →
    lastVersion dir (semver major minor patch) → unchanged files ledger →
    hasChanges (processAll (loadHashes dir) files) = false ∧
    ¬ lastVersion (left files dir) (semver major minor (patch + 1)) ∧
    ∀ p, (∀ content, ¬ source files p content) →
         left files dir !! "file-hashes.json" ≫= get p = None.

End Script.

(** The six files of the tracker and the indexes. *)
Definition runFiles : list string :=
  ["file-hashes.json"; "version.json"; "exercises.json"; "muscles.json";
   "categories.json"; "equipment.json"].

End Converter.

(* ================================================================== *)
(** * Runs of the converter, one after the other                        *)
(* ================================================================== *)
Module History.
Import JS Pipeline Converter.

(** What a run finds: the clock, the content of the files and the result of
    the glob. *)
Record World := {
  clock : nat → string;
  readFileSync : string → option string;
  files : list string
}.

Section Script.

Variable BASE_URL : string.
Variable yaml_load : string → option Metadata.
Variable lexer : string → list token.
Variable calculateHash : string → string.

(** One execution of the script. *)
Definition runIn (w : World) (dir : Dir) : Run :=
  processExerciseFiles BASE_URL yaml_load lexer (clock w) calculateHash
    (readFileSync w) (files w) dir.

(** The directory it leaves. *)
Definition after (w : World) (dir : Dir) : Dir :=
  left BASE_URL yaml_load lexer (clock w) calculateHash (readFileSync w) (files w) dir.

(** The directory after the executions of a history, the oldest first. *)
Definition runsIn (history : list World) (dir : Dir) : Dir :=
  foldl (λ dir w, after w dir) dir history.

(** Whether some digest computed in [w] differs from, or is absent from, the
    ledger on record in [dir]. *)
Definition changedIn (w : World) (dir : Dir) : bool :=
  match dir !! "file-hashes.json" with
  | Some (JObject ledger) => differs calculateHash (readFileSync w) (files w) ledger
  | _ => differs calculateHash (readFileSync w) (files w) ∅
  end.

(** The runs of a history that find such a digest. *)
Fixpoint changedRuns (history : list World) (dir : Dir) : N :=
  match history with
  | [] => 0
  | w :: later =>
      ((if changedIn w dir then 1 else 0) + changedRuns later (after w dir))%N
  end.

(** No run of the history has a valid record named [version] or
    [file-hashes]. *)
Definition plainNames (history : list World) : Prop :=
  ∀ w stem, w ∈ history → stem ∈ ["version"; "file-hashes"] →
    ¬ named yaml_load (readFileSync w) (files w) stem.

End Script.

(** [disk], with [content] in the file [file]. *)
Definition writeFile (file content : string) (disk : string → option string) :
    string → option string :=
  λ p, if String.eqb p file then Some content else disk p.

(** The world after [content] is written to [file], the clock and the
    result of the glob being the same. *)
Definition edit (file content : string) (w : World) : World :=
  {| clock := clock w; readFileSync := writeFile file content (readFileSync w);
     files := files w |}.

End History.

(* ================================================================== *)
(** * Sample sources and output directories                             *)
(* ================================================================== *)
Module Worlds.
Import JS Pipeline Converter History.

Definition nl : string := Scans.nl.

(** A source that passes the schema and is named as the version file is. *)
Definition versionPath : string := "exercises/categories/core/version.md".
Definition versionMatter : string :=
  "id: version" +:+ nl +:+ "name: Version" +:+ nl +:+ "category: core" +:+ nl +:+
  "primaryMuscles: [abs]" +:+ nl +:+ "difficulty: beginner" +:+ nl +:+
  "version: 1.0.5".
Definition versionSource : string :=
  "---" +:+ nl +:+ versionMatter +:+ nl +:+ "---" +:+ nl +:+ "# Version".
Definition versionMetadata : Metadata :=
  {| id := Some "version"; name := Some "Version"; category := Some "core";
     difficulty := Some "beginner"; primaryMuscles := Some ["abs"];
     secondaryMuscles := None; equipment := None; tags := None;
     others := {[ "version" := JString "1.0.5" ]} |}.

(** A source that passes the schema and names a muscle as a property of
    every object is named. *)
Definition plankPath : string := "exercises/categories/core/plank.md".
Definition plankMatter : string :=
  "id: plank" +:+ nl +:+ "name: Plank" +:+ nl +:+ "category: core" +:+ nl +:+
  "primaryMuscles: [constructor]" +:+ nl +:+ "difficulty: beginner".
Definition plankSource : string :=
  "---" +:+ nl +:+ plankMatter +:+ nl +:+ "---" +:+ nl +:+ "# Plank".
Definition plankMetadata : Metadata :=
  {| id := Some "plank"; name := Some "Plank"; category := Some "core";
     difficulty := Some "beginner"; primaryMuscles := Some ["constructor"];
     secondaryMuscles := None; equipment := None; tags := None; others := ∅ |}.

(** A stand-in for [yaml.load], enough for these sources and the push-up. *)
Definition yaml (frontmatter : string) : option Metadata :=
  if String.eqb frontmatter versionMatter then Some versionMetadata
  else if String.eqb frontmatter plankMatter then Some plankMetadata
  else Sample.sampleYaml frontmatter.

Definition readSources (file : string) : option string :=
  if String.eqb file versionPath then Some versionSource
  else if String.eqb file plankPath then Some plankSource
  else Sample.readSources file.

(** The readings of a clock that moves on between them. *)
Definition sampleClock (n : nat) : string :=
  "2025-01-01T00:00:0" +:+ pretty (N.of_nat n) +:+ ".000Z".

(** The push-up source and the index file, as a run finds them. *)
Definition sampleWorld : World :=
  {| clock := sampleClock; readFileSync := readSources; files := Sample.discovered |}.

(** The source named [version] alone. *)
Definition versionWorld : World :=
  {| clock := sampleClock; readFileSync := readSources; files := [versionPath] |}.

(** The push-up source and the source with the inherited muscle name. *)
Definition plankWorld : World :=
  {| clock := sampleClock; readFileSync := readSources;
     files := [Sample.pushUpPath; plankPath] |}.

Definition run : World → Dir → Run :=
  runIn Sample.sampleBase yaml Sample.sampleLexer Sample.lengthHash.

Definition leaves : World → Dir → Dir :=
  after Sample.sampleBase yaml Sample.sampleLexer Sample.lengthHash.

(** A tracker that recorded [v] and the [ledger]. *)
Definition recorded (v : string) (ledger : gmap string string) : Dir :=
  <["version.json" :=
      stringify (VersionFile {| version := Some (JString v);
                                lastUpdated := "2024-12-31T00:00:00.000Z";
                                exerciseCount := Z.of_nat (size ledger) |})]>
    (<["file-hashes.json" := stringify (HashesFile ledger)]> ∅).

(** The output directory as a run over the push-up source leaves its
    tracker. *)
Definition upToDate : Dir :=
  recorded "1.0.1" {[ Sample.pushUpPath := Sample.lengthHash Sample.pushUpSource ]}.

(** The same after the push-up source was rewritten. *)
Definition outdated : Dir := recorded "1.0.1" {[ Sample.pushUpPath := "0" ]}.

(** A directory whose ledger still lists the squat source, now gone. *)
Definition afterRemoval : Dir :=
  recorded "1.0.4"
    (<[Sample.pushUpPath := Sample.lengthHash Sample.pushUpSource]>
       (<[Sample.squatPath := "77"]> ∅)).

(** The same for the source named [version]. *)
Definition versionRemoval : Dir :=
  recorded "1.0.4"
    (<[versionPath := Sample.lengthHash versionSource]>
       (<[Sample.squatPath := "77"]> ∅)).

(** A version whose patch component is 2^53. *)
Definition largePatch : Dir :=
  recorded "1.0.9007199254740992" {[ Sample.pushUpPath := "0" ]}.

(** The directory with the file of a record whose source is gone. *)
Definition stale : Dir :=
  <["squat.json" :=
      JObject (object [("id", text "squat"); ("name", text "Squat")])]> afterRemoval.

(** The push-up source with a character added at its end. *)
Definition rewritten : World :=
  edit Sample.pushUpPath (Sample.pushUpSource +:+ "!") sampleWorld.

End Worlds.

(* ================================================================== *)
(** * The blocks of a section                                           *)
(* ================================================================== *)
Module Blocks.
Import Pipeline.

Definition isHeading (tok : token) : bool :=
  match tok with
  | Heading _ => true
  | _ => false
  end.

(** What the blocks of one section leave in it: a paragraph is pushed, a
    list takes the place of what is there. *)
Definition content (body : list token) : list string :=
  foldl (λ content tok,
           match tok with
           | Paragraph text => content ++ [text]
           | ListBlock items => items
           | _ => content
           end) [] body.

(** The blocks up to the next heading. *)
Fixpoint upToHeading (tokens : list token) : list token :=
  match tokens with
  | [] => []
  | tok :: rest => if isHeading tok then [] else tok :: upToHeading rest
  end.

End Blocks.

(* ================================================================== *)
(** * The entries of the muscle reference                               *)
(* ================================================================== *)
Module Reference.
Import Pipeline.

(** The muscles a record targets, the primary ones first. *)
Definition targeted (ex : ExerciseData) : list string :=
  default [] (primaryMuscles (metadata ex)) ++
  default [] (secondaryMuscles (metadata ex)).

(** An exercise listed under a muscle comes from a record that targets the
    muscle, as primary or as secondary muscle as the entry says. *)
Definition fromRecord (exercises : list ExerciseData) (muscle : string)
    (use : MuscleUse) : Prop :=
  ∃ ex, ex ∈ exercises ∧ use_id use = id (metadata ex) ∧
        use_name use = name (metadata ex) ∧
        muscle ∈ default [] (if isPrimary use then primaryMuscles (metadata ex)
                             else secondaryMuscles (metadata ex)).

End Reference.

(* ================================================================== *)
(** * The files a run writes, by name                                   *)
(* ================================================================== *)
Module Disk.
Import Pipeline.

(** Who wrote a file of the output directory: one of the six calls for the
    ledger, the version record, the aggregate and the three indexes, or the
    loop over the records. *)
Inductive writer :=
  | Index
  | Record (exercise : ExerciseData).

Definition indexFiles : list string :=
  ["file-hashes.json"; "version.json"; "exercises.json"; "muscles.json";
   "categories.json"; "equipment.json"].

(** The calls of [fs.writeFileSync] of a run whose aggregate holds
    [records], in source order, each with the name of its file in the
    output directory. *)
Definition writes (records : list ExerciseData) : list (string * writer) :=
  map (λ name, (name, Index)) indexFiles ++
  map (λ exercise, (fileStem exercise +:+ ".json", Record exercise)) records.

(** The call that wrote a file last. *)
Definition lastWriter (records : list ExerciseData) (name : string) : option writer :=
  foldl (λ (dir : gmap string writer) '(name, w), <[name := w]> dir) ∅
        (writes records) !! name.

End Disk.

(* ================================================================== *)
(** * Facts about the built-ins                                         *)
(* ================================================================== *)
Module JSFacts.
Import JS.

Lemma app_String c (s t : string) : String c s +:+ t = String c (s +:+ t).
Proof. reflexivity. Qed.

Lemma app_empty_l (s : string) : "" +:+ s = s.
Proof. reflexivity. Qed.

Lemma app_assoc (a b c : string) : (a +:+ b) +:+ c = a +:+ b +:+ c.
Proof. induction a as [|x a IH]; [done|]. rewrite !app_String. by f_equal. Qed.

Lemma ascii_eqb_true a b : Ascii.eqb a b = true ↔ a = b.
Proof. apply Ascii.eqb_eq. Qed.

Lemma string_eqb_true (a b : string) : String.eqb a b = true ↔ a = b.
Proof. apply String.eqb_eq. Qed.

(** [startsWith] and [includes] decide "is a prefix" and "is a substring". *)
Lemma startsWith_spec p s : startsWith p s = true ↔ ∃ rest, s = p +:+ rest.
Proof.
  revert s. induction p as [|a p IH]; intros s; simpl.
  - split; [intros _; by exists s|done].
  - destruct s as [|b s]; [split; [done|intros [? ?]; discriminate]|].
    destruct (Ascii.eqb a b) eqn:E.
    + apply ascii_eqb_true in E as ->. rewrite IH. split.
      * intros [r ->]. by exists r.
      * intros [r Hr]. rewrite app_String in Hr. injection Hr as ->. by exists r.
    + split; [done|]. intros [r Hr]. rewrite app_String in Hr.
      injection Hr as -> _. by rewrite Ascii.eqb_refl in E.
Qed.

Lemma includes_spec needle s :
  includes needle s = true ↔ ∃ before after, s = before +:+ needle +:+ after.
Proof.
  induction s as [|c s IH]; simpl; rewrite orb_true_iff, startsWith_spec.
  - split.
    + intros [[r Hr]|?]; [|done]. by exists "", r.
    + intros (b & a & H). left. destruct b; [by exists a|discriminate].
  - rewrite IH. split.
    + intros [[r Hr]|(b & a & ->)]; [by exists "", r|by exists (String c b), a].
    + intros (b & a & H). destruct b as [|x b].
      * left. by exists a.
      * right. rewrite app_String in H. injection H as _ ->. by exists b, a.
Qed.

Lemma not_elem_of_strings (x : string) (l : list string) :
  bool_decide (x ∈ l) = false → x ∈ l → False.
Proof. intros H Hin. by apply bool_decide_eq_false in H. Qed.

(** ** [split] and [join] *)

Lemma split_nonempty sep s : split sep s ≠ [].
Proof.
  destruct s as [|c r]; simpl; [done|].
  destruct (Ascii.eqb c sep); [done|]. by destruct (split sep r).
Qed.

Lemma split_no_sep sep s : occurs sep s = false → split sep s = [s].
Proof.
  induction s as [|c r IH]; simpl; [done|].
  intros [-> Hr]%orb_false_iff. by rewrite IH.
Qed.

Lemma split_app_sep sep a b :
  split sep (a +:+ String sep b) = split sep a ++ split sep b.
Proof.
  induction a as [|c a IH]; rewrite ?app_String; simpl.
  - by rewrite Ascii.eqb_refl.
  - rewrite IH. destruct (Ascii.eqb c sep); [done|].
    pose proof (split_nonempty sep a). by destruct (split sep a).
Qed.

Lemma join_split sep s : join (String sep "") (split sep s) = s.
Proof.
  induction s as [|c r IH]; simpl; [done|].
  destruct (Ascii.eqb c sep) eqn:E.
  - apply ascii_eqb_true in E as ->.
    pose proof (split_nonempty sep r).
    destruct (split sep r) as [|h t] eqn:Es; [done|].
    change (join (String sep "") ("" :: h :: t))
      with ("" +:+ String sep "" +:+ join (String sep "") (h :: t)).
    by rewrite IH.
  - pose proof (split_nonempty sep r).
    destruct (split sep r) as [|h t] eqn:Es; [done|].
    destruct t as [|h' t].
    + simpl in *. by rewrite IH.
    + change (join (String sep "") (String c h :: h' :: t))
        with (String c (h +:+ String sep "" +:+ join (String sep "") (h' :: t))).
      by rewrite <- IH.
Qed.

(** ** Sets of values *)

Lemma unique_from {A} `{EqDecision A} (s arr : list A) x :
  x ∈ foldl (λ s x, if bool_decide (x ∈ s) then s else s ++ [x]) s arr ↔
  x ∈ s ∨ x ∈ arr.
Proof.
  revert s. induction arr as [|y arr IH]; intros s; simpl.
  - rewrite elem_of_nil. naive_solver.
  - rewrite IH, elem_of_cons. case_bool_decide.
    + naive_solver.
    + rewrite elem_of_app, list_elem_of_singleton. naive_solver.
Qed.

Lemma elem_of_unique {A} `{EqDecision A} (arr : list A) x : x ∈ unique arr ↔ x ∈ arr.
Proof. unfold unique. rewrite unique_from, elem_of_nil. naive_solver. Qed.

Lemma NoDup_unique_from {A} `{EqDecision A} (s arr : list A) :
  NoDup s → NoDup (foldl (λ s x, if bool_decide (x ∈ s) then s else s ++ [x]) s arr).
Proof.
  revert s. induction arr as [|y arr IH]; intros s Hs; simpl; [done|].
  apply IH. case_bool_decide; [done|].
  apply NoDup_app. split_and!; [done| |apply NoDup_singleton].
  by intros x Hx ->%list_elem_of_singleton.
Qed.

Lemma NoDup_unique {A} `{EqDecision A} (arr : list A) : NoDup (unique arr).
Proof. apply NoDup_unique_from, NoDup_nil_2. Qed.

(** ** Numbers, evaluated *)

Example parseInt_examples :
  parseInt (Some "  -12px") = Some (-12) ∧ parseInt (Some "0x1F") = Some 31 ∧
  parseInt (Some "abc") = None ∧ parseInt None = None ∧
  or_default (parseInt (Some "0")) 20 = 20.
Proof. by vm_compute. Qed.

Example slice_examples :
  slice [1; 2; 3; 4; 5] 0 (-2) = [1; 2; 3] ∧ slice [1; 2; 3; 4; 5] 5 10 = [] ∧
  slice [1; 2; 3; 4; 5] 2 4 = [3; 4].
Proof. by vm_compute. Qed.

(** ** Decimal numerals *)

Lemma pretty_N_char_is_digit x : is_digit (pretty_N_char x) = true.
Proof. unfold pretty_N_char. by repeat case_match. Qed.

Lemma digit_val_pretty_N_char (x : N) :
  (x < 10)%N → digit_val 10 (pretty_N_char x) = Some (Z.of_N x).
Proof.
  intros Hx.
  assert (x = 0 ∨ x = 1 ∨ x = 2 ∨ x = 3 ∨ x = 4 ∨ x = 5 ∨ x = 6 ∨ x = 7
          ∨ x = 8 ∨ x = 9)%N as H by lia.
  repeat (destruct H as [->|H]; [reflexivity|]). by subst.
Qed.

Lemma pretty_N_go_all_digits x s :
  all_digits s = true → all_digits (pretty_N_go x s) = true.
Proof.
  revert s. induction (N.lt_wf_0 x) as [x _ IH]; intros s Hs.
  destruct (decide (x = 0)%N) as [->|Hx]; [by rewrite pretty_N_go_0|].
  rewrite pretty_N_go_step by lia. apply IH.
  - apply N.div_lt; lia.
  - simpl. by rewrite pretty_N_char_is_digit.
Qed.

Lemma pretty_N_go_value x s :
  accum_digits 10 0 (pretty_N_go x s) = accum_digits 10 (Z.of_N x) s.
Proof.
  revert s. induction (N.lt_wf_0 x) as [x _ IH]; intros s.
  destruct (decide (x = 0)%N) as [->|Hx]; [by rewrite pretty_N_go_0|].
  rewrite pretty_N_go_step by lia.
  rewrite IH by (apply N.div_lt; lia). simpl.
  rewrite digit_val_pretty_N_char by (apply N.mod_lt; lia).
  f_equal. pose proof (N.div_mod x 10). lia.
Qed.

Lemma pretty_N_go_nonempty x s : s ≠ "" → pretty_N_go x s ≠ "".
Proof.
  revert s. induction (N.lt_wf_0 x) as [x _ IH]; intros s Hs.
  destruct (decide (x = 0)%N) as [->|Hx]; [by rewrite pretty_N_go_0|].
  rewrite pretty_N_go_step by lia. apply IH; [apply N.div_lt; lia|done].
Qed.

Lemma pretty_N_all_digits (n : N) : all_digits (pretty n) = true.
Proof.
  unfold pretty, pretty_N. case_decide; [done|]. by apply pretty_N_go_all_digits.
Qed.

Lemma pretty_N_nonempty (n : N) : pretty n ≠ "".
Proof.
  unfold pretty, pretty_N. case_decide; [done|].
  destruct (decide (n = 0)%N); [done|].
  rewrite pretty_N_go_step by lia. by apply pretty_N_go_nonempty.
Qed.

Lemma pretty_N_value (n : N) : accum_digits 10 0 (pretty n) = Z.of_N n.
Proof.
  unfold pretty, pretty_N. case_decide as Hn; [by subst|].
  by rewrite pretty_N_go_value.
Qed.

Lemma pretty_Z_of_N (n : N) : pretty (Z.of_N n) = pretty n.
Proof. by destruct n. Qed.

Lemma all_digits_no_dot s : all_digits s = true → occurs "." s = false.
Proof.
  induction s as [|c r IH]; simpl; [done|].
  intros [Hc Hr]%andb_true_iff. rewrite IH by done.
  destruct c as [[] [] [] [] [] [] [] []]; by try discriminate Hc.
Qed.

(** [parseInt] reads back what number-to-string conversion printed. *)
Lemma parseInt_pretty (n : N) : parseInt (Some (pretty n)) = Some (Z.of_N n).
Proof.
  pose proof (pretty_N_all_digits n) as Hd.
  pose proof (pretty_N_nonempty n) as Hne.
  pose proof (pretty_N_value n) as Hv.
  unfold parseInt, parseInt_string.
  destruct (pretty n) as [|c r]; [done|]. simpl in Hd.
  apply andb_true_iff in Hd as [Hc Hr].
  assert (trimStart (String c r) = String c r) as ->.
  { simpl. destruct c as [[] [] [] [] [] [] [] []]; by try discriminate Hc. }
  assert (parse_digits 10 (String c r) = Some (Z.of_N n)) as Hp.
  { unfold parse_digits. rewrite <- Hv.
    destruct (digit_val 10 c) eqn:E; [done|].
    destruct c as [[] [] [] [] [] [] [] []]; by try discriminate Hc. }
  destruct r as [|c' r].
  - destruct c as [[] [] [] [] [] [] [] []]; try discriminate Hc;
      rewrite Hp; f_equal; lia.
  - simpl in Hr. apply andb_true_iff in Hr as [Hc' Hr].
    destruct c as [[] [] [] [] [] [] [] []]; try discriminate Hc;
      destruct c' as [[] [] [] [] [] [] [] []]; try discriminate Hc';
      rewrite Hp; f_equal; lia.
Qed.

End JSFacts.

(* ================================================================== *)
(** * Facts about the read API                                          *)
(* ================================================================== *)
Module ApiFacts.
Import JS Api JSFacts.

(** ** From the boolean predicates of the handlers to propositions *)

Lemma elem_of_filter_bool {A} (f : A → bool) (l : list A) x :
  x ∈ List.filter f l ↔ x ∈ l ∧ f x = true.
Proof. rewrite !list_elem_of_In. apply filter_In. Qed.

Lemma truthy_Some v : truthy (Some v) = true ↔ v ≠ "".
Proof.
  simpl. destruct (String.eqb v "") eqn:E; simpl.
  - apply string_eqb_true in E. split; [done|]. by intros [].
  - split; [|done]. intros _ ->. by rewrite String.eqb_refl in E.
Qed.

Lemma elem_of_when param (f : string → Exercise → bool) l x :
  x ∈ when param (λ v, List.filter (f v)) l ↔
  x ∈ l ∧ supplied param (λ v, f v x = true).
Proof.
  unfold when, supplied. destruct param as [v|]; [|naive_solver].
  destruct (truthy (Some v)) eqn:E.
  - apply truthy_Some in E. rewrite elem_of_filter_bool. naive_solver.
  - split; [|naive_solver]. intros Hx. split; [done|].
    intros ? [= <-] Hv. apply truthy_Some in Hv. congruence.
Qed.

Lemma arr_includes_spec x arr : arr_includes x arr = true ↔ x ∈ arr.
Proof.
  unfold arr_includes. rewrite existsb_exists. setoid_rewrite string_eqb_true.
  setoid_rewrite <- list_elem_of_In. naive_solver.
Qed.

Lemma has_spec field x : has field x = true ↔ inField field x.
Proof.
  unfold has, inField. destruct field as [l|].
  - rewrite arr_includes_spec. naive_solver.
  - naive_solver.
Qed.

Lemma matchesCategory_spec c ex : matchesCategory c ex = true ↔ category ex = c.
Proof. apply string_eqb_true. Qed.

Lemma matchesDifficulty_spec d ex : matchesDifficulty d ex = true ↔ difficulty ex = d.
Proof. apply string_eqb_true. Qed.

Lemma matchesMuscle_spec m ex :
  matchesMuscle m ex = true ↔
  inField (primaryMuscles ex) m ∨ inField (secondaryMuscles ex) m.
Proof. unfold matchesMuscle. by rewrite orb_true_iff, !has_spec. Qed.

Lemma matchesTags_spec t ex :
  matchesTags t ex = true ↔ ∃ tag, tag ∈ split "," t ∧ inField (tags ex) tag.
Proof.
  unfold matchesTags, inField. destruct (tags ex) as [l|]; [|naive_solver].
  rewrite existsb_exists. setoid_rewrite arr_includes_spec.
  setoid_rewrite <- list_elem_of_In. naive_solver.
Qed.

Lemma toLowerCase_empty s : toLowerCase s = "" → s = "".
Proof. by destruct s. Qed.

Lemma substring_empty needle : substring needle "" → needle = "".
Proof.
  intros (b & a & H). destruct b; [|discriminate]. by destruct needle.
Qed.

Lemma matchesText_spec text ex :
  text ≠ "" → matchesText (toLowerCase text) ex = true ↔ textMatch text ex.
Proof.
  intros Htext. unfold matchesText, textMatch. cbv zeta.
  rewrite !orb_true_iff, includes_spec, Logic.or_assoc.
  apply or_iff_compat_l. apply Morphisms_Prop.or_iff_morphism.
  - destruct (description ex) as [d|];
      [|split; [discriminate|by intros (? & [=] & _)]].
    rewrite andb_true_iff, negb_true_iff, includes_spec. split.
    + intros [_ H]. by exists d.
    + intros (d' & [= <-] & H). split; [|done].
      destruct (String.eqb d "") eqn:E; [|done].
      apply string_eqb_true in E as ->. apply substring_empty in H.
      by apply toLowerCase_empty in H.
  - destruct (tags ex) as [ts|];
      [|split; [discriminate|by intros (? & ? & [=] & _)]].
    rewrite existsb_exists. setoid_rewrite includes_spec. split.
    + intros (tag & Hin & H). exists ts, tag. by rewrite list_elem_of_In.
    + intros (? & tag & [= <-] & Hin & H). exists tag. by rewrite <- list_elem_of_In.
Qed.

(** ** The filtered lists *)

(** Search keeps exactly the records passing the supplied text match and
    the four supplied filters; the [tags] parameter plays no part. *)
Lemma elem_of_searchFilters q dataset ex :
  ex ∈ searchFilters q dataset ↔
  ex ∈ dataset ∧ supplied (q_query q) (λ text, textMatch text ex) ∧
  equalityFilters q ex.
Proof.
  unfold searchFilters, equalityFilters. rewrite !elem_of_when.
  unfold supplied.
  setoid_rewrite matchesCategory_spec. setoid_rewrite matchesDifficulty_spec.
  setoid_rewrite matchesMuscle_spec.
  assert (∀ v, matchesEquipment v ex = true ↔ inField (equipment ex) v) as He
    by (intros; apply has_spec).
  setoid_rewrite He.
  split.
  - intros ((((( ? & Ht) & ?) & ?) & ?) & ?). repeat split; try done.
    intros v Hv Hne. apply matchesText_spec; eauto.
  - intros (? & Ht & ? & ? & ? & ?). repeat split; try done.
    intros v Hv Hne. apply matchesText_spec; eauto.
Qed.

(** List keeps exactly the records passing the five supplied filters. *)
Lemma elem_of_listFilters q dataset ex :
  ex ∈ listFilters q dataset ↔
  ex ∈ dataset ∧ equalityFilters q ex ∧ tagsFilter q ex.
Proof.
  unfold listFilters, equalityFilters, tagsFilter. rewrite !elem_of_when.
  unfold supplied.
  setoid_rewrite matchesCategory_spec. setoid_rewrite matchesDifficulty_spec.
  setoid_rewrite matchesMuscle_spec. setoid_rewrite matchesTags_spec.
  assert (∀ v, matchesEquipment v ex = true ↔ inField (equipment ex) v) as He
    by (intros; apply has_spec).
  setoid_rewrite He. naive_solver.
Qed.

(** Without query text, Search filters as List does on the request without
    its [tags] parameter. *)
Lemma searchFilters_no_text q dataset :
  truthy (q_query q) = false →
  searchFilters q dataset = listFilters (withoutTags q) dataset.
Proof.
  intros H. unfold searchFilters, listFilters. simpl.
  unfold when at 5. rewrite H. by unfold when at 5.
Qed.

(** ** Pagination *)

Lemma slice_page {A} (l : list A) (page limit : Z) :
  1 ≤ page → 1 ≤ limit →
  slice l ((page - 1) * limit) (page * limit) =
  take (Z.to_nat limit) (drop (Z.to_nat ((page - 1) * limit)) l).
Proof.
  intros Hp Hl. unfold slice.
  assert (0 ≤ (page - 1) * limit) as Hs by nia.
  assert ((page - 1) * limit + limit = page * limit) as He by lia.
  destruct ((page - 1) * limit <? 0) eqn:E1; [lia|].
  destruct (page * limit <? 0) eqn:E2; [lia|].
  set (start := (page - 1) * limit) in *.
  set (len := Z.of_nat (length l)).
  destruct (decide (start ≤ len)) as [Hle|Hgt].
  - rewrite (Z.min_l start len) by done.
    destruct (decide (page * limit ≤ len)).
    + rewrite Z.min_l by done. f_equal. lia.
    + rewrite Z.min_r by lia.
      rewrite !take_ge; [done|rewrite length_drop; lia..].
  - rewrite (Z.min_r start len) by lia.
    rewrite (drop_ge l (Z.to_nat start)) by lia.
    rewrite drop_ge by lia. by rewrite !take_nil.
Qed.

Lemma ceil_div_isCeiling c l : l ≠ 0 → isCeiling c l (ceil_div c l).
Proof.
  intros Hl. unfold isCeiling, ceil_div.
  pose proof (Z.div_mod (- c) l Hl) as Hdm.
  destruct (0 <? l) eqn:E.
  - pose proof (Z.mod_pos_bound (- c) l). nia.
  - pose proof (Z.mod_neg_bound (- c) l). nia.
Qed.

Lemma or_default_nonzero n d : d ≠ 0 → or_default n d ≠ 0.
Proof.
  intros Hd. unfold or_default. destruct n as [v|]; [|done].
  destruct (v =? 0) eqn:E; lia.
Qed.

Lemma page_beyond_range {A} (l : list A) (page limit : Z) :
  1 ≤ page → 1 ≤ limit →
  ceil_div (Z.of_nat (length l)) limit < page →
  take (Z.to_nat limit) (drop (Z.to_nat ((page - 1) * limit)) l) = [].
Proof.
  intros Hp Hl Hb.
  pose proof (ceil_div_isCeiling (Z.of_nat (length l)) limit) as Hc.
  unfold isCeiling in Hc. destruct (0 <? limit) eqn:E; [|lia].
  rewrite drop_ge; [by rewrite take_nil|]. specialize (Hc ltac:(lia)). nia.
Qed.

(** ** The handlers' answers *)

Lemma listExercises_ok srv q file :
  exercises_json (data srv) = Some file →
  let filtered := listFilters q (agg_exercises file) in
  listExercises srv q =
  {| status := 200;
     body := BList {| total := Z.of_nat (length filtered); page := pageOf q;
                      limit := limitOf q;
                      pages := ceil_div (Z.of_nat (length filtered)) (limitOf q);
                      version := Some (dataVersion srv) |}
                   (map (select q) (paginate q filtered).2) |}.
Proof. intros H. unfold listExercises. by rewrite H. Qed.

Lemma search_ok srv q file :
  exercises_json (data srv) = Some file →
  hasCriterion q = true →
  let results := searchFilters q (agg_exercises file) in
  search srv q =
  {| status := 200;
     body := BList {| total := Z.of_nat (length results); page := pageOf q;
                      limit := limitOf q;
                      pages := ceil_div (Z.of_nat (length results)) (limitOf q);
                      version := None |}
                   (map Whole (paginate q results).2) |}.
Proof.
  intros H Hc. unfold search, hasCriterion in *. rewrite H.
  destruct (truthy (q_query q)), (truthy (q_category q)),
    (truthy (q_difficulty q)), (truthy (q_equipment q)),
    (truthy (q_muscle q)); done.
Qed.

Lemma search_bad_request srv q :
  hasCriterion q = false →
  search srv q =
  {| status := 400; body := BError "At least one search parameter is required" |}.
Proof.
  intros Hc. unfold search, hasCriterion in *.
  destruct (truthy (q_query q)), (truthy (q_category q)),
    (truthy (q_difficulty q)), (truthy (q_equipment q)),
    (truthy (q_muscle q)); done.
Qed.

(** Had the batch handler been reached: the records found, in input order. *)
Lemma collect_omap files ids : collect files ids = omap (λ i, files !! i) ids.
Proof.
  induction ids as [|i ids IH]; simpl; [done|].
  rewrite IH. by destruct (files !! i).
Qed.

Lemma getBatch_found srv q ids :
  q_ids q = Some ids → ids ≠ "" →
  getBatch srv q =
  {| status := 200;
     body := BBatch (omap (λ i, record_files (data srv) !! i) (split "," ids)) |}.
Proof.
  intros H Hne. unfold getBatch. rewrite H.
  apply truthy_Some in Hne. rewrite Hne. simpl. by rewrite collect_omap.
Qed.

(** ** Routing *)

(** The id route is registered before the batch route and takes its path. *)
Lemma batch_path_routed_to_id :
  findRoute routes ["api"; "v1"; "exercises"; "batch"] = Some (HGetById, [("id", "batch")]).
Proof. reflexivity. Qed.

Lemma batch_request_handled_by_id srv q :
  handle srv ["api"; "v1"; "exercises"; "batch"] q = Some (getExercise srv "batch" q).
Proof. reflexivity. Qed.

Lemma search_path_routed srv q :
  handle srv ["api"; "v1"; "search"] q = Some (search srv q).
Proof. reflexivity. Qed.

Lemma list_path_routed srv q :
  handle srv ["api"; "v1"; "exercises"] q = Some (listExercises srv q).
Proof. reflexivity. Qed.

(** ** The muscles listing *)

Lemma elem_of_set_add x y s : x ∈ set_add y s ↔ x ∈ s ∨ x = y.
Proof.
  unfold set_add. destruct (arr_includes y s) eqn:E.
  - apply arr_includes_spec in E. naive_solver.
  - rewrite elem_of_app, list_elem_of_singleton. naive_solver.
Qed.

Lemma NoDup_set_add y s : NoDup s → NoDup (set_add y s).
Proof.
  intros Hs. unfold set_add. destruct (arr_includes y s) eqn:E; [done|].
  apply NoDup_app. split_and!; [done| |apply NoDup_singleton].
  intros x Hx ->%list_elem_of_singleton.
  apply arr_includes_spec in Hx. congruence.
Qed.

Lemma elem_of_add_all x l s :
  x ∈ foldl (λ s muscle, set_add muscle s) s l ↔ x ∈ s ∨ x ∈ l.
Proof.
  revert s. induction l as [|y l IH]; intros s; simpl.
  - rewrite elem_of_nil. naive_solver.
  - rewrite IH, elem_of_set_add, elem_of_cons. naive_solver.
Qed.

Lemma NoDup_add_all l s :
  NoDup s → NoDup (foldl (λ s muscle, set_add muscle s) s l).
Proof.
  revert s. induction l as [|y l IH]; intros s Hs; simpl; [done|].
  by apply IH, NoDup_set_add.
Qed.

Lemma elem_of_default_inField (field : option (list string)) x :
  x ∈ default [] field ↔ inField field x.
Proof.
  unfold inField. destruct field as [l|]; simpl.
  - naive_solver.
  - rewrite elem_of_nil. naive_solver.
Qed.

Lemma elem_of_addMuscles x s ex : x ∈ addMuscles s ex ↔ x ∈ s ∨ targets ex x.
Proof.
  unfold addMuscles, targets.
  rewrite !elem_of_add_all, !elem_of_default_inField. naive_solver.
Qed.

Lemma elem_of_muscleSet_from x s dataset :
  x ∈ foldl addMuscles s dataset ↔ x ∈ s ∨ ∃ ex, ex ∈ dataset ∧ targets ex x.
Proof.
  revert s. induction dataset as [|ex dataset IH]; intros s; simpl.
  - setoid_rewrite elem_of_nil. naive_solver.
  - rewrite IH, elem_of_addMuscles. setoid_rewrite elem_of_cons. naive_solver.
Qed.

Lemma NoDup_muscleSet_from s dataset : NoDup s → NoDup (foldl addMuscles s dataset).
Proof.
  revert s. induction dataset as [|ex dataset IH]; intros s Hs; simpl; [done|].
  apply IH. unfold addMuscles. by do 2 apply NoDup_add_all.
Qed.

Lemma elem_of_muscleSetOf x dataset :
  x ∈ muscleSetOf dataset ↔ ∃ ex, ex ∈ dataset ∧ targets ex x.
Proof.
  unfold muscleSetOf. rewrite elem_of_muscleSet_from, elem_of_nil. naive_solver.
Qed.

Lemma sort_spec l :
  StronglySorted String.le (sort l) ∧ sort l ≡ₚ l.
Proof.
  split; [apply StronglySorted_merge_sort; apply _|apply merge_sort_Permutation].
Qed.

(** ** The scenarios of the specification, evaluated *)

Example list_upper_body :
  listExercises Sample.server Sample.upperBody =
  {| status := 200;
     body := BList {| total := 1; page := 1; limit := 20; pages := 1;
                      version := Some "1.0.1" |}
                   [Whole Sample.push_up] |}.
Proof. reflexivity. Qed.

Example get_by_id_fields :
  handle Sample.server ["api"; "v1"; "exercises"; "push-up"]
    (Sample.query None None None None None None None (Some "id,name") None None) =
  Some {| status := 200;
          body := BExercise (Picked [("id", VString "push-up");
                                     ("name", VString "Push-up")]) |}.
Proof. reflexivity. Qed.

Example get_by_id_missing :
  handle Sample.server ["api"; "v1"; "exercises"; "plank"] no_query =
  Some {| status := 404; body := BError "Exercise not found" |}.
Proof. reflexivity. Qed.

Example page_beyond_the_last :
  listExercises Sample.server
    (Sample.query None None None None None (Some "7") (Some "1") None None None) =
  {| status := 200;
     body := BList {| total := 2; page := 7; limit := 1; pages := 2;
                      version := Some "1.0.1" |} [] |}.
Proof. reflexivity. Qed.

Example negative_limit :
  listExercises Sample.server Sample.negativeLimit =
  {| status := 200;
     body := BList {| total := 2; page := 1; limit := -1; pages := -2;
                      version := Some "1.0.1" |}
                   [Whole Sample.push_up] |}.
Proof. reflexivity. Qed.

(** ** The claims about the query engine *)

(** C1 (Batch). Every request [GET /api/v1/exercises/batch] is answered by
    the id route, registered first, with [batch] for the id. With
    [ids=push-up,nonexistent,squat], over the dataset holding push-up and
    squat, the answer is status 404 and [{error: "Exercise not found"}]; the
    batch handler, which would have answered with the two records in input
    order, is never reached. *)
Theorem batch_request_answered_by_id_route :
  (∀ srv q, handle srv Sample.batchPath q = Some (getExercise srv "batch" q)) ∧
  handle Sample.server Sample.batchPath Sample.batchQuery =
    Some {| status := 404; body := BError "Exercise not found" |} ∧
  getBatch Sample.server Sample.batchQuery =
    {| status := 200; body := BBatch [Sample.push_up; Sample.squat] |}.
Proof. split_and!; reflexivity. Qed.

(** C2 (BadRequest). A Search request without any criterion is answered with
    status 400 and an [{error: message}] body, but a Batch request without
    ids is answered by the id route with status 404, not by the batch
    handler's 400. *)
Theorem batch_without_ids_answered_not_found :
  (∀ srv, handle srv Sample.searchPath no_query =
          Some {| status := 400;
                  body := BError "At least one search parameter is required" |}) ∧
  handle Sample.server Sample.batchPath no_query =
    Some {| status := 404; body := BError "Exercise not found" |} ∧
  (∀ srv, getBatch srv no_query =
          {| status := 400; body := BError "IDs parameter is required" |}).
Proof. split_and!; reflexivity. Qed.

(** C3, as stated, fails: over the dataset holding push-up and squat the
    categories listing names [core], a category no record has. *)
Lemma categories_not_from_dataset : ¬ categoriesAsStated Sample.server.
Proof.
  intros H. specialize (H _ categoryTable eq_refl eq_refl).
  destruct (H "core") as [Hcore _].
  apply (not_elem_of_strings "core" ["upper-body"; "lower-body"]); [done|].
  apply Hcore. by apply (bool_decide_unpack _).
Qed.

(** C3 (Facets), amended. Categories answers with the fixed table of five
    id/name pairs whatever the dataset holds; Muscles answers with the
    distinct muscle names occurring as primary or secondary muscle of some
    record of the dataset, sorted, without counts; no route serves an
    equipment facet. *)
Theorem facets_served srv :
  getCategories srv = {| status := 200; body := BCategories categoryTable |} ∧
  (∀ file, exercises_json (data srv) = Some file →
     ∃ muscles,
       getMuscles srv = {| status := 200; body := BMuscles muscles |} ∧
       StronglySorted String.le muscles ∧ NoDup muscles ∧
       ∀ m, m ∈ muscles ↔ ∃ ex, ex ∈ agg_exercises file ∧ targets ex m) ∧
  (∀ q, handle srv ["api"; "v1"; "equipment"] q = None).
Proof.
  split_and!; [done| |done].
  intros file Hfile. exists (sort (muscleSetOf (agg_exercises file))).
  destruct (sort_spec (muscleSetOf (agg_exercises file))) as [Hs Hp].
  split_and!.
  - unfold getMuscles. by rewrite Hfile.
  - done.
  - rewrite Hp. by apply NoDup_muscleSet_from, NoDup_nil.
  - intros m. by rewrite Hp, elem_of_muscleSetOf.
Qed.

Lemma facets_served_witness :
  exercises_json (data Sample.server) = Some Sample.aggregate ∧
  ∃ muscles,
    getMuscles Sample.server = {| status := 200; body := BMuscles muscles |} ∧
    StronglySorted String.le muscles ∧ NoDup muscles ∧
    ∀ m, m ∈ muscles ↔ ∃ ex, ex ∈ agg_exercises Sample.aggregate ∧ targets ex m.
Proof.
  split; [reflexivity|].
  destruct (facets_served Sample.server) as (_ & H & _).
  exact (H Sample.aggregate eq_refl).
Defined.

(** C4, as stated, fails: [?query=push&tags=yoga] returns push-up, which has
    no tag [yoga]. *)
Lemma search_ignores_tags :
  ¬ searchAsStated Sample.taggedSearch [Sample.push_up; Sample.squat].
Proof.
  intros H. destruct (H Sample.push_up) as [Hin _].
  destruct Hin as (_ & _ & _ & Htags); [by left|].
  destruct (Htags "yoga" eq_refl) as (tag & Htag & l & [= <-] & Hl); [done|].
  apply list_elem_of_singleton in Htag as ->.
  by apply (not_elem_of_strings "yoga" ["bodyweight"; "compound"]).
Qed.

(** C4 (Search), amended. A Search request with some criterion is answered
    with the page of the records that pass the case-insensitive substring
    match of the query text (over name, description or some tag) when text is
    supplied, and the supplied category, difficulty, equipment and muscle
    filters; a [tags] parameter is not a filter of Search. Without query
    text the filtered list is the one List computes for the same request
    without its [tags] parameter. *)
Theorem search_filters_text_and_four_criteria srv q file :
  exercises_json (data srv) = Some file →
  hasCriterion q = true →
  let results := searchFilters q (agg_exercises file) in
  (∃ metadata,
     search srv q =
     {| status := 200;
        body := BList metadata (map Whole (paginate q results).2) |}) ∧
  (∀ ex, ex ∈ results ↔
         ex ∈ agg_exercises file ∧
         supplied (q_query q) (λ text, textMatch text ex) ∧
         equalityFilters q ex) ∧
  (truthy (q_query q) = false →
   results = listFilters (withoutTags q) (agg_exercises file)).
Proof.
  intros Hfile Hc results. split_and!.
  - eexists. by apply search_ok.
  - intros ex. apply elem_of_searchFilters.
  - apply searchFilters_no_text.
Qed.

Lemma search_filters_text_and_four_criteria_witness :
  exercises_json (data Sample.server) = Some Sample.aggregate ∧
  hasCriterion Sample.taggedSearch = true ∧
  ∀ ex, ex ∈ searchFilters Sample.taggedSearch (agg_exercises Sample.aggregate) ↔
        ex ∈ agg_exercises Sample.aggregate ∧
        supplied (q_query Sample.taggedSearch) (λ text, textMatch text ex) ∧
        equalityFilters Sample.taggedSearch ex.
Proof.
  split; [reflexivity|]. split; [reflexivity|].
  destruct (search_filters_text_and_four_criteria
              Sample.server Sample.taggedSearch Sample.aggregate eq_refl eq_refl)
    as (_ & H & _).
  exact H.
Defined.

(** C5, as stated, fails: with [?limit=-1] the two-record list is answered
    with one record, neither the slice of length at most the limit nor empty
    although page 1 lies beyond the page count -2. *)
Lemma negative_limit_breaks_pagination :
  ¬ paginationAsStated Sample.negativeLimit [Sample.push_up; Sample.squat].
Proof. intros (H & _). discriminate H. Qed.

(** C5 (Pagination), amended. For a List or Search request whose page and
    limit are at least 1 (1 and 20 when absent), over a filtered list of C
    records: the answer carries the records from offset (page-1)*limit on, at
    most limit of them, [total = C] and [pages = ceil(C/limit)]; beyond the
    last page the list is empty and the answer is still a 200. *)
Theorem pagination_of_positive_requests srv q file :
  exercises_json (data srv) = Some file →
  1 ≤ pageOf q → 1 ≤ limitOf q →
  let window (filtered : list Exercise) :=
    take (Z.to_nat (limitOf q))
         (drop (Z.to_nat ((pageOf q - 1) * limitOf q)) filtered) in
  let metadata (filtered : list Exercise) v :=
    {| total := Z.of_nat (length filtered); page := pageOf q; limit := limitOf q;
       pages := ceil_div (Z.of_nat (length filtered)) (limitOf q);
       version := v |} in
  listExercises srv q =
    (let filtered := listFilters q (agg_exercises file) in
     {| status := 200;
        body := BList (metadata filtered (Some (dataVersion srv)))
                      (map (select q) (window filtered)) |}) ∧
  (hasCriterion q = true →
   search srv q =
    (let results := searchFilters q (agg_exercises file) in
     {| status := 200;
        body := BList (metadata results None) (map Whole (window results)) |})) ∧
  (∀ filtered : list Exercise,
     let c := Z.of_nat (length filtered) in
     Z.of_nat (length (window filtered)) ≤ limitOf q ∧
     isCeiling c (limitOf q) (ceil_div c (limitOf q)) ∧
     (ceil_div c (limitOf q) < pageOf q → window filtered = [])) ∧
  (q_page q = None → pageOf q = 1) ∧
  (q_limit q = None → limitOf q = 20).
Proof.
  intros Hfile Hp Hl window metadata. split_and!.
  - rewrite (listExercises_ok srv q file Hfile). cbv zeta. unfold paginate.
    simpl. by rewrite slice_page.
  - intros Hc. rewrite (search_ok srv q file Hfile Hc). cbv zeta.
    unfold paginate. simpl. by rewrite slice_page.
  - intros filtered c. split_and!.
    + unfold window. rewrite length_take. lia.
    + apply ceil_div_isCeiling. lia.
    + intros Hb. by apply page_beyond_range.
  - unfold pageOf. by intros ->.
  - unfold limitOf. by intros ->.
Qed.

Lemma pagination_of_positive_requests_witness :
  exercises_json (data Sample.server) = Some Sample.aggregate ∧
  1 ≤ pageOf Sample.secondOfOne ∧ 1 ≤ limitOf Sample.secondOfOne ∧
  listExercises Sample.server Sample.secondOfOne =
    {| status := 200;
       body := BList {| total := 2; page := 2; limit := 1; pages := 2;
                        version := Some "1.0.1" |}
                     [Whole Sample.squat] |}.
Proof.
  split; [reflexivity|]. split; [by vm_compute|]. split; [by vm_compute|].
  destruct (pagination_of_positive_requests
              Sample.server Sample.secondOfOne Sample.aggregate eq_refl
              ltac:(by vm_compute) ltac:(by vm_compute)) as (H & _).
  rewrite H. reflexivity.
Defined.

End ApiFacts.

(* ================================================================== *)
(** * Facts about the content pipeline                                  *)
(* ================================================================== *)
Module PipelineFacts.
Import JS Pipeline JSFacts.

(** ** Section capture *)

Lemma captureAll_snoc tokens tok :
  captureAll (tokens ++ [tok]) = capture (captureAll tokens) tok.
Proof. unfold captureAll. by rewrite foldl_snoc. Qed.

Lemma currentHeading_snoc before tok :
  currentHeading (before ++ [tok]) =
  match tok with
  | Heading text => Some (toLowerCase text)
  | _ => currentHeading before
  end.
Proof. unfold currentHeading. by rewrite foldl_snoc. Qed.

Lemma currentSection_capture st tok :
  currentSection (capture st tok) =
  match tok with
  | Heading text => Some (toLowerCase text)
  | _ => currentSection st
  end.
Proof.
  destruct tok; simpl; try done; by destruct (truthy (currentSection st)).
Qed.

(** The loop's [currentSection] is the heading the next block falls under. *)
Lemma currentSection_captureAll tokens :
  currentSection (captureAll tokens) = currentHeading tokens.
Proof.
  induction tokens as [|tok tokens IH] using rev_ind; [done|].
  rewrite captureAll_snoc, currentHeading_snoc, currentSection_capture.
  by destruct tok.
Qed.

Lemma truthy_current st h :
  currentSection st = Some h → h ≠ "" →
  truthy (currentSection st) = true ∧ default "" (currentSection st) = h.
Proof.
  intros -> Hne. split; [|done]. simpl.
  destruct (String.eqb h "") eqn:E; [|done]. by apply string_eqb_true in E.
Qed.

(** The current section always has an entry, so [push] finds its array. *)
Lemma current_is_captured tokens h :
  currentSection (captureAll tokens) = Some h →
  is_Some (sections (captureAll tokens) !! h).
Proof.
  revert h. induction tokens as [|tok tokens IH] using rev_ind; [done|].
  intros h. rewrite captureAll_snoc.
  set (st := captureAll tokens) in *.
  destruct tok as [text|text|items|]; simpl; [| | |by auto].
  - intros [= <-]. rewrite lookup_insert_eq. by eexists.
  - destruct (truthy (currentSection st)) eqn:E; [|by auto]. simpl.
    intros Hh. destruct (IH h Hh) as [c Hc]. rewrite Hh. simpl.
    rewrite lookup_alter. case_decide; [|done]. rewrite Hc. by eexists.
  - destruct (truthy (currentSection st)) eqn:E; [|by auto]. simpl.
    intros Hh. rewrite Hh. simpl. rewrite lookup_insert_eq. by eexists.
Qed.

Lemma is_Some_alter {A} (f : A → A) (m : gmap string A) i k :
  is_Some (alter f i m !! k) ↔ is_Some (m !! k).
Proof.
  rewrite lookup_alter. case_decide; [|done]. subst. apply fmap_is_Some.
Qed.

(** The keys of the mapping are the lower-cased heading texts. *)
Lemma keys_are_headings tokens k :
  is_Some (sections (captureAll tokens) !! k) ↔
  ∃ text, Heading text ∈ tokens ∧ k = toLowerCase text.
Proof.
  induction tokens as [|tok tokens IH] using rev_ind.
  - unfold captureAll. simpl. rewrite lookup_empty. split.
    + by intros [? ?].
    + intros (? & H & _). by apply elem_of_nil in H.
  - rewrite captureAll_snoc. setoid_rewrite elem_of_app.
    setoid_rewrite list_elem_of_singleton.
    pose proof (current_is_captured tokens) as Hcur.
    set (st := captureAll tokens) in *.
    assert (is_Some (sections (capture st tok) !! k) ↔
            is_Some (sections st !! k) ∨
            ∃ text, tok = Heading text ∧ k = toLowerCase text) as ->.
    { destruct tok as [text|text|items|]; simpl.
      - rewrite lookup_insert. case_decide as E.
        + split; [intros _; right; by exists text|intros _; by eexists].
        + split; [by left|]. intros [?|(? & [= <-] & ->)]; done.
      - destruct (truthy (currentSection st)); simpl.
        + rewrite is_Some_alter. split; [by left|].
          by intros [?|(? & [=] & _)].
        + split; [by left|]. by intros [?|(? & [=] & _)].
      - destruct (truthy (currentSection st)) eqn:E; simpl.
        + destruct (currentSection st) as [h|] eqn:Eh; [|done]. simpl.
          rewrite lookup_insert. case_decide as E'.
          * subst k. split; [intros _; left; by apply Hcur|intros _; by eexists].
          * split; [by left|]. by intros [?|(? & [=] & _)].
        + split; [by left|]. by intros [?|(? & [=] & _)].
      - split; [by left|]. by intros [?|(? & [=] & _)]. }
    rewrite IH. split.
    + intros [(text & ? & ?)|(text & ? & ?)]; exists text; auto.
    + intros (text & [?|?] & ?); [left|right]; by exists text.
Qed.

Lemma alter_present {A} (f : A → A) (m : gmap string A) k x :
  m !! k = Some x → alter f k m = <[k := f x]> m.
Proof.
  intros H. apply map_eq. intros i. rewrite lookup_alter, lookup_insert.
  case_decide; [subst; by rewrite H|done].
Qed.

(** C9, as stated, fails: under a heading with empty text neither a
    paragraph nor a list is captured. *)
Lemma empty_heading_captures_nothing : ¬ captureAsStated [Heading ""].
Proof.
  intros H. destruct (H "" eq_refl) as [_ Hlist].
  specialize (Hlist ["item"]). vm_compute in Hlist. discriminate Hlist.
Qed.

(** C9 (section capture), amended. The parser builds a mapping whose keys are
    the lower-cased heading texts; under a current heading whose text is not
    empty a paragraph appends its text to what is captured for that heading,
    and a list replaces it, so that a later list overwrites and never
    merges. *)
Theorem capture_under_nonempty_heading before h :
  currentHeading before = Some h → h ≠ "" →
  let captured := sections (captureAll before) in
  (∃ content,
     captured !! h = Some content ∧
     ∀ text, sections (captureAll (before ++ [Paragraph text])) =
             <[h := content ++ [text]]> captured) ∧
  (∀ items, sections (captureAll (before ++ [ListBlock items])) =
            <[h := items]> captured) ∧
  (∀ earlier items,
     sections (captureAll (before ++ [ListBlock earlier; ListBlock items])) !! h =
     Some items) ∧
  (∀ tokens k, is_Some (sections (captureAll tokens) !! k) ↔
               ∃ text, Heading text ∈ tokens ∧ k = toLowerCase text).
Proof.
  intros Hh Hne captured. rewrite <- currentSection_captureAll in Hh.
  destruct (truthy_current _ _ Hh Hne) as [Ht Hd].
  destruct (current_is_captured before h Hh) as [content Hc].
  split_and!.
  - exists content. split; [done|]. intros text.
    rewrite captureAll_snoc. simpl. rewrite Ht, Hd. simpl.
    by rewrite (alter_present _ _ h content Hc).
  - intros items. rewrite captureAll_snoc. simpl. by rewrite Ht, Hd.
  - intros earlier items.
    change (before ++ [ListBlock earlier; ListBlock items])
      with (before ++ [ListBlock earlier] ++ [ListBlock items]).
    rewrite (assoc_L (++)), !captureAll_snoc. simpl. rewrite Ht, Hd. simpl.
    rewrite Hh. simpl.
    destruct (String.eqb h "") eqn:E; [by apply string_eqb_true in E|].
    simpl. by rewrite lookup_insert_eq.
  - apply keys_are_headings.
Qed.

Lemma capture_under_nonempty_heading_witness :
  currentHeading [Heading "Tips"; Paragraph "Keep straight"] = Some "tips" ∧
  "tips" ≠ "" ∧
  ∀ items,
    sections (captureAll ([Heading "Tips"; Paragraph "Keep straight"]
                            ++ [ListBlock items])) =
    <["tips" := items]> (sections (captureAll [Heading "Tips"; Paragraph "Keep straight"])).
Proof.
  split; [reflexivity|]. split; [discriminate|].
  destruct (capture_under_nonempty_heading
              [Heading "Tips"; Paragraph "Keep straight"] "tips" eq_refl
              ltac:(discriminate)) as (_ & H & _).
  exact H.
Defined.

(** ** The category index *)

(** [categories.json] lists each category occurring among the records once,
    with its display name by lookup and the number of records having it. *)
Lemma categoryIndex_entries exercises :
  map cat_id (categoryIndex exercises) =
    unique (map (λ ex, category (metadata ex)) exercises) ∧
  ∀ entry, entry ∈ categoryIndex exercises →
    cat_name entry = getCategoryDisplayName (cat_id entry) ∧
    cat_count entry =
      Z.of_nat (length (List.filter
                          (λ ex, bool_decide (category (metadata ex) = cat_id entry))
                          exercises)) ∧
    ∃ ex, ex ∈ exercises ∧ category (metadata ex) = cat_id entry.
Proof.
  unfold categoryIndex. split.
  - rewrite map_map. simpl. apply map_id.
  - intros entry Hin.
    change (map ?f ?l) with (f <$> l) in Hin.
    apply list_elem_of_fmap in Hin as (cat & -> & Hcat). simpl.
    split_and!; [done..|].
    rewrite elem_of_unique in Hcat.
    change (map ?f ?l) with (f <$> l) in Hcat.
    apply list_elem_of_fmap in Hcat as (ex & -> & Hex). by exists ex.
Qed.

(** ** Thumbnails *)

Lemma thumbnail_of_extension stem ext :
  occurs "." ext = false →
  thumbnail (stem +:+ "." +:+ ext) = stem +:+ "-thumb." +:+ ext.
Proof.
  intros Hext. unfold thumbnail.
  change ("." +:+ ext) with (String "." ext).
  rewrite split_app_sep, (split_no_sep "." ext Hext).
  rewrite last_snoc, removelast_last. simpl. by rewrite join_split.
Qed.

Example thumbnail_of_jpg :
  thumbnail "assets/v1.2/push-up.final.jpg" = "assets/v1.2/push-up.final-thumb.jpg".
Proof. reflexivity. Qed.

(** Without a dot the whole reference is taken for the extension. *)
Example thumbnail_without_extension : thumbnail "push-up" = "-thumb.push-up".
Proof. reflexivity. Qed.

(** ** Version numbers *)

Example bump_1_0_9 : bumpPatch "1.0.9" = "1.0.10".
Proof. reflexivity. Qed.

Example bump_of_two_parts : bumpPatch "1.0" = "1.0.NaN".
Proof. reflexivity. Qed.

(** From 2^53 on adding one does not always give the next integer. *)
Example bump_at_2_53 : bumpPatch "1.0.9007199254740992" = "1.0.9007199254740992".
Proof. vm_compute. reflexivity. Qed.

Example bump_to_exponent : bumpPatch "1.0.999999999999999999999" = "1.0.1e+21".
Proof. vm_compute. reflexivity. Qed.

Lemma split_semver major minor patch :
  split "." (semver major minor patch) = [pretty major; pretty minor; pretty patch].
Proof.
  unfold semver.
  change ("." +:+ pretty minor +:+ "." +:+ pretty patch)
    with (String "." (pretty minor +:+ String "." (pretty patch))).
  rewrite !split_app_sep.
  by rewrite !split_no_sep by apply all_digits_no_dot, pretty_N_all_digits.
Qed.

Lemma toDouble_safe n : Z.abs n < 2 ^ 53 → toDouble n = Finite n.
Proof. intros Hn. unfold toDouble. by rewrite (proj2 (Z.ltb_lt _ _) Hn). Qed.

(** On a semantic version triple the bump increments the patch component
    and keeps the other two, as long as the incremented component is a safe
    integer. *)
Lemma bumpPatch_semver major minor patch :
  (patch + 1 < 2 ^ 53)%N →
  bumpPatch (semver major minor patch) = semver major minor (patch + 1).
Proof.
  intros Hsafe. unfold bumpPatch. rewrite split_semver.
  change ([pretty major; pretty minor; pretty patch] !! 2%nat)
    with (Some (pretty patch)).
  change ([pretty major; pretty minor; pretty patch] !! 0%nat)
    with (Some (pretty major)).
  change ([pretty major; pretty minor; pretty patch] !! 1%nat)
    with (Some (pretty minor)).
  unfold parseDouble. rewrite parseInt_pretty.
  assert (2 ^ 53 = Z.of_N (2 ^ 53)) as Hpow by reflexivity.
  rewrite toDouble_safe by lia. cbn [increment].
  rewrite toDouble_safe by lia. cbn [numberToString].
  rewrite (proj2 (Z.ltb_lt _ _)) by lia.
  unfold semver, part. simpl.
  do 4 f_equal. rewrite <- pretty_Z_of_N. f_equal. lia.
Qed.

(** ** Thumbnails of a record *)

Lemma last_dot_unique stem ext stem' ext' :
  stem +:+ "." +:+ ext = stem' +:+ "." +:+ ext' →
  occurs "." ext = false → occurs "." ext' = false → ext = ext'.
Proof.
  intros Heq Hext Hext'. apply (f_equal (split ".")) in Heq.
  change ("." +:+ ext) with (String "." ext) in Heq.
  change ("." +:+ ext') with (String "." ext') in Heq.
  rewrite !split_app_sep, (split_no_sep "." ext Hext),
    (split_no_sep "." ext' Hext') in Heq.
  by apply app_inj_tail in Heq as [_ ->].
Qed.

Section ScriptFacts.

Variable BASE_URL : string.
Variable frontmatterMatch : string → option (string * string).
Variable yaml_load : string → option Metadata.
Variable lexer : string → list token.
Variable extractImageLinks : string → list string.
Variable extractVideoLinks : string → list string.
Variable now : string.

Local Abbreviation parseFile :=
  (parseMarkdownFile BASE_URL frontmatterMatch yaml_load lexer
     extractImageLinks extractVideoLinks now).

Lemma thumbnails_of_record content exerciseData :
  parseFile content = Some exerciseData →
  thumbnails (mobile exerciseData) = thumbnail <$> images exerciseData.
Proof.
  unfold parseMarkdownFile. intros H.
  destruct (frontmatterMatch content) as [[frontmatter markdown]|]; [|done].
  destruct (yaml_load frontmatter) as [metadata|]; [|done].
  by injection H as <-.
Qed.

(** C8 (thumbnails). An enriched record with N images has N thumbnails, and
    where the image at index i ends in a file extension, a dot followed by a
    text with neither dot nor slash, the thumbnail at index i is that image
    with [-thumb] inserted immediately before the dot. *)
Theorem thumbnails_follow_images content exerciseData :
  parseFile content = Some exerciseData →
  length (thumbnails (mobile exerciseData)) = length (images exerciseData) ∧
  ∀ (i : nat) stem ext,
    images exerciseData !! i = Some (stem +:+ "." +:+ ext) → extension ext →
    thumbnails (mobile exerciseData) !! i = Some (stem +:+ "-thumb." +:+ ext) ∧
    thumbnailOf (stem +:+ "." +:+ ext) (stem +:+ "-thumb." +:+ ext).
Proof.
  intros H. rewrite (thumbnails_of_record _ _ H). split; [by rewrite length_fmap|].
  intros i stem ext Hi Hext. split.
  - rewrite list_lookup_fmap, Hi. simpl. rewrite thumbnail_of_extension; [done|].
    by destruct Hext.
  - by exists stem, ext.
Qed.

End ScriptFacts.

(** ** The facts at the sample sources *)

(** The claim on thumbnails fails for an image without file extension: with
    the base address of the script the suffix lands in the host name. *)
Lemma image_without_extension_has_no_such_thumbnail :
  ∃ exerciseData,
    parseMarkdownFile Sample.sampleBase Scans.frontmatterMatch Sample.sampleYaml
      Sample.sampleLexer Scans.extractImageLinks Scans.extractVideoLinks
      Sample.sampleNow Sample.bareSource = Some exerciseData ∧
    images exerciseData = [Sample.sampleBase +:+ "/assets/images/push-up"] ∧
    thumbnails (mobile exerciseData) =
      ["https://raw.githubusercontent-thumb.com/yourusername/WO-App-Exercises/main/assets/images/push-up"] ∧
    ¬ thumbnailsAsStated exerciseData.
Proof.
  eexists. split; [vm_compute; reflexivity|]. split; [reflexivity|].
  split; [reflexivity|]. intros [_ Hall].
  destruct (Hall 0%nat _ eq_refl) as (thumb & _ & stem & ext & Heq & [Hdot Hslash] & _).
  assert (ext = "com/yourusername/WO-App-Exercises/main/assets/images/push-up") as ->.
  { apply (last_dot_unique stem ext "https://raw.githubusercontent"
             "com/yourusername/WO-App-Exercises/main/assets/images/push-up");
      [|done..]. rewrite <- Heq. reflexivity. }
  discriminate Hslash.
Qed.

Lemma thumbnails_follow_images_witness :
  ∃ exerciseData,
    parseMarkdownFile Sample.sampleBase Sample.sampleMatch Sample.sampleYaml
      Sample.sampleLexer Sample.sampleImages Sample.sampleVideos Sample.sampleNow
      Sample.pushUpSource = Some exerciseData ∧
    extension "jpg" ∧
    length (thumbnails (mobile exerciseData)) = length (images exerciseData) ∧
    thumbnails (mobile exerciseData) !! 0%nat =
      Some (Sample.sampleBase +:+ "/../../assets/images/push-up-thumb.jpg").
Proof.
  assert (extension "jpg") as Hext by (split; reflexivity).
  eexists. split; [reflexivity|]. split; [exact Hext|].
  destruct (thumbnails_follow_images Sample.sampleBase Sample.sampleMatch
              Sample.sampleYaml Sample.sampleLexer Sample.sampleImages
              Sample.sampleVideos Sample.sampleNow Sample.pushUpSource _ eq_refl)
    as [Hlen Hthumb].
  split; [exact Hlen|].
  exact (proj1 (Hthumb 0%nat (Sample.sampleBase +:+ "/../../assets/images/push-up")
                  "jpg" eq_refl Hext)).
Defined.

End PipelineFacts.

(* ================================================================== *)
(** * More facts about the read API                                     *)
(* ================================================================== *)
Module QueryFacts.
Import JS Api Requests JSFacts ApiFacts.

(** ** Field selection *)

Lemma keys_assign field v (o : list (string * value)) :
  (assign field v o).*1 = if bool_decide (field ∈ o.*1) then o.*1 else o.*1 ++ [field].
Proof.
  induction o as [|[k w] o IH]; [done|]. cbn [assign].
  destruct (String.eqb k field) eqn:E.
  - apply string_eqb_true in E as ->. rewrite !fmap_cons. cbn [fst].
    by rewrite bool_decide_eq_true_2 by left.
  - rewrite !fmap_cons, IH. cbn [fst].
    assert (k ≠ field) as Hne by (intros ->; by rewrite String.eqb_refl in E).
    assert (bool_decide (field ∈ k :: o.*1) = bool_decide (field ∈ o.*1)) as ->.
    { apply bool_decide_ext. rewrite elem_of_cons. naive_solver. }
    by destruct (bool_decide (field ∈ o.*1)).
Qed.

Lemma elem_of_assign field v (o : list (string * value)) k w :
  (k, w) ∈ assign field v o → (k = field ∧ w = v) ∨ (k, w) ∈ o.
Proof.
  induction o as [|[k0 w0] o IH]; simpl.
  - intros [=]%list_elem_of_singleton. by left.
  - destruct (String.eqb k0 field) eqn:E.
    + apply string_eqb_true in E as ->.
      intros [[= -> ->]|?]%elem_of_cons; [by left|right; by right].
    + intros [[= -> ->]|H]%elem_of_cons; [right; by left|].
      destruct (IH H) as [?|?]; [by left|right; by right].
Qed.

Lemma keys_pick_from ex fields (o : list (string * value)) :
  (foldl (λ filtered field,
            match get ex field with
            | Some v => assign field v filtered
            | None => filtered
            end) o fields).*1
  = foldl (λ s x, if bool_decide (x ∈ s) then s else s ++ [x]) o.*1
      (List.filter (present ex) fields).
Proof.
  revert o. induction fields as [|field fields IH]; intros o; [done|].
  cbn [foldl List.filter].
  change (present ex field) with (bool_decide (is_Some (get ex field))).
  destruct (get ex field) as [v|] eqn:E.
  - rewrite bool_decide_eq_true_2 by (by eexists). cbn [foldl].
    by rewrite IH, keys_assign.
  - rewrite bool_decide_eq_false_2 by (by intros [? ?]). apply IH.
Qed.

Lemma values_pick_from ex fields (o : list (string * value)) :
  (∀ k v, (k, v) ∈ o → get ex k = Some v) →
  ∀ k v,
    (k, v) ∈ foldl (λ filtered field,
                      match get ex field with
                      | Some v => assign field v filtered
                      | None => filtered
                      end) o fields →
    get ex k = Some v.
Proof.
  revert o. induction fields as [|field fields IH]; intros o Ho; [exact Ho|].
  cbn [foldl]. apply IH. destruct (get ex field) as [v|] eqn:E; [|exact Ho].
  intros k w [[-> ->]|?]%elem_of_assign; [done|by apply Ho].
Qed.

(** X1. Field selection, for GetById: the object answered has exactly the
    requested fields the record has, each once, in the order they were first
    requested, with the record's values; a field the record lacks is left
    out without an error. *)
Theorem field_selection_keeps_present_fields srv id_param q ex fields :
  record_files (data srv) !! id_param = Some ex →
  q_fields q = Some fields → fields ≠ "" →
  ∃ o,
    getExercise srv id_param q = {| status := 200; body := BExercise (Picked o) |} ∧
    o.*1 = unique (List.filter (present ex) (split "," fields)) ∧
    ∀ k v, (k, v) ∈ o → get ex k = Some v.
Proof.
  intros Hfile Hq Hne. exists (pick (split "," fields) ex).
  split_and!.
  - unfold getExercise, select. rewrite Hfile, Hq.
    apply truthy_Some in Hne. by rewrite Hne.
  - apply (keys_pick_from ex (split "," fields) []).
  - apply values_pick_from. intros k v H. by apply elem_of_nil in H.
Qed.

Lemma field_selection_keeps_present_fields_witness :
  record_files (data Sample.server) !! "squat" = Some Sample.squat ∧
  ∃ o,
    getExercise Sample.server "squat" thirdOfTwo =
      {| status := 200; body := BExercise (Picked o) |} ∧
    o.*1 = ["id"; "name"].
Proof.
  split; [reflexivity|].
  destruct (field_selection_keeps_present_fields Sample.server "squat" thirdOfTwo
              Sample.squat "id,zzz,id,name" eq_refl eq_refl ltac:(discriminate))
    as (o & Ho & Hk & _).
  exists o. split; [exact Ho|]. rewrite Hk. reflexivity.
Defined.

(** ** Routing *)

Lemma toLowerCase_nonempty s : s ≠ "" → toLowerCase s ≠ "".
Proof. by destruct s. Qed.

(** A path matched by a route ending in a non-empty literal is matched by
    the route with a parameter in its place. *)
Lemma literal_matches_parameter pre s p path params :
  matchPath (pre ++ [Lit s]) path = Some params → s ≠ "" →
  is_Some (matchPath (pre ++ [Param p]) path).
Proof.
  intros H Hs. revert path params H.
  induction pre as [|seg pre IH]; intros path params H.
  - destruct path as [|x [|y path]]; simpl in *; try discriminate.
    + destruct (String.eqb (toLowerCase s) (toLowerCase x)) eqn:E; [|discriminate].
      destruct (String.eqb x "") eqn:Ex; [|by eexists].
      apply string_eqb_true in Ex as ->. apply string_eqb_true in E.
      by apply toLowerCase_nonempty in Hs.
    + by destruct (String.eqb (toLowerCase s) (toLowerCase x)).
  - destruct path as [|x path]; [by destruct seg|].
    destruct seg as [t|t]; simpl in *.
    + destruct (String.eqb (toLowerCase t) (toLowerCase x)); [by eapply IH|discriminate].
    + destruct (String.eqb x ""); [discriminate|].
      destruct (matchPath (pre ++ [Lit s]) path) eqn:E; [|discriminate].
      destruct (IH _ _ E) as [? ->]. by eexists.
Qed.

Lemma findRoute_never_batch path h params :
  findRoute routes path = Some (h, params) → h ≠ HBatch.
Proof.
  intros H ->. unfold routes in H. cbn [findRoute] in H.
  destruct (matchPath (apiRoute ++ [Lit "version"]) path); [discriminate|].
  destruct (matchPath (apiRoute ++ [Lit "exercises"]) path); [discriminate|].
  destruct (matchPath (apiRoute ++ [Lit "exercises"; Param "id"]) path) eqn:Hid;
    [discriminate|].
  destruct (matchPath (apiRoute ++ [Lit "exercises"; Lit "batch"]) path) eqn:Hb.
  - destruct (literal_matches_parameter (apiRoute ++ [Lit "exercises"])
                "batch" "id" path l) as [? Hm]; [|done|].
    + by rewrite <- (assoc_L (++)).
    + rewrite <- (assoc_L (++)) in Hm. simpl in Hm, Hid. congruence.
  - destruct (matchPath (apiRoute ++ [Lit "search"]) path); [discriminate|].
    destruct (matchPath (apiRoute ++ [Lit "categories"]) path); [discriminate|].
    destruct (matchPath (apiRoute ++ [Lit "muscles"]) path); [discriminate|].
    destruct (matchPath [] path); discriminate.
Qed.

Lemma matchPath_length pattern path params :
  matchPath pattern path = Some params → length path = length pattern.
Proof.
  revert path params. induction pattern as [|seg pattern IH]; intros path params.
  - by destruct path.
  - destruct path as [|x path]; [by destruct seg|]. destruct seg as [s|p]; simpl.
    + destruct (String.eqb _ _); [|done]. intros H. f_equal. by eapply IH.
    + destruct (String.eqb x ""); [done|].
      destruct (matchPath pattern path) eqn:E; [|done]. intros _. f_equal. by eapply IH.
Qed.

(** A path matched by literals and a last literal is matched, with the last
    segment for the parameter, by the route with a parameter in its
    place. *)
Lemma literal_as_parameter (pre : list string) s p path params :
  matchPath (map Lit pre ++ [Lit s]) path = Some params → s ≠ "" →
  ∃ seg, toLowerCase seg = toLowerCase s ∧ last path = Some seg ∧
         matchPath (map Lit pre ++ [Param p]) path = Some [(p, seg)].
Proof.
  intros H Hs. revert path params H.
  induction pre as [|lit pre IH]; intros path params H.
  - destruct path as [|x [|y path]]; simpl in *; try discriminate.
    + destruct (String.eqb (toLowerCase s) (toLowerCase x)) eqn:E; [|discriminate].
      apply string_eqb_true in E. exists x. split_and!; [done..|].
      destruct (String.eqb x "") eqn:Ex; [|done].
      apply string_eqb_true in Ex as ->. by apply toLowerCase_nonempty in Hs.
    + by destruct (String.eqb (toLowerCase s) (toLowerCase x)).
  - destruct path as [|x path]; [done|]. simpl in *.
    destruct (String.eqb (toLowerCase lit) (toLowerCase x)); [|discriminate].
    destruct (IH _ _ H) as (seg & Hseg & Hlast & Hm). exists seg.
    split_and!; [done| |done].
    destruct path; [by apply matchPath_length in H; destruct pre|done].
Qed.

(** X2. No request path is dispatched to the batch handler. A path its route
    matches, in whatever letter case, is answered by the id route, which is
    registered before it, with the last segment of the path for the id. *)
Theorem no_path_reaches_the_batch_handler srv path q :
  (∀ h params, findRoute routes path = Some (h, params) → h ≠ HBatch) ∧
  (is_Some (matchPath (apiRoute ++ [Lit "exercises"; Lit "batch"]) path) →
   ∃ id_param, toLowerCase id_param = "batch" ∧ last path = Some id_param ∧
               handle srv path q = Some (getExercise srv id_param q)).
Proof.
  split; [apply findRoute_never_batch|]. intros [params Hm].
  pose proof (matchPath_length _ _ _ Hm) as Hlen.
  destruct (literal_as_parameter ["api"; "v1"; "exercises"] "batch" "id" path params
              Hm ltac:(done)) as (seg & Hseg & Hlast & Hid).
  exists seg. split_and!; [done..|]. unfold handle, routes. cbn [findRoute].
  destruct (matchPath (apiRoute ++ [Lit "version"]) path) eqn:E1.
  { apply matchPath_length in E1. rewrite Hlen in E1. discriminate E1. }
  destruct (matchPath (apiRoute ++ [Lit "exercises"]) path) eqn:E2.
  { apply matchPath_length in E2. rewrite Hlen in E2. discriminate E2. }
  change (apiRoute ++ [Lit "exercises"; Param "id"])
    with (map Lit ["api"; "v1"; "exercises"] ++ [Param "id"]).
  by rewrite Hid.
Qed.

Lemma no_path_reaches_the_batch_handler_witness :
  findRoute routes ["API"; "v1"; "Exercises"; "Batch"] =
    Some (HGetById, [("id", "Batch")]) ∧
  ∃ id_param, toLowerCase id_param = "batch" ∧
              last ["API"; "v1"; "Exercises"; "Batch"] = Some id_param ∧
              handle Sample.server ["API"; "v1"; "Exercises"; "Batch"] no_query =
                Some (getExercise Sample.server id_param no_query).
Proof.
  split; [reflexivity|].
  exact (proj2 (no_path_reaches_the_batch_handler Sample.server
                  ["API"; "v1"; "Exercises"; "Batch"] no_query)
           (mk_is_Some _ _ eq_refl)).
Defined.

(** ** Pagination *)

Lemma pageOf_withPage (n : nat) q :
  (1 ≤ n)%nat → pageOf (withPage (pretty (N.of_nat n)) q) = Z.of_nat n.
Proof.
  intros Hn. unfold pageOf, withPage. cbn [q_page].
  rewrite parseInt_pretty, nat_N_Z. unfold or_default.
  destruct (Z.of_nat n =? 0) eqn:E; lia.
Qed.

Lemma pageNumber_window q (n : nat) (exercises : list Exercise) :
  (1 ≤ n)%nat → 1 ≤ limitOf q →
  pageNumber q n exercises =
  take (Z.to_nat (limitOf q)) (drop ((n - 1) * Z.to_nat (limitOf q)) exercises).
Proof.
  intros Hn Hl. unfold pageNumber, paginate. cbn [snd].
  rewrite pageOf_withPage by done.
  change (limitOf (withPage (pretty (N.of_nat n)) q)) with (limitOf q).
  rewrite slice_page by lia. do 2 f_equal. nia.
Qed.

Lemma windows_tile {A} (l : list A) (size k : nat) :
  concat (map (λ n, take size (drop ((n - 1) * size) l)) (seq 1 k)) = take (k * size) l.
Proof.
  induction k as [|k IH]; [done|].
  rewrite seq_S, map_app, concat_app, IH. cbn [map concat].
  rewrite app_nil_r.
  replace (1 + k - 1)%nat with k by lia.
  rewrite take_take_drop. f_equal. lia.
Qed.

(** X3. Pagination, for a limit of at least 1: the pages 1 to [pages], one after
    the other, are the filtered list; no record is shown twice or left out. *)
Theorem pages_tile_the_filtered_list q (exercises : list Exercise) :
  1 ≤ limitOf q →
  concat (map (λ n, pageNumber q n exercises)
              (seq 1 (Z.to_nat (pages (paginate q exercises).1)))) = exercises.
Proof.
  intros Hl. cbn [paginate fst pages].
  set (k := Z.to_nat (ceil_div (Z.of_nat (length exercises)) (limitOf q))).
  rewrite (map_ext_in _ (λ n, take (Z.to_nat (limitOf q))
                               (drop ((n - 1) * Z.to_nat (limitOf q)) exercises))).
  - rewrite windows_tile. apply take_ge.
    pose proof (ceil_div_isCeiling (Z.of_nat (length exercises)) (limitOf q)
                  ltac:(lia)) as Hc.
    unfold isCeiling in Hc. destruct (0 <? limitOf q) eqn:E; [|lia].
    subst k. nia.
  - intros n Hn%in_seq. apply pageNumber_window; [lia|done].
Qed.

Lemma pages_tile_the_filtered_list_witness :
  1 ≤ limitOf Sample.secondOfOne ∧
  pageNumber Sample.secondOfOne 1 [Sample.push_up; Sample.squat] ++
  pageNumber Sample.secondOfOne 2 [Sample.push_up; Sample.squat] =
  [Sample.push_up; Sample.squat].
Proof.
  split; [by vm_compute|].
  pose proof (pages_tile_the_filtered_list Sample.secondOfOne
                [Sample.push_up; Sample.squat] ltac:(by vm_compute)) as H.
  change (Z.to_nat (pages (paginate Sample.secondOfOne
                             [Sample.push_up; Sample.squat]).1)) with 2%nat in H.
  cbn [seq map concat] in H. rewrite app_nil_r in H. exact H.
Defined.

Lemma sublist_filter_bool {A} (f : A → bool) (l : list A) : sublist (List.filter f l) l.
Proof.
  induction l as [|x l IH]; simpl; [constructor|].
  destruct (f x); by constructor.
Qed.

Lemma sublist_when param (f : string → Exercise → bool) l :
  sublist (when param (λ v, List.filter (f v)) l) l.
Proof. unfold when. destruct (truthy param); [apply sublist_filter_bool|done]. Qed.

Lemma sublist_listFilters q l : sublist (listFilters q l) l.
Proof. unfold listFilters. repeat (etrans; [apply sublist_when|]). done. Qed.

Lemma sublist_searchFilters q l : sublist (searchFilters q l) l.
Proof. unfold searchFilters. repeat (etrans; [apply sublist_when|]). done. Qed.

Lemma slice_is_a_run {A} (l : list A) (start end_ : Z) :
  ∃ before after, l = before ++ slice l start end_ ++ after.
Proof.
  unfold slice.
  set (n := Z.to_nat _). set (k := Z.to_nat _).
  exists (take k l), (drop n (drop k l)).
  by rewrite (take_drop n (drop k l)), take_drop.
Qed.

(** X4. List, for every value of [page] and [limit], numeric or not, positive or
    not: the answer is a 200 whose records are a run of consecutive records
    of the filtered list, which keeps the order of the dataset; [total] is
    the length of the filtered list, [page] and [limit] are never 0 and
    [pages] rounds total/limit towards plus infinity. *)
Theorem list_page_is_a_run_of_the_filtered_list srv q file :
  exercises_json (data srv) = Some file →
  let filtered := listFilters q (agg_exercises file) in
  ∃ m shown before after,
    listExercises srv q =
      {| status := 200; body := BList m (map (select q) shown) |} ∧
    filtered = before ++ shown ++ after ∧
    sublist shown (agg_exercises file) ∧
    total m = Z.of_nat (length filtered) ∧
    page m ≠ 0 ∧ limit m ≠ 0 ∧
    isCeiling (total m) (limit m) (pages m).
Proof.
  intros Hfile filtered.
  destruct (slice_is_a_run filtered ((pageOf q - 1) * limitOf q)
              (pageOf q * limitOf q)) as (before & after & Hrun).
  eexists _, _, before, after. split_and!.
  - by apply listExercises_ok.
  - exact Hrun.
  - etrans; [|apply sublist_listFilters]. cbn [paginate snd]. unfold slice.
    etrans; [apply sublist_take|apply sublist_drop].
  - done.
  - by apply or_default_nonzero.
  - by apply or_default_nonzero.
  - apply ceil_div_isCeiling. by apply or_default_nonzero.
Qed.

Lemma list_page_is_a_run_of_the_filtered_list_witness :
  exercises_json (data Sample.server) = Some Sample.aggregate ∧
  ∃ m shown before after,
    listExercises Sample.server Sample.negativeLimit =
      {| status := 200; body := BList m (map (select Sample.negativeLimit) shown) |} ∧
    listFilters Sample.negativeLimit (agg_exercises Sample.aggregate) =
      before ++ shown ++ after ∧
    limit m ≠ 0.
Proof.
  split; [reflexivity|].
  destruct (list_page_is_a_run_of_the_filtered_list Sample.server
              Sample.negativeLimit Sample.aggregate eq_refl)
    as (m & shown & before & after & H1 & H2 & _ & _ & _ & H3 & _).
  by exists m, shown, before, after.
Defined.

(** X5. List: the filtered list holds exactly the records of the dataset that
    meet every criterion supplied, a parameter that is absent or empty not
    counting as one: category and difficulty by equality, equipment and
    muscle by membership, tags by naming at least one tag of the record;
    [total] is their number and [version] the data version, whatever the
    page. *)
Theorem list_filters_by_every_supplied_criterion srv q file :
  exercises_json (data srv) = Some file →
  ∃ m items,
    listExercises srv q = {| status := 200; body := BList m items |} ∧
    (∀ ex, ex ∈ listFilters q (agg_exercises file) ↔
           ex ∈ agg_exercises file ∧ equalityFilters q ex ∧ tagsFilter q ex) ∧
    total m = Z.of_nat (length (listFilters q (agg_exercises file))) ∧
    version m = Some (dataVersion srv).
Proof.
  intros Hfile. eexists _, _. split_and!.
  - by apply listExercises_ok.
  - intros ex. apply elem_of_listFilters.
  - done.
  - done.
Qed.

Lemma list_filters_by_every_supplied_criterion_witness :
  exercises_json (data Sample.server) = Some Sample.aggregate ∧
  ∃ m items,
    listExercises Sample.server Sample.upperBody =
      {| status := 200; body := BList m items |} ∧
    total m = 1.
Proof.
  split; [reflexivity|].
  destruct (list_filters_by_every_supplied_criterion Sample.server Sample.upperBody
              Sample.aggregate eq_refl) as (m & items & H & _ & Ht & _).
  exists m, items. split; [exact H|]. rewrite Ht. reflexivity.
Defined.

(** ** Search *)

Lemma toLowerCase_eq_empty s t :
  toLowerCase s = toLowerCase t → truthy (Some s) = truthy (Some t).
Proof. by destruct s, t. Qed.

(** X6. Search compares the text in lower case: two requests whose [query] texts
    differ only in the case of their letters get the same answer. *)
Theorem search_ignores_the_case_of_the_query srv q text text' :
  toLowerCase text = toLowerCase text' →
  search srv (withQuery text q) = search srv (withQuery text' q).
Proof.
  intros H. unfold search, searchFilters, when, paginate, pageOf, limitOf, withQuery.
  cbn [q_query q_category q_difficulty q_equipment q_muscle q_page q_limit
       default from_option Datatypes.id].
  by rewrite (toLowerCase_eq_empty _ _ H), H.
Qed.

Lemma search_ignores_the_case_of_the_query_witness :
  toLowerCase "PUSH" = toLowerCase "push" ∧
  search Sample.server (withQuery "PUSH" no_query) =
  search Sample.server (withQuery "push" no_query).
Proof.
  split; [reflexivity|].
  exact (search_ignores_the_case_of_the_query Sample.server no_query
           "PUSH" "push" eq_refl).
Defined.

(** ** Statuses *)

Lemma search_status srv q :
  status (search srv q) =
  if hasCriterion q
  then match exercises_json (data srv) with Some _ => 200 | None => 404 end
  else 400.
Proof.
  destruct (hasCriterion q) eqn:Hc; [|by rewrite search_bad_request].
  destruct (exercises_json (data srv)) as [file|] eqn:Hf.
  - by rewrite (search_ok srv q file).
  - unfold search, hasCriterion in *. rewrite Hf.
    destruct (truthy (q_query q)), (truthy (q_category q)),
      (truthy (q_difficulty q)), (truthy (q_equipment q)),
      (truthy (q_muscle q)); done.
Qed.

(** X7. Every answer of a registered route has status 200, 400 or 404. The 400
    is Search's alone, and Search gives it exactly when the request carries
    none of its five criteria, whether or not the data file is there. *)
Theorem bad_request_is_search_without_criterion srv path q r :
  handle srv path q = Some r →
  (status r = 200 ∨ status r = 400 ∨ status r = 404) ∧
  (status r = 400 ↔
   (∃ params, findRoute routes path = Some (HSearch, params)) ∧
   hasCriterion q = false).
Proof.
  unfold handle. destruct (findRoute routes path) as [[h params]|] eqn:Hr; [|done].
  intros [= <-]. pose proof (findRoute_never_batch _ _ _ Hr) as Hb.
  assert (∀ P : Prop, h ≠ HSearch →
            (P ↔ (∃ params', Some (h, params) = Some (HSearch, params')) ∧
                 hasCriterion q = false) ↔ ¬ P) as Hother.
  { intros P Hh. split.
    - intros HP HP'. apply HP in HP' as [[? [=]] _]. done.
    - intros HP. split; [done|]. intros [[? [=]] _]. done. }
  destruct h; try done; cbn [runHandler].
  - split; [by left|]. by apply Hother.
  - unfold listExercises. destruct (exercises_json (data srv)); cbn [status].
    + split; [by left|]. by apply Hother.
    + split; [by right; right|]. by apply Hother.
  - unfold getExercise. destruct (record_files (data srv) !! param params "id");
      cbn [status].
    + split; [by left|]. by apply Hother.
    + split; [by right; right|]. by apply Hother.
  - rewrite search_status. destruct (hasCriterion q).
    + destruct (exercises_json (data srv)).
      * split; [by left|]. split; [done|]. by intros [_ [=]].
      * split; [by right; right|]. split; [done|]. by intros [_ [=]].
    + split; [by right; left|]. split; [|done]. intros _. split; [by eexists|done].
  - split; [by left|]. by apply Hother.
  - unfold getMuscles. destruct (exercises_json (data srv)); cbn [status].
    + split; [by left|]. by apply Hother.
    + split; [by right; right|]. by apply Hother.
  - split; [by left|]. by apply Hother.
Qed.

Lemma bad_request_is_search_without_criterion_witness :
  handle Sample.server Sample.searchPath no_query =
    Some {| status := 400;
            body := BError "At least one search parameter is required" |} ∧
  hasCriterion no_query = false.
Proof.
  split; [reflexivity|].
  exact (proj2 (proj1 (proj2 (bad_request_is_search_without_criterion
                  Sample.server Sample.searchPath no_query _ eq_refl)) eq_refl)).
Defined.

(** ** The batch handler *)

Lemma length_omap_le {A B} (f : A → option B) (l : list A) :
  (length (omap f l) ≤ length l)%nat.
Proof.
  induction l as [|x l IH]; [done|]. cbn [omap list_omap].
  destruct (f x); cbn [length]; lia.
Qed.

(** X8. The batch handler, were it reached with a non-empty [ids]: a 200 whose
    records are those GetById finds for the ids listed, one for each listed
    id that has a file, so never more than the ids listed. *)
Theorem batch_handler_collects_what_get_by_id_finds srv q ids :
  q_ids q = Some ids → ids ≠ "" →
  ∃ found,
    getBatch srv q = {| status := 200; body := BBatch found |} ∧
    (∀ ex, ex ∈ found ↔
           ∃ i, i ∈ split "," ids ∧
                getExercise srv i no_query =
                  {| status := 200; body := BExercise (Whole ex) |}) ∧
    (length found ≤ length (split "," ids))%nat.
Proof.
  intros Hq Hne. eexists. split_and!.
  - by apply getBatch_found.
  - intros ex. rewrite list_elem_of_omap. unfold getExercise.
    split; intros (i & Hi & Hex); exists i; (split; [done|]).
    + by rewrite Hex.
    + destruct (record_files (data srv) !! i); [|done].
      by injection Hex as ->.
  - apply length_omap_le.
Qed.

Lemma batch_handler_collects_what_get_by_id_finds_witness :
  q_ids Sample.batchQuery = Some "push-up,nonexistent,squat" ∧
  ∃ found,
    getBatch Sample.server Sample.batchQuery =
      {| status := 200; body := BBatch found |} ∧
    (length found ≤ 3)%nat.
Proof.
  split; [reflexivity|].
  destruct (batch_handler_collects_what_get_by_id_finds Sample.server
              Sample.batchQuery "push-up,nonexistent,squat" eq_refl
              ltac:(discriminate)) as (found & H1 & _ & H2).
  exists found. split; [exact H1|exact H2].
Defined.

End QueryFacts.

(* ================================================================== *)
(** * Facts about the regular expressions                               *)
(* ================================================================== *)
Module RegExpFacts.
Import JS RegExp JSFacts.

Lemma app_empty_end (s : string) : s +:+ "" = s.
Proof. induction s as [|c s IH]; [done|]. rewrite app_String. by f_equal. Qed.

Lemma snoc_app taken c u : snoc taken c +:+ u = taken +:+ String c u.
Proof. unfold snoc. by rewrite app_assoc. Qed.

Lemma star_ext a lazy k k' taken s :
  (∀ t r, k t r = k' t r) → star a lazy k taken s = star a lazy k' taken s.
Proof.
  intros Hk. revert taken. induction s as [|c s IH]; intros taken; simpl.
  - by rewrite Hk.
  - by rewrite Hk, IH.
Qed.

Lemma star_lazy_unfold a k taken s :
  star a true k taken s =
  match k taken s with
  | Some r => Some r
  | None =>
      match s with
      | String c rest => if accepts a c then star a true k (snoc taken c) rest else None
      | EmptyString => None
      end
  end.
Proof. by destruct s. Qed.

(** A lazy star takes the shortest run of accepted characters after which
    the rest of the pattern matches. *)
Lemma star_lazy_spec a k taken s r :
  star a true k taken s = Some r ↔
  ∃ u v, s = u +:+ v ∧ accepted a u = true ∧ k (taken +:+ u) v = Some r ∧
         ∀ u1 u2, u = u1 +:+ u2 → u2 ≠ "" → k (taken +:+ u1) (u2 +:+ v) = None.
Proof.
  revert taken. induction s as [|c s IH]; intros taken; rewrite star_lazy_unfold.
  - split.
    + intros H. destruct (k taken "") eqn:E; [|done]. injection H as <-.
      exists "", "". rewrite (app_empty_end taken). split_and!; [done..|].
      intros u1 u2 Hu. by destruct u1, u2.
    + intros (u & v & Hs & _ & Hk & _). destruct u; [|done].
      rewrite app_empty_l in Hs. subst v.
      rewrite app_empty_end in Hk. by rewrite Hk.
  - split.
    + intros H. destruct (k taken (String c s)) eqn:E.
      * injection H as <-. exists "", (String c s). rewrite (app_empty_end taken).
        split_and!; [done..|]. intros u1 u2 Hu. by destruct u1, u2.
      * destruct (accepts a c) eqn:Ea; [|done].
        apply IH in H as (u & v & -> & Hu & Hk & Hmin).
        exists (String c u), v. rewrite <- snoc_app. split_and!; [done| |done|].
        { simpl. by rewrite Ea. }
        intros u1 u2 Hsplit Hne. destruct u1 as [|x u1].
        -- rewrite app_empty_l in Hsplit. subst u2.
           rewrite app_empty_end. rewrite app_String. exact E.
        -- rewrite app_String in Hsplit. injection Hsplit as <- ->.
           rewrite <- snoc_app. by apply Hmin.
    + intros (u & v & Hs & Hu & Hk & Hmin). destruct u as [|x u].
      * rewrite app_empty_l in Hs. subst v. rewrite app_empty_end in Hk.
        by rewrite Hk.
      * rewrite app_String in Hs. injection Hs as <- ->.
        pose proof (Hmin "" (String c u) eq_refl ltac:(done)) as Hfirst.
        rewrite app_empty_end, app_String in Hfirst. rewrite Hfirst.
        simpl in Hu. apply andb_true_iff in Hu as [-> Hu].
        apply IH. exists u, v. rewrite snoc_app. split_and!; [done..|].
        intros u1 u2 -> Hne. rewrite snoc_app.
        by apply (Hmin (String c u1) u2).
Qed.

(** A greedy star of any character before the end of the input takes all
    of it. *)
Lemma star_greedy_any a k taken s :
  (∀ t, k t "" = Some ([t], "")) → accepted a s = true →
  star a false k taken s = Some ([taken +:+ s], "").
Proof.
  intros Hk. revert taken. induction s as [|c s IH]; intros taken Hs; simpl.
  - by rewrite Hk, app_empty_end.
  - simpl in Hs. apply andb_true_iff in Hs as [-> Hs]. by rewrite IH, snoc_app.
Qed.

(** A greedy star before the end of the input, without group: the input
    must consist of accepted characters. *)
Lemma star_greedy_all a (k : string → string → option result) taken s :
  (∀ t, k t "" = Some ([], "")) → (∀ t c r, k t (String c r) = None) →
  star a false k taken s = if accepted a s then Some ([], "") else None.
Proof.
  intros Hk Hk'. revert taken. induction s as [|c s IH]; intros taken; simpl.
  - by rewrite Hk.
  - destruct (accepts a c); simpl; [|by rewrite Hk'].
    rewrite IH. destruct (accepted a s); [done|by rewrite Hk'].
Qed.

Lemma matchHere_lits l p b s :
  matchHere (lits l ++ p) b s =
  if startsWith l s
  then matchHere p (b && String.eqb l "") (Pipeline.dropChars (String.length l) s)
  else None.
Proof.
  revert b s. induction l as [|c l IH]; intros b s.
  - simpl. rewrite andb_true_r. by destruct s.
  - rewrite andb_false_r. destruct s as [|x s]; [done|]. simpl.
    rewrite (Ascii.eqb_sym x c). destruct (Ascii.eqb c x); [|done].
    rewrite IH. done.
Qed.

Lemma exec_Bos_later p s : exec (Bos :: p) false s = None.
Proof. induction s as [|c s IH]; [done|]. simpl. exact IH. Qed.

(** A pattern that begins with the start anchor matches at the start of the
    input or not at all. *)
Lemma exec_anchored p s : exec (Bos :: p) true s = matchHere p true s.
Proof.
  destruct s as [|c s]; simpl.
  - by destruct (matchHere p true "").
  - destruct (matchHere p true (String c s)); [done|]. apply exec_Bos_later.
Qed.

End RegExpFacts.

(* ================================================================== *)
(** * Facts about the scans of the scripts                              *)
(* ================================================================== *)
Module ScanFacts.
Import JS RegExp Scans JSFacts RegExpFacts.

(** ** Strings *)

Lemma length_app (a b : string) :
  String.length (a +:+ b) = (String.length a + String.length b)%nat.
Proof. induction a as [|c a IH]; [done|]. rewrite app_String. simpl. by rewrite IH. Qed.

(** A prefix no longer than [a] is a prefix of [a] followed by anything
    exactly when it is one of [a]. *)
Lemma startsWith_app_long p a x :
  (String.length p ≤ String.length a)%nat → startsWith p (a +:+ x) = startsWith p a.
Proof.
  revert a. induction p as [|c p IH]; intros a Hlen; [by destruct a, x|].
  destruct a as [|d a]; simpl in Hlen; [lia|].
  rewrite app_String. simpl. destruct (Ascii.eqb c d); [|done]. apply IH. lia.
Qed.

Lemma dropChars_app (a b : string) : Pipeline.dropChars (String.length a) (a +:+ b) = b.
Proof. induction a as [|c a IH]; [by destruct b|]. rewrite app_String. exact IH. Qed.

Lemma app_inv_prefix (p a b : string) : p +:+ a = p +:+ b → a = b.
Proof.
  induction p as [|c p IH]; [done|]. rewrite !app_String. intros [= H]. by apply IH.
Qed.

Lemma startsWith_app p rest : startsWith p (p +:+ rest) = true.
Proof. apply startsWith_spec. by exists rest. Qed.

Lemma closing_chars : closing = String "010" (String "-" (String "-" (String "-" nl))).
Proof. reflexivity. Qed.

Lemma opening_chars : opening = String "-" (String "-" (String "-" nl)).
Proof. reflexivity. Qed.

Lemma dropChars_closing rest : Pipeline.dropChars 5 (closing +:+ rest) = rest.
Proof. exact (dropChars_app closing rest). Qed.

Lemma dropChars_opening rest : Pipeline.dropChars 4 (opening +:+ rest) = rest.
Proof. exact (dropChars_app opening rest). Qed.

(** ** The front matter *)

Lemma cut_unfold before s :
  cut before s =
  if startsWith closing s
  then Some (before, Pipeline.dropChars 5 s)
  else match s with
       | String c rest => cut (snoc before c) rest
       | EmptyString => None
       end.
Proof. by destruct s. Qed.

Lemma star_cut (f : string → string → result) taken s :
  star Any true
    (λ t r, if startsWith closing r then Some (f t (Pipeline.dropChars 5 r)) else None)
    taken s
  = (λ '(t, b), f t b) <$> cut taken s.
Proof.
  revert taken. induction s as [|c s IH]; intros taken;
    rewrite star_lazy_unfold, cut_unfold.
  - done.
  - destruct (startsWith closing (String c s)); [done|]. apply IH.
Qed.

(** After the opening line the lazy group ends at the first closing line. *)
Lemma frontmatterMatch_cut content :
  frontmatterMatch content =
  if startsWith opening content then cut "" (Pipeline.dropChars 4 content) else None.
Proof.
  unfold frontmatterMatch, frontmatterPattern.
  rewrite exec_anchored, matchHere_lits.
  destruct (startsWith opening content); [|done].
  change (String.length opening) with 4%nat.
  set (s := Pipeline.dropChars 4 content). cbn [matchHere].
  rewrite (star_ext _ _ _
             (λ t r, if startsWith closing r
                     then Some ((λ t b, ([t; b], "")) t (Pipeline.dropChars 5 r))
                     else None)).
  - rewrite (star_cut (λ t b, ([t; b], ""))). by destruct (cut "" s) as [[t b]|].
  - intros t r. rewrite matchHere_lits.
    destruct (startsWith closing r); [|done].
    change (String.length closing) with 5%nat. cbn [matchHere].
    rewrite (star_greedy_any Any _ "" (Pipeline.dropChars 5 r)); [done|done|].
    clear. induction (Pipeline.dropChars 5 r) as [|c x IH]; [done|exact IH].
Qed.

Lemma frontmatterOf_cut content :
  Validate.frontmatterOf content =
  if startsWith opening content
  then fst <$> cut "" (Pipeline.dropChars 4 content) else None.
Proof.
  unfold Validate.frontmatterOf, Validate.frontmatterPattern.
  rewrite exec_anchored, matchHere_lits.
  destruct (startsWith opening content); [|done].
  change (String.length opening) with 4%nat.
  set (s := Pipeline.dropChars 4 content). cbn [matchHere].
  rewrite (star_ext _ _ _
             (λ t r, if startsWith closing r
                     then Some ((λ t b, ([t], b)) t (Pipeline.dropChars 5 r))
                     else None)).
  - rewrite (star_cut (λ t b, ([t], b))). by destruct (cut "" s) as [[t b]|].
  - intros t r.
    rewrite <- (app_nil_r (lits closing)), matchHere_lits.
    by destruct (startsWith closing r).
Qed.

Lemma includes_String needle c s :
  includes needle (String c s) = startsWith needle (String c s) || includes needle s.
Proof. done. Qed.

(** Whether the closing line begins at a character before it is settled
    by the text up to its three dashes. *)
Lemma startsWith_closing_inside x u markdown :
  startsWith closing (String x (u +:+ closing +:+ markdown)) =
  startsWith closing (String x (u +:+ nl +:+ "---")).
Proof.
  replace (String x (u +:+ closing +:+ markdown))
    with (String x (u +:+ nl +:+ "---") +:+ nl +:+ markdown).
  - apply startsWith_app_long. simpl. rewrite length_app. simpl. lia.
  - rewrite app_String. f_equal. by rewrite app_assoc.
Qed.

Lemma cut_spec before s frontmatter markdown :
  cut before s = Some (frontmatter, markdown) ↔
  ∃ u, frontmatter = before +:+ u ∧ s = u +:+ closing +:+ markdown ∧
       includes closing (u +:+ nl +:+ "---") = false.
Proof.
  revert before. induction s as [|c s IH]; intros before; rewrite cut_unfold.
  - split; [done|]. intros (u & _ & Hs & _). destruct u; discriminate Hs.
  - destruct (startsWith closing (String c s)) eqn:E.
    + remember (Pipeline.dropChars 5 (String c s)) as d eqn:Hd. split.
      * intros [= <- <-]. exists "". rewrite app_empty_end, app_empty_l.
        split_and!; [done| |done].
        apply startsWith_spec in E as [rest E].
        by rewrite Hd, E, dropChars_closing.
      * intros (u & -> & Hs & Hmin). destruct u as [|x u].
        -- rewrite app_empty_l in Hs.
           by rewrite app_empty_end, Hd, Hs, dropChars_closing.
        -- exfalso. rewrite app_String, includes_String in Hmin.
           apply orb_false_iff in Hmin as [Hmin _].
           rewrite Hs, app_String, startsWith_closing_inside in E. congruence.
    + rewrite IH. split.
      * intros (u & -> & -> & Hmin). exists (String c u).
        rewrite snoc_app, app_String. split_and!; [done..|].
        rewrite app_String, includes_String. apply orb_false_iff. split; [|done].
        by rewrite <- startsWith_closing_inside with (markdown := markdown).
      * intros (u & -> & Hs & Hmin). destruct u as [|x u].
        -- rewrite app_empty_l in Hs. rewrite Hs, startsWith_app in E. done.
        -- rewrite app_String in Hs. injection Hs as <- ->. exists u.
           rewrite snoc_app. split_and!; [done..|].
           rewrite app_String, includes_String in Hmin.
           by apply orb_false_iff in Hmin as [_ Hmin].
Qed.

Lemma cut_finds before text markdown :
  is_Some (cut before (text +:+ closing +:+ markdown)).
Proof.
  revert before. induction text as [|c text IH]; intros before; rewrite cut_unfold.
  - by rewrite app_empty_l, startsWith_app.
  - destruct (startsWith closing _); [done|]. rewrite app_String. apply IH.
Qed.

(** X9. The front matter of the converter. A content matches exactly when it is
    the opening line of three dashes, a text, a closing line of three dashes
    and a body; the front matter is then the text up to the first closing
    line, and the body is everything after that line. *)
Theorem frontmatter_ends_at_the_first_closing_line content :
  (∀ frontmatter markdown,
     frontmatterMatch content = Some (frontmatter, markdown) ↔
     content = opening +:+ frontmatter +:+ closing +:+ markdown ∧
     includes closing (frontmatter +:+ nl +:+ "---") = false) ∧
  (frontmatterMatch content = None ↔
   ¬ ∃ text markdown, content = opening +:+ text +:+ closing +:+ markdown).
Proof.
  assert (∀ frontmatter markdown,
     frontmatterMatch content = Some (frontmatter, markdown) ↔
     content = opening +:+ frontmatter +:+ closing +:+ markdown ∧
     includes closing (frontmatter +:+ nl +:+ "---") = false) as Hmatch.
  { intros frontmatter markdown. rewrite frontmatterMatch_cut.
    destruct (startsWith opening content) eqn:E.
    - apply startsWith_spec in E as [rest ->]. rewrite dropChars_opening, cut_spec.
      split.
      + intros (u & -> & -> & Hmin). by rewrite app_empty_l.
      + intros [Hc Hmin]. exists frontmatter. rewrite app_empty_l.
        split_and!; [done| |done].
        apply (f_equal (Pipeline.dropChars 4)) in Hc.
        by rewrite !dropChars_opening in Hc.
    - split; [done|]. intros [-> _]. by rewrite startsWith_app in E. }
  split; [exact Hmatch|]. split.
  - intros Hnone (text & markdown & ->).
    rewrite frontmatterMatch_cut, startsWith_app, dropChars_opening in Hnone.
    destruct (cut_finds "" text markdown) as [? Hsome]. congruence.
  - intros Hno. destruct (frontmatterMatch content) as [[frontmatter markdown]|] eqn:E;
      [|done].
    destruct (proj1 (Hmatch frontmatter markdown) eq_refl) as [Hc _].
    destruct Hno. by eexists _, _.
Qed.

(** X10. The validator and the converter read the same front matter: the
    validator's pattern, which stops at the closing line, matches the
    contents the converter's pattern matches, with the same first group. *)
Theorem validator_reads_the_frontmatter_of_the_converter content :
  Validate.frontmatterOf content = fst <$> frontmatterMatch content.
Proof.
  rewrite frontmatterOf_cut, frontmatterMatch_cut.
  by destruct (startsWith opening content).
Qed.

(** ** The scan with the global flag *)

Lemma matchHere_flag p b b' s :
  Forall (λ n, n ≠ Bos) p → matchHere p b s = matchHere p b' s.
Proof.
  intros Hp. revert b b' s. induction Hp as [|n p Hn Hp IH]; intros b b' s; [done|].
  destruct n as [| |a|a lazy group]; cbn [matchHere]; [done| | |].
  - destruct s; [apply IH|done].
  - done.
  - apply star_ext. intros t r. by rewrite (IH (b && String.eqb t "") (b' && String.eqb t "")).
Qed.

Lemma scan_flag p skip b b' s :
  Forall (λ n, n ≠ Bos) p → scan p skip b s = scan p skip b' s.
Proof.
  intros Hp. destruct skip, s; simpl; by rewrite ?(matchHere_flag p b b' _ Hp).
Qed.

(** Every match of the scan is a match of the pattern at some position of
    the input. *)
Lemma scan_matches p skip b s captures :
  captures ∈ scan p skip b s →
  ∃ before s' b' after, s = before +:+ s' ∧ matchHere p b' s' = Some (captures, after).
Proof.
  revert skip b. induction s as [|c s IH]; intros skip b.
  - destruct skip; simpl; [|by intros ?%elem_of_nil].
    destruct (matchHere p b "") as [[caps after]|] eqn:E; [|by intros ?%elem_of_nil].
    intros ->%list_elem_of_singleton. by exists "", "", b, after.
  - assert (∀ skip' b', captures ∈ scan p skip' b' s →
              ∃ before s' b'' after,
                String c s = before +:+ s' ∧ matchHere p b'' s' = Some (captures, after))
      as Hlater.
    { intros skip' b' (before & s' & b'' & after & -> & Hm)%IH.
      by exists (String c before), s', b'', after. }
    destruct skip; simpl; [|apply Hlater].
    destruct (matchHere p b (String c s)) as [[caps after]|] eqn:E; [|apply Hlater].
    intros [->|Hin]%elem_of_cons; [|by eapply Hlater].
    by exists "", (String c s), b, after.
Qed.

Lemma scan_skip p u v : scan p (String.length u) false (u +:+ v) = scan p 0 false v.
Proof. induction u as [|c u IH]; [done|]. rewrite app_String. exact IH. Qed.

(** ** References in round brackets *)

Lemma accepted_Dot s : accepted Dot s = oneLine s.
Proof.
  unfold oneLine. induction s as [|c s IH]; [done|]. simpl. rewrite IH.
  unfold lineTerminator.
  destruct (Ascii.eqb c "010"), (Ascii.eqb c "013"),
    (occurs "010" s), (occurs "013" s); done.
Qed.

Lemma occurs_String c x s : occurs c (String x s) = Ascii.eqb x c || occurs c s.
Proof. done. Qed.

Lemma occurs_app c a b : occurs c (a +:+ b) = occurs c a || occurs c b.
Proof.
  induction a as [|x a IH]; [done|]. rewrite app_String. simpl.
  by rewrite IH, orb_assoc.
Qed.

(** A character occurs in [u] exactly when some suffix of [u] begins with
    it. *)
Lemma occurs_none c u v :
  occurs c u = false ↔
  ∀ u1 u2, u = u1 +:+ u2 → u2 ≠ "" → startsWith (String c "") (u2 +:+ v) = false.
Proof.
  split.
  - intros Hc u1 u2 -> Hne. rewrite occurs_app in Hc.
    apply orb_false_iff in Hc as [_ Hc]. destruct u2 as [|x u2]; [done|].
    rewrite app_String. simpl in *. apply orb_false_iff in Hc as [Hx _].
    rewrite Ascii.eqb_sym, Hx. done.
  - induction u as [|x u IH]; [done|]. intros Hmin. simpl. apply orb_false_iff. split.
    + specialize (Hmin "" (String x u) eq_refl ltac:(done)).
      rewrite app_String in Hmin. simpl in Hmin. rewrite Ascii.eqb_sym.
      by destruct (Ascii.eqb c x).
    + apply IH. intros u1 u2 -> Hne. by apply (Hmin (String x u1) u2).
Qed.

Lemma includes_suffix needle a b : includes needle (a +:+ b) = false → includes needle b = false.
Proof.
  induction a as [|x a IH]; [done|]. rewrite app_String, includes_String.
  intros [_ H]%orb_false_iff. by apply IH.
Qed.

Lemma includes_start needle s : includes needle s = false → startsWith needle s = false.
Proof. destruct s; simpl; by intros [? _]%orb_false_iff. Qed.

(** The tail of both link patterns: the reference in round brackets. *)
Lemma matchHere_reference b r captures after :
  matchHere (lits "](" ++ Star Dot true true :: lits ")") b r = Some (captures, after) ↔
  ∃ path, captures = [path] ∧ r = "](" +:+ path +:+ ")" +:+ after ∧
          oneLine path = true ∧ occurs ")" path = false.
Proof.
  rewrite matchHere_lits. cbn [matchHere].
  rewrite (star_ext _ _ _
             (λ t x, if startsWith ")" x then Some ([t], Pipeline.dropChars 1 x) else None)).
  2:{ intros t x. destruct x as [|c x]; [done|].
      cbn [lits matchHere accepts startsWith Pipeline.dropChars andb].
      rewrite (Ascii.eqb_sym c ")"). by destruct (Ascii.eqb ")" c). }
  destruct (startsWith "](" r) eqn:E.
  - apply startsWith_spec in E as [rest ->].
    rewrite (dropChars_app "](" rest), star_lazy_spec. split.
    + intros (u & v & -> & Hu & Hk & Hmin). rewrite app_empty_l in Hk.
      destruct (startsWith ")" v) eqn:Ev; [|done]. injection Hk as <- <-.
      apply startsWith_spec in Ev as [rest' ->]. exists u.
      change (Pipeline.dropChars 1 (")" +:+ rest')) with rest'.
      rewrite <- accepted_Dot. split_and!; [done..|].
      apply (occurs_none ")" u (")" +:+ rest')). intros u1 u2 Hsplit Hne.
      specialize (Hmin u1 u2 Hsplit Hne). rewrite app_empty_l in Hmin.
      by destruct (startsWith ")" (u2 +:+ ")" +:+ rest')).
    + intros (path & -> & Hr & Hline & Hc).
      apply app_inv_prefix in Hr. subst rest.
      exists path, (")" +:+ after). rewrite accepted_Dot, app_empty_l, startsWith_app.
      change (Pipeline.dropChars 1 (")" +:+ after)) with after. split_and!; [done..|].
      intros u1 u2 Hsplit Hne. rewrite app_empty_l.
      by rewrite (proj1 (occurs_none ")" path (")" +:+ after)) Hc u1 u2 Hsplit Hne).
  - split; [done|]. intros (path & _ & -> & _). by rewrite startsWith_app in E.
Qed.

(** ** Image links *)

Lemma matchHere_image b s captures after :
  matchHere imagePattern b s = Some (captures, after) →
  ∃ alt path, captures = [alt; path] ∧
    s = "![" +:+ alt +:+ "](" +:+ path +:+ ")" +:+ after ∧
    oneLine alt = true ∧ oneLine path = true ∧ occurs ")" path = false.
Proof.
  unfold imagePattern. rewrite matchHere_lits.
  destruct (startsWith "![" s) eqn:E; [|done].
  apply startsWith_spec in E as [rest ->]. rewrite (dropChars_app "![" rest).
  cbn [matchHere]. intros (u & v & -> & Hu & Hk & _)%star_lazy_spec.
  rewrite app_empty_l in Hk.
  destruct (matchHere _ _ v) as [[caps after']|] eqn:Ev; [|done].
  injection Hk as <- <-.
  apply matchHere_reference in Ev as (path & -> & -> & Hline & Hc).
  exists u, path. by rewrite <- accepted_Dot.
Qed.

Lemma matchHere_image_layout b alt path after :
  oneLine alt = true → includes "](" (alt +:+ "]") = false →
  oneLine path = true → occurs ")" path = false →
  matchHere imagePattern b ("![" +:+ alt +:+ "](" +:+ path +:+ ")" +:+ after) =
  Some ([alt; path], after).
Proof.
  intros Halt Hno Hpath Hc. unfold imagePattern.
  rewrite matchHere_lits, startsWith_app, (dropChars_app "![" _).
  cbn [matchHere]. apply star_lazy_spec.
  exists alt, ("](" +:+ path +:+ ")" +:+ after).
  rewrite accepted_Dot, app_empty_l. split_and!; [done..| |].
  - rewrite (proj2 (matchHere_reference _ _ [path] after)); [done|].
    by exists path.
  - intros u1 u2 -> Hne. rewrite app_empty_l, matchHere_lits.
    rewrite app_assoc in Hno.
    apply (includes_suffix _ u1 (u2 +:+ "]")), includes_start in Hno.
    replace (u2 +:+ "](" +:+ path +:+ ")" +:+ after)
      with ((u2 +:+ "]") +:+ "(" +:+ path +:+ ")" +:+ after) by by rewrite app_assoc.
    rewrite startsWith_app_long, Hno; [done|].
    rewrite length_app. destruct u2; [done|simpl; lia].
Qed.

Lemma imagePattern_unanchored : Forall (λ n, n ≠ Bos) imagePattern.
Proof. repeat constructor; done. Qed.

Lemma scan_image_before b before s :
  occurs "!" before = false →
  scan imagePattern 0 b (before +:+ s) = scan imagePattern 0 b s.
Proof.
  revert b. induction before as [|c before IH]; intros b Hc; [done|].
  rewrite occurs_String in Hc. apply orb_false_iff in Hc as [Hx Hc].
  rewrite app_String.
  assert (matchHere imagePattern b (String c (before +:+ s)) = None) as Hm.
  { unfold imagePattern. rewrite matchHere_lits. cbn [startsWith].
    rewrite Ascii.eqb_sym, Hx. done. }
  change (scan imagePattern 0 b (String c (before +:+ s)))
    with (match matchHere imagePattern b (String c (before +:+ s)) with
          | Some (captures, after) =>
              captures ::
              scan imagePattern
                (String.length (String c (before +:+ s)) - String.length after - 1)
                false (before +:+ s)
          | None => scan imagePattern 0 false (before +:+ s)
          end).
  rewrite Hm, IH by done. apply scan_flag, imagePattern_unanchored.
Qed.

(** X11. Every reference [extractImageLinks] returns stands in the markdown in
    round brackets after an exclamation mark and a text in square brackets,
    all on one line, and holds no closing round bracket. *)
Theorem image_links_stand_in_the_markdown markdown link :
  link ∈ extractImageLinks markdown →
  (∃ before alt after,
     markdown = before +:+ "![" +:+ alt +:+ "](" +:+ link +:+ ")" +:+ after ∧
     oneLine alt = true) ∧
  oneLine link = true ∧ occurs ")" link = false.
Proof.
  unfold extractImageLinks. change (map ?f ?l) with (f <$> l).
  intros (captures & -> & Hin)%list_elem_of_fmap.
  apply scan_matches in Hin as (before & s' & b' & after & -> & Hm).
  apply matchHere_image in Hm as (alt & path & -> & -> & Halt & Hpath & Hc).
  split; [|done]. by exists before, alt, after.
Qed.

Lemma image_links_stand_in_the_markdown_witness :
  "../assets/images/push-up.jpg" ∈
    extractImageLinks "# Push-up ![Push-up demonstration](../assets/images/push-up.jpg)" ∧
  occurs ")" "../assets/images/push-up.jpg" = false.
Proof.
  assert ("../assets/images/push-up.jpg" ∈
    extractImageLinks "# Push-up ![Push-up demonstration](../assets/images/push-up.jpg)")
    as Hin by (vm_compute; left).
  split; [exact Hin|].
  exact (proj2 (proj2 (image_links_stand_in_the_markdown _ _ Hin))).
Defined.

(** X12. An image in the documented layout is extracted: after a text without
    exclamation mark, an image whose alternative text and reference are on
    one line, the text without a closing square bracket followed by an
    opening round one and the reference without a closing round bracket,
    gives its reference, and the scan goes on behind its closing bracket. *)
Theorem image_of_the_layout_is_extracted before alt path after :
  occurs "!" before = false →
  oneLine alt = true → includes "](" (alt +:+ "]") = false →
  oneLine path = true → occurs ")" path = false →
  extractImageLinks (before +:+ "![" +:+ alt +:+ "](" +:+ path +:+ ")" +:+ after) =
  path :: extractImageLinks after.
Proof.
  intros Hbefore Halt Hno Hpath Hc. unfold extractImageLinks.
  rewrite scan_image_before by done.
  pose proof (matchHere_image_layout true alt path after Halt Hno Hpath Hc) as Hm.
  set (inner := "[" +:+ alt +:+ "](" +:+ path +:+ ")") in *.
  change ("![" +:+ alt +:+ "](" +:+ path +:+ ")" +:+ after)
    with (String "!" ("[" +:+ alt +:+ "](" +:+ path +:+ ")" +:+ after)) in *.
  change (scan imagePattern 0 true
            (String "!" ("[" +:+ alt +:+ "](" +:+ path +:+ ")" +:+ after)))
    with (match matchHere imagePattern true
                  (String "!" ("[" +:+ alt +:+ "](" +:+ path +:+ ")" +:+ after)) with
          | Some (captures, after') =>
              captures ::
              scan imagePattern
                (String.length
                   (String "!" ("[" +:+ alt +:+ "](" +:+ path +:+ ")" +:+ after))
                 - String.length after' - 1)
                false ("[" +:+ alt +:+ "](" +:+ path +:+ ")" +:+ after)
          | None =>
              scan imagePattern 0 false ("[" +:+ alt +:+ "](" +:+ path +:+ ")" +:+ after)
          end).
  rewrite Hm. cbn [map]. f_equal.
  replace ("[" +:+ alt +:+ "](" +:+ path +:+ ")" +:+ after)
    with (inner +:+ after)
    by (subst inner; by rewrite !app_assoc).
  clearbody inner.
  replace (String.length (String "!" (inner +:+ after)) - String.length after - 1)%nat
    with (String.length inner)
    by (cbn [String.length]; rewrite length_app; lia).
  rewrite scan_skip. f_equal. apply scan_flag, imagePattern_unanchored.
Qed.

Lemma image_of_the_layout_is_extracted_witness :
  extractImageLinks
    ("# Squat" +:+ nl +:+ "![Squat demonstration](../../../assets/images/squat.jpg)"
     +:+ nl +:+ "## Description") =
  ["../../../assets/images/squat.jpg"].
Proof.
  exact (image_of_the_layout_is_extracted ("# Squat" +:+ nl) "Squat demonstration"
           "../../../assets/images/squat.jpg" (nl +:+ "## Description")
           eq_refl eq_refl eq_refl eq_refl eq_refl).
Defined.

(** ** Video links *)

Lemma accepts_v c :
  accepts (Class [("v"%char, "v"%char); ("V"%char, "V"%char)]) c = true →
  c = "v"%char ∨ c = "V"%char.
Proof.
  destruct c as [[] [] [] [] [] [] [] []]; intros H; vm_compute in H;
    first [discriminate H | by left | by right].
Qed.

Lemma matchHere_video b s captures after :
  matchHere videoPattern b s = Some (captures, after) →
  ∃ text v text' path, captures = [path] ∧
    s = "[" +:+ text +:+ String v "ideo" +:+ text' +:+ "](" +:+ path +:+ ")" +:+ after ∧
    (v = "v"%char ∨ v = "V"%char) ∧
    oneLine text = true ∧ oneLine text' = true ∧
    oneLine path = true ∧ occurs ")" path = false.
Proof.
  unfold videoPattern. rewrite matchHere_lits.
  destruct (startsWith "[" s) eqn:E; [|done].
  apply startsWith_spec in E as [rest ->]. rewrite (dropChars_app "[" rest).
  cbn [matchHere]. intros (text & r & -> & Htext & Hk & _)%star_lazy_spec.
  destruct r as [|v r]; [done|]. cbn [matchHere] in Hk.
  destruct (accepts _ v) eqn:Ev; [|done]. apply accepts_v in Ev.
  rewrite matchHere_lits in Hk.
  destruct (startsWith "ideo" r) eqn:Er; [|done].
  apply startsWith_spec in Er as [r' ->]. rewrite (dropChars_app "ideo" r') in Hk.
  cbn [matchHere] in Hk.
  destruct (star Dot true _ "" r') as [[caps after']|] eqn:Es; [|done].
  injection Hk as <- <-.
  apply star_lazy_spec in Es as (text' & w & -> & Htext' & Hk' & _).
  destruct (matchHere _ _ w) as [[caps' after'']|] eqn:Ew; [|done].
  injection Hk' as <- <-.
  apply matchHere_reference in Ew as (path & -> & -> & Hpath & Hc).
  exists text, v, text', path. rewrite <- !accepted_Dot.
  split_and!; [done..|by rewrite accepted_Dot|done].
Qed.

(** X13. Every reference [extractVideoLinks] returns stands in the markdown in
    round brackets after a text in square brackets that holds [video] or
    [Video], all on one line, and holds no closing round bracket. *)
Theorem video_links_stand_in_the_markdown markdown link :
  link ∈ extractVideoLinks markdown →
  (∃ before text v text' after,
     markdown = before +:+ "[" +:+ text +:+ String v "ideo" +:+ text' +:+
                "](" +:+ link +:+ ")" +:+ after ∧
     (v = "v"%char ∨ v = "V"%char) ∧ oneLine text = true ∧ oneLine text' = true) ∧
  oneLine link = true ∧ occurs ")" link = false.
Proof.
  unfold extractVideoLinks. change (map ?f ?l) with (f <$> l).
  intros (captures & -> & Hin)%list_elem_of_fmap.
  apply scan_matches in Hin as (before & s' & b' & after & -> & Hm).
  apply matchHere_video in Hm
    as (text & v & text' & path & -> & -> & Hv & Htext & Htext' & Hpath & Hc).
  split; [|done]. by exists before, text, v, text', after.
Qed.

Lemma video_links_stand_in_the_markdown_witness :
  "../../../assets/videos/squat.mp4" ∈
    extractVideoLinks
      ("## Video Tutorial" +:+ nl +:+
       "[Watch video tutorial](../../../assets/videos/squat.mp4)") ∧
  oneLine "../../../assets/videos/squat.mp4" = true.
Proof.
  assert ("../../../assets/videos/squat.mp4" ∈
    extractVideoLinks
      ("## Video Tutorial" +:+ nl +:+
       "[Watch video tutorial](../../../assets/videos/squat.mp4)"))
    as Hin by (vm_compute; left).
  split; [exact Hin|].
  exact (proj1 (proj2 (video_links_stand_in_the_markdown _ _ Hin))).
Defined.

(** Neither pattern matches without consuming a character, so the loop of
    the scan ends. *)
Lemma link_match_consumes b s captures after :
  matchHere imagePattern b s = Some (captures, after) ∨
  matchHere videoPattern b s = Some (captures, after) →
  (String.length after < String.length s)%nat.
Proof.
  intros [Hm|Hm].
  - apply matchHere_image in Hm as (alt & path & _ & -> & _).
    rewrite !length_app. simpl. lia.
  - apply matchHere_video in Hm as (text & v & text' & path & _ & -> & _).
    rewrite !length_app. simpl. rewrite ?length_app. simpl. lia.
Qed.

Lemma accepts_v_other x :
  x ≠ "v"%char → x ≠ "V"%char →
  accepts (Class [("v"%char, "v"%char); ("V"%char, "V"%char)]) x = false.
Proof.
  intros Hv HV. destruct (accepts _ x) eqn:E; [|done].
  by apply accepts_v in E as [->| ->].
Qed.

Lemma occurs_inside c u1 x u2 : occurs c (u1 +:+ String x u2) = false → x ≠ c.
Proof.
  rewrite occurs_app, occurs_String. intros [_ [H _]%orb_false_iff]%orb_false_iff ->.
  by rewrite Ascii.eqb_refl in H.
Qed.

Lemma oneLine_app a b : oneLine (a +:+ b) = oneLine a && oneLine b.
Proof.
  unfold oneLine. rewrite !occurs_app.
  by destruct (occurs "010" a), (occurs "013" a), (occurs "010" b), (occurs "013" b).
Qed.

Lemma matchHere_video_layout b text v text' path after :
  v = "v"%char ∨ v = "V"%char →
  oneLine text = true → occurs "v" text = false → occurs "V" text = false →
  oneLine text' = true → includes "](" (text' +:+ "]") = false →
  oneLine path = true → occurs ")" path = false →
  matchHere videoPattern b
    ("[" +:+ text +:+ String v "ideo" +:+ text' +:+ "](" +:+ path +:+ ")" +:+ after) =
  Some ([path], after).
Proof.
  intros Hv Htext Hnov HnoV Htext' Hno Hpath Hc. unfold videoPattern.
  rewrite matchHere_lits, startsWith_app, (dropChars_app "[" _).
  cbn [matchHere]. apply star_lazy_spec.
  exists text, (String v "ideo" +:+ text' +:+ "](" +:+ path +:+ ")" +:+ after).
  rewrite accepted_Dot, ?app_empty_l. split_and!; [done..| |].
  - rewrite app_String. cbn [matchHere].
    assert (accepts (Class [("v"%char, "v"%char); ("V"%char, "V"%char)]) v = true)
      as -> by (by destruct Hv as [-> | ->]).
    rewrite matchHere_lits, startsWith_app, (dropChars_app "ideo" _).
    cbn [matchHere].
    assert (star Dot true
              (λ taken rest,
                 match matchHere (lits "](" ++ Star Dot true true :: lits ")")
                         (false && String.eqb "ideo" "" && String.eqb taken "") rest with
                 | Some (captures, rest') => Some (captures, rest')
                 | None => None
                 end) "" (text' +:+ "](" +:+ path +:+ ")" +:+ after) =
            Some ([path], after)) as ->; [|done].
    apply star_lazy_spec. exists text', ("](" +:+ path +:+ ")" +:+ after).
    rewrite accepted_Dot, ?app_empty_l. split_and!; [done..| |].
    + rewrite (proj2 (matchHere_reference _ _ [path] after)); [done|]. by exists path.
    + intros u1 u2 -> Hne. rewrite ?app_empty_l, matchHere_lits.
      rewrite app_assoc in Hno.
      apply (includes_suffix _ u1 (u2 +:+ "]")), includes_start in Hno.
      replace (u2 +:+ "](" +:+ path +:+ ")" +:+ after)
        with ((u2 +:+ "]") +:+ "(" +:+ path +:+ ")" +:+ after) by by rewrite app_assoc.
      rewrite startsWith_app_long, Hno; [done|].
      rewrite length_app. destruct u2; [done|simpl; lia].
  - intros u1 u2 -> Hne. rewrite ?app_empty_l. destruct u2 as [|x u2]; [done|].
    rewrite app_String. cbn [matchHere].
    rewrite accepts_v_other; [done|by eapply occurs_inside..].
Qed.

Lemma videoPattern_unanchored : Forall (λ n, n ≠ Bos) videoPattern.
Proof. repeat constructor; done. Qed.

(** Before the first character a match can begin with, the scan finds
    nothing. *)
Lemma scan_before p c b before s :
  (∀ b x r, x ≠ c → matchHere p b (String x r) = None) →
  Forall (λ n, n ≠ Bos) p →
  occurs c before = false →
  scan p 0 b (before +:+ s) = scan p 0 b s.
Proof.
  intros Hfirst Hp. revert b. induction before as [|x before IH]; intros b Hc; [done|].
  rewrite occurs_String in Hc. apply orb_false_iff in Hc as [Hx Hc].
  rewrite app_String.
  assert (matchHere p b (String x (before +:+ s)) = None) as Hm.
  { apply Hfirst. intros ->. by rewrite Ascii.eqb_refl in Hx. }
  change (scan p 0 b (String x (before +:+ s)))
    with (match matchHere p b (String x (before +:+ s)) with
          | Some (captures, after) =>
              captures ::
              scan p (String.length (String x (before +:+ s)) - String.length after - 1)
                false (before +:+ s)
          | None => scan p 0 false (before +:+ s)
          end).
  rewrite Hm, IH by done. by apply scan_flag.
Qed.

(** The scan after a match that begins at the first character. *)
Lemma scan_after p b c inner after captures :
  Forall (λ n, n ≠ Bos) p →
  matchHere p b (String c (inner +:+ after)) = Some (captures, after) →
  scan p 0 b (String c (inner +:+ after)) = captures :: scan p 0 true after.
Proof.
  intros Hp Hm.
  change (scan p 0 b (String c (inner +:+ after)))
    with (match matchHere p b (String c (inner +:+ after)) with
          | Some (captures, after') =>
              captures ::
              scan p (String.length (String c (inner +:+ after)) - String.length after' - 1)
                false (inner +:+ after)
          | None => scan p 0 false (inner +:+ after)
          end).
  rewrite Hm. f_equal.
  replace (String.length (String c (inner +:+ after)) - String.length after - 1)%nat
    with (String.length inner)
    by (cbn [String.length]; rewrite length_app; lia).
  rewrite scan_skip. by apply scan_flag.
Qed.

Lemma video_first b x r : x ≠ "["%char → matchHere videoPattern b (String x r) = None.
Proof.
  intros Hx. unfold videoPattern. rewrite matchHere_lits. cbn [startsWith].
  destruct (Ascii.eqb "[" x) eqn:E; [|done]. by apply ascii_eqb_true in E.
Qed.

(** X14. A video link in the documented layout is extracted: after a text
    without opening square bracket, a link on one line whose text holds
    [video] or [Video], with no [v] before it, gives its reference, and the
    scan goes on behind its closing bracket. *)
Theorem video_of_the_layout_is_extracted before text v text' path after :
  occurs "[" before = false →
  v = "v"%char ∨ v = "V"%char →
  oneLine text = true → occurs "v" text = false → occurs "V" text = false →
  oneLine text' = true → includes "](" (text' +:+ "]") = false →
  oneLine path = true → occurs ")" path = false →
  extractVideoLinks
    (before +:+ "[" +:+ text +:+ String v "ideo" +:+ text' +:+ "](" +:+ path +:+ ")"
     +:+ after) =
  path :: extractVideoLinks after.
Proof.
  intros Hbefore Hv Htext Hnov HnoV Htext' Hno Hpath Hc. unfold extractVideoLinks.
  rewrite (scan_before videoPattern "[") by
    (done || apply videoPattern_unanchored || (intros; by apply video_first)).
  pose proof (matchHere_video_layout true text v text' path after
                Hv Htext Hnov HnoV Htext' Hno Hpath Hc) as Hm.
  assert ("[" +:+ text +:+ String v "ideo" +:+ text' +:+ "](" +:+ path +:+ ")" +:+ after =
          String "[" ((text +:+ String v "ideo" +:+ text' +:+ "](" +:+ path +:+ ")")
                      +:+ after)) as Heq.
  { rewrite (app_assoc text). change ("[" +:+ ?x) with (String "[" x).
    apply (f_equal (String "[")), (f_equal (String.append text)).
    by rewrite !app_assoc. }
  rewrite Heq in *.
  by rewrite (scan_after _ _ _ _ _ _ videoPattern_unanchored Hm).
Qed.

Lemma video_of_the_layout_is_extracted_witness :
  extractVideoLinks
    ("## Video Tutorial" +:+ nl +:+
     "[Watch video tutorial](../../../assets/videos/squat.mp4)") =
  ["../../../assets/videos/squat.mp4"].
Proof.
  exact (video_of_the_layout_is_extracted ("## Video Tutorial" +:+ nl) "Watch " "v"
           " tutorial" "../../../assets/videos/squat.mp4" ""
           eq_refl (or_introl eq_refl) eq_refl eq_refl eq_refl eq_refl eq_refl
           eq_refl eq_refl).
Defined.

Lemma image_first b x r : x ≠ "!"%char → matchHere imagePattern b (String x r) = None.
Proof.
  intros Hx. unfold imagePattern. rewrite matchHere_lits. cbn [startsWith].
  destruct (Ascii.eqb "!" x) eqn:E; [|done]. by apply ascii_eqb_true in E.
Qed.

(** An image whose alternative text holds [video] or [Video] is found by
    the scan for videos as well as by the scan for images. *)
Lemma image_scanned_as_video before text v text' path after :
  occurs "!" before = false → occurs "[" before = false →
  v = "v"%char ∨ v = "V"%char →
  oneLine text = true → occurs "v" text = false → occurs "V" text = false →
  oneLine text' = true →
  includes "](" ((text +:+ String v "ideo" +:+ text') +:+ "]") = false →
  oneLine path = true → occurs ")" path = false →
  let markdown :=
    before +:+ "![" +:+ (text +:+ String v "ideo" +:+ text') +:+ "](" +:+ path +:+ ")"
    +:+ after in
  extractImageLinks markdown = path :: extractImageLinks after ∧
  extractVideoLinks markdown = path :: extractVideoLinks after.
Proof.
  intros Hbang Hbefore Hv Htext Hnov HnoV Htext' Hno Hpath Hc markdown. split.
  - unfold extractImageLinks, markdown.
    rewrite (scan_before imagePattern "!") by
      (done || apply imagePattern_unanchored || (intros; by apply image_first)).
    assert (oneLine (text +:+ String v "ideo" +:+ text') = true) as Halt.
    { rewrite !oneLine_app, Htext, Htext'. cbn [andb]. by destruct Hv as [-> | ->]. }
    pose proof (matchHere_image_layout true _ path after Halt Hno Hpath Hc) as Hm.
    assert ("![" +:+ (text +:+ String v "ideo" +:+ text') +:+ "](" +:+ path +:+ ")"
            +:+ after =
            String "!" (("[" +:+ (text +:+ String v "ideo" +:+ text') +:+ "](" +:+ path
                         +:+ ")") +:+ after)) as Heq.
    { change ("![" +:+ ?x) with (String "!" ("[" +:+ x)).
      apply (f_equal (String "!")). by rewrite !app_assoc. }
    rewrite Heq in *.
    by rewrite (scan_after _ _ _ _ _ _ imagePattern_unanchored Hm).
  - unfold markdown.
    replace (before +:+ "![" +:+ (text +:+ String v "ideo" +:+ text') +:+ "](" +:+ path
             +:+ ")" +:+ after)
      with ((before +:+ "!") +:+ "[" +:+ text +:+ String v "ideo" +:+ text' +:+ "]("
            +:+ path +:+ ")" +:+ after)
      by (rewrite !app_assoc; done).
    unfold extractVideoLinks.
    rewrite (scan_before videoPattern "[") by
      (apply videoPattern_unanchored || (intros; by apply video_first) ||
       by rewrite occurs_app, Hbefore).
    assert (includes "](" (text' +:+ "]") = false) as Hno'.
    { rewrite !app_assoc in Hno. rewrite app_String in Hno.
      apply (includes_suffix _ (text +:+ String v "ideo") (text' +:+ "]")).
      by rewrite !app_assoc, app_String. }
    pose proof (matchHere_video_layout true text v text' path after
                  Hv Htext Hnov HnoV Htext' Hno' Hpath Hc) as Hm.
    assert ("[" +:+ text +:+ String v "ideo" +:+ text' +:+ "](" +:+ path +:+ ")" +:+ after =
            String "[" ((text +:+ String v "ideo" +:+ text' +:+ "](" +:+ path +:+ ")")
                        +:+ after)) as Heq.
    { rewrite (app_assoc text). change ("[" +:+ ?x) with (String "[" x).
      apply (f_equal (String "[")), (f_equal (String.append text)).
      by rewrite !app_assoc. }
    rewrite Heq in *.
    by rewrite (scan_after _ _ _ _ _ _ videoPattern_unanchored Hm).
Qed.

Section RecordFacts.

Variable BASE_URL : string.
Variable yaml_load : string → option Pipeline.Metadata.
Variable lexer : string → list Pipeline.token.
Variable now : string.

(** X15. An image in the documented layout whose alternative text holds
    [video] or [Video] is a video as well. When the body of a source whose
    front matter loads is a text with neither exclamation mark nor opening
    square bracket, then an image on one line whose alternative text holds
    [video] or [Video], with no [v] or [V] before it and no closing square
    bracket followed by an opening round bracket inside, and whose reference
    holds no closing round bracket, then any text: the record of the source
    has the reference of the image, made absolute, for its first image and
    for its first video, and [hasVideo] is true. *)
Theorem image_with_video_in_its_text_is_a_video
    content frontmatter metadata before text v text' path after :
  frontmatterMatch content =
    Some (frontmatter,
          before +:+ "![" +:+ (text +:+ String v "ideo" +:+ text') +:+ "]("
          +:+ path +:+ ")" +:+ after) →
  yaml_load frontmatter = Some metadata →
  occurs "!" before = false → occurs "[" before = false →
  v = "v"%char ∨ v = "V"%char →
  oneLine text = true → occurs "v" text = false → occurs "V" text = false →
  oneLine text' = true →
  includes "](" ((text +:+ String v "ideo" +:+ text') +:+ "]") = false →
  oneLine path = true → occurs ")" path = false →
  ∃ exerciseData,
    Pipeline.parseMarkdownFile BASE_URL frontmatterMatch yaml_load lexer
      extractImageLinks extractVideoLinks now content = Some exerciseData ∧
    Pipeline.images exerciseData =
      Pipeline.absolute BASE_URL path ::
      map (Pipeline.absolute BASE_URL) (extractImageLinks after) ∧
    Pipeline.videos exerciseData =
      Pipeline.absolute BASE_URL path ::
      map (Pipeline.absolute BASE_URL) (extractVideoLinks after) ∧
    Pipeline.hasVideo (Pipeline.mobile exerciseData) = true.
Proof.
  intros Hmatch Hyaml Hbang Hbefore Hv Htext Hnov HnoV Htext' Hno Hpath Hc.
  destruct (image_scanned_as_video before text v text' path after
              Hbang Hbefore Hv Htext Hnov HnoV Htext' Hno Hpath Hc) as [Himages Hvideos].
  cbv zeta in Himages, Hvideos.
  unfold Pipeline.parseMarkdownFile. rewrite Hmatch, Hyaml.
  eexists. split; [reflexivity|]. cbn [Pipeline.images Pipeline.videos Pipeline.mobile
                                       Pipeline.hasVideo].
  rewrite Himages, Hvideos. cbn [map length]. split_and!; [done..|].
  apply bool_decide_eq_true. lia.
Qed.

End RecordFacts.

Lemma image_with_video_in_its_text_is_a_video_witness :
  frontmatterMatch
    ("---" +:+ nl +:+ "id: clip" +:+ nl +:+ "---" +:+ nl +:+
     "![Video thumbnail](../assets/images/clip.jpg)") =
    Some ("id: clip", "![Video thumbnail](../assets/images/clip.jpg)") ∧
  ∃ exerciseData,
    Pipeline.parseMarkdownFile Sample.sampleBase frontmatterMatch Sample.sampleYaml
      Sample.sampleLexer extractImageLinks extractVideoLinks Sample.sampleNow
      ("---" +:+ nl +:+ "id: clip" +:+ nl +:+ "---" +:+ nl +:+
       "![Video thumbnail](../assets/images/clip.jpg)") = Some exerciseData ∧
    Pipeline.videos exerciseData = [Sample.sampleBase +:+ "/assets/images/clip.jpg"] ∧
    Pipeline.hasVideo (Pipeline.mobile exerciseData) = true.
Proof.
  split; [vm_compute; reflexivity|].
  destruct (image_with_video_in_its_text_is_a_video Sample.sampleBase Sample.sampleYaml
              Sample.sampleLexer Sample.sampleNow
              ("---" +:+ nl +:+ "id: clip" +:+ nl +:+ "---" +:+ nl +:+
               "![Video thumbnail](../assets/images/clip.jpg)")
              "id: clip" Sample.pushUpMetadata "" "" "V" " thumbnail"
              "../assets/images/clip.jpg" ""
              ltac:(vm_compute; reflexivity) eq_refl eq_refl eq_refl
              (or_intror eq_refl) eq_refl eq_refl eq_refl eq_refl eq_refl eq_refl
              eq_refl)
    as (exerciseData & Hparse & _ & Hvideos & Hhas).
  exists exerciseData. split_and!; [exact Hparse|exact Hvideos|exact Hhas].
Defined.

(** ** The pattern of the identifier *)

Lemma accepts_idClass c :
  accepts Schema.idClass c = is_lower c || is_digit c || Ascii.eqb c "-".
Proof. destruct c as [[] [] [] [] [] [] [] []]; reflexivity. Qed.

Lemma test_idPattern s :
  test Schema.idPattern s = negb (String.eqb s "") && accepted Schema.idClass s.
Proof.
  unfold test, Schema.idPattern. rewrite exec_anchored.
  destruct s as [|c s]; [done|]. cbn [matchHere accepted].
  destruct (accepts Schema.idClass c); [|done].
  rewrite star_greedy_all; [by destruct (accepted Schema.idClass s)| |];
    intros; by cbn.
Qed.

Lemma accepted_chars a s :
  accepted a s = true ↔
  ∀ before c after, s = before +:+ String c after → accepts a c = true.
Proof.
  induction s as [|x s IH]; cbn [accepted].
  - split; [|done]. intros _ before c after H. by destruct before.
  - rewrite andb_true_iff, IH. split.
    + intros [Hx Hs] before c after H. destruct before as [|y before].
      * rewrite app_empty_l in H. by injection H as <- _.
      * rewrite app_String in H. injection H as _ ->. by eapply Hs.
    + intros H. split; [by apply (H "" x s)|].
      intros before c after ->. by apply (H (String x before) c after).
Qed.

(** X16. The pattern of the identifier in the schema: a text passes exactly when
    it is not empty and each of its characters is a lower-case letter, a
    digit or a hyphen. *)
Theorem identifier_is_lower_case_digits_and_hyphens s :
  test Schema.idPattern s = true ↔
  s ≠ "" ∧
  ∀ before c after, s = before +:+ String c after →
                    is_lower c = true ∨ is_digit c = true ∨ c = "-"%char.
Proof.
  rewrite test_idPattern, andb_true_iff, negb_true_iff, accepted_chars.
  assert (String.eqb s "" = false ↔ s ≠ "") as ->.
  { destruct (String.eqb s "") eqn:E.
    - apply string_eqb_true in E. split; [done|]. by intros [].
    - split; [|done]. intros _ ->. by rewrite String.eqb_refl in E. }
  apply and_iff_compat_l. split; intros H before c after Hs;
    specialize (H before c after Hs); rewrite accepts_idClass in *.
  - apply orb_true_iff in H as [[?|?]%orb_true_iff|?%ascii_eqb_true]; auto.
  - destruct H as [-> | [-> | ->]]; [done|by rewrite orb_true_r|].
    by rewrite Ascii.eqb_refl, orb_true_r.
Qed.

End ScanFacts.

(* ================================================================== *)
(** * Facts about whole sections                                        *)
(* ================================================================== *)
Module SectionFacts.
Import JS Pipeline Blocks JSFacts PipelineFacts.

Lemma truthy_nonempty k : k ≠ "" → truthy (Some k) = true.
Proof.
  intros Hk. simpl. destruct (String.eqb k "") eqn:E; [|done].
  by apply string_eqb_true in E.
Qed.

(** Blocks under other headings leave a section as it is. *)
Lemma capture_elsewhere st rest k :
  currentSection st ≠ Some k →
  (∀ h, Heading h ∈ rest → toLowerCase h ≠ k) →
  sections (foldl capture st rest) !! k = sections st !! k.
Proof.
  revert st. induction rest as [|tok rest IH]; intros st Hcur Hno; [done|].
  cbn [foldl].
  assert (∀ h, Heading h ∈ rest → toLowerCase h ≠ k) as Hrest
    by (intros h Hh; apply Hno; by right).
  rewrite IH; [| |done].
  - destruct tok as [text|text|items|]; simpl; [| | |done].
    + apply lookup_insert_ne. apply Hno. by left.
    + destruct (truthy (currentSection st)) eqn:E; [|done]. simpl.
      destruct (currentSection st) as [cur|]; [|done]. simpl.
      rewrite lookup_alter_ne; [done|]. congruence.
    + destruct (truthy (currentSection st)) eqn:E; [|done]. simpl.
      destruct (currentSection st) as [cur|]; [|done]. simpl.
      rewrite lookup_insert_ne; [done|]. congruence.
  - rewrite currentSection_capture. destruct tok as [text|text|items|]; try done.
    intros [= H]. apply (Hno text); [by left|done].
Qed.

(** Inside a section each block acts on what the section holds. *)
Lemma capture_inside st body k held :
  k ≠ "" → currentSection st = Some k → sections st !! k = Some held →
  (∀ h, Heading h ∈ body → toLowerCase h ≠ k) →
  sections (foldl capture st body) !! k =
  Some (foldl (λ content tok,
                 match tok with
                 | Paragraph text => content ++ [text]
                 | ListBlock items => items
                 | _ => content
                 end) held (upToHeading body)).
Proof.
  intros Hk. revert st held. induction body as [|tok body IH]; intros st held Hcur Hheld Hno.
  { done. }
  assert (∀ h, Heading h ∈ body → toLowerCase h ≠ k) as Hbody
    by (intros h Hh; apply Hno; by right).
  cbn [foldl upToHeading]. destruct tok as [text|text|items|]; cbn [isHeading foldl].
  - rewrite capture_elsewhere; [|simpl|done].
    + simpl. rewrite lookup_insert_ne; [done|]. apply Hno. by left.
    + intros [= H]. apply (Hno text); [by left|done].
  - apply IH; [| |done]; simpl; rewrite Hcur, (truthy_nonempty k Hk); simpl; [done|].
    rewrite lookup_alter_eq, Hheld. done.
  - apply IH; [| |done]; simpl; rewrite Hcur, (truthy_nonempty k Hk); simpl; [done|].
    by rewrite lookup_insert_eq.
  - by apply IH.
Qed.

(** X21. What a section holds in the end. For the last heading with a given
    text, in lower case and not empty: the section holds what the blocks
    from that heading to the next one leave, each paragraph pushed and each
    list taking the place of what was there; the blocks of later sections do
    not touch it. *)
Theorem section_holds_the_blocks_up_to_the_next_heading before h body :
  toLowerCase h ≠ "" →
  (∀ h', Heading h' ∈ body → toLowerCase h' ≠ toLowerCase h) →
  sections (captureAll (before ++ Heading h :: body)) !! toLowerCase h =
  Some (content (upToHeading body)).
Proof.
  intros Hne Hlast. unfold captureAll. rewrite foldl_app. cbn [foldl].
  apply capture_inside; [done|done| |done].
  simpl. by rewrite lookup_insert_eq.
Qed.

Lemma section_holds_the_blocks_up_to_the_next_heading_witness :
  toLowerCase "Description" ≠ "" ∧
  sections (captureAll ([Heading "Squat"; Paragraph "An image."] ++
                        Heading "Description" ::
                        [Paragraph "A fundamental exercise."; Paragraph "It is safe.";
                         Heading "Tips"; ListBlock ["Keep your chest up"]]))
    !! "description" =
  Some ["A fundamental exercise."; "It is safe."].
Proof.
  assert (toLowerCase "Description" ≠ "") as Hne by discriminate.
  split; [exact Hne|].
  apply (section_holds_the_blocks_up_to_the_next_heading
           [Heading "Squat"; Paragraph "An image."] "Description"
           [Paragraph "A fundamental exercise."; Paragraph "It is safe.";
            Heading "Tips"; ListBlock ["Keep your chest up"]] Hne).
  intros h' Hin.
  repeat (apply elem_of_cons in Hin as [Hin|Hin]; [try discriminate Hin|]).
  - injection Hin as ->. discriminate.
  - by apply elem_of_nil in Hin.
Defined.

End SectionFacts.

(* ================================================================== *)
(** * Facts about the index files                                       *)
(* ================================================================== *)
Module IndexFacts.
Import JS Pipeline Reference JSFacts ApiFacts PipelineFacts.

(** ** Sums of counts *)

Lemma sum_add {K} (a b : K → Z) (ks : list K) :
  foldr Z.add 0 (map (λ k, a k + b k) ks) =
  foldr Z.add 0 (map a ks) + foldr Z.add 0 (map b ks).
Proof. induction ks as [|k ks IH]; simpl; lia. Qed.

Lemma sum_indicator_absent {K} `{EqDecision K} (x : K) (ks : list K) :
  x ∉ ks → foldr Z.add 0 (map (λ k, if bool_decide (x = k) then 1 else 0) ks) = 0.
Proof.
  induction ks as [|k ks IH]; [done|]. intros Hx. simpl.
  apply not_elem_of_cons in Hx as [Hk Hx]. rewrite IH by done.
  by rewrite bool_decide_eq_false_2.
Qed.

Lemma sum_indicator {K} `{EqDecision K} (x : K) (ks : list K) :
  NoDup ks → x ∈ ks →
  foldr Z.add 0 (map (λ k, if bool_decide (x = k) then 1 else 0) ks) = 1.
Proof.
  induction 1 as [|k ks Hk Hks IH]; [by intros ?%elem_of_nil|].
  intros [->|Hx]%elem_of_cons; simpl.
  - rewrite bool_decide_eq_true_2 by done. by rewrite sum_indicator_absent.
  - rewrite IH by done. rewrite bool_decide_eq_false_2; [done|]. by intros ->.
Qed.

(** Distinct keys that cover a list split it: the numbers of elements with
    each key add up to the length of the list. *)
Lemma counts_partition {A K} `{EqDecision K} (f : A → K) (l : list A) (ks : list K) :
  NoDup ks → (∀ x, x ∈ l → f x ∈ ks) →
  foldr Z.add 0
    (map (λ k, Z.of_nat (length (List.filter (λ x, bool_decide (f x = k)) l))) ks) =
  Z.of_nat (length l).
Proof.
  intros Hks. induction l as [|x l IH]; intros Hcover.
  - simpl. clear. induction ks as [|k ks IH]; simpl; lia.
  - rewrite (map_ext _ (λ k, (if bool_decide (f x = k) then 1 else 0) +
                             Z.of_nat (length (List.filter
                                                 (λ x, bool_decide (f x = k)) l)))).
    + rewrite sum_add, IH by (intros y Hy; apply Hcover; by right).
      rewrite sum_indicator; [simpl; lia|done|]. apply Hcover. by left.
    + intros k. simpl. destruct (bool_decide (f x = k)); simpl; lia.
Qed.

(** ** categories.json *)

(** X22. The category index splits the records: its ids are distinct, every
    entry counts at least one record, and the counts add up to the number of
    records. *)
Theorem category_index_splits_the_records exercises :
  NoDup (map cat_id (categoryIndex exercises)) ∧
  (∀ entry, entry ∈ categoryIndex exercises → 1 ≤ cat_count entry) ∧
  foldr Z.add 0 (map cat_count (categoryIndex exercises)) =
    Z.of_nat (length exercises).
Proof.
  destruct (categoryIndex_entries exercises) as [Hids Hentries]. split_and!.
  - rewrite Hids. apply NoDup_unique.
  - intros entry Hin. destruct (Hentries entry Hin) as (_ & -> & ex & Hex & Hcat).
    assert (ex ∈ List.filter
                   (λ ex, bool_decide (category (metadata ex) = cat_id entry)) exercises)
      as Hf by (apply elem_of_filter_bool; split; [done|by apply bool_decide_eq_true]).
    destruct (List.filter _ exercises); [by apply elem_of_nil in Hf|simpl; lia].
  - unfold categoryIndex. rewrite map_map. cbn [cat_count].
    apply (counts_partition (λ ex, category (metadata ex))); [apply NoDup_unique|].
    intros ex Hex. apply elem_of_unique.
    change (map ?f ?l) with (f <$> l).
    by apply (list_elem_of_fmap_2 (λ ex, category (metadata ex))).
Qed.

(** ** equipment.json *)

Lemma elem_of_equipmentSet (exercises : list ExerciseData) s eq :
  eq ∈ foldl (λ s ex, foldl (λ s eq, set_add eq s) s
                            (default [] (equipment (metadata ex)))) s exercises ↔
  eq ∈ s ∨ ∃ ex, ex ∈ exercises ∧ eq ∈ default [] (equipment (metadata ex)).
Proof.
  revert s. induction exercises as [|ex exercises IH]; intros s; simpl.
  - split; [by left|]. intros [?|(? & ?%elem_of_nil & _)]; done.
  - rewrite IH, elem_of_add_all. split.
    + intros [[?|?]|(ex' & ? & ?)]; [by left|right; exists ex|right; exists ex'];
        (split; [|done]); [by left|by right].
    + intros [?|(ex' & [->|?]%elem_of_cons & ?)];
        [by left; left|by left; right|right; by exists ex'].
Qed.

Lemma NoDup_equipmentSet (exercises : list ExerciseData) s :
  NoDup s →
  NoDup (foldl (λ s ex, foldl (λ s eq, set_add eq s) s
                              (default [] (equipment (metadata ex)))) s exercises).
Proof.
  revert s. induction exercises as [|ex exercises IH]; intros s Hs; simpl; [done|].
  by apply IH, NoDup_add_all.
Qed.

(** X23. The equipment index lists, in sorted order and each once, the equipment
    named by some record, each with its capitalised name and the number of
    records naming it, which is at least one. *)
Theorem equipment_index_is_sorted_and_counted exercises :
  StronglySorted String.le (map eq_id (equipmentIndex exercises)) ∧
  NoDup (map eq_id (equipmentIndex exercises)) ∧
  (∀ eq, eq ∈ map eq_id (equipmentIndex exercises) ↔
         ∃ ex, ex ∈ exercises ∧ eq ∈ default [] (equipment (metadata ex))) ∧
  (∀ entry, entry ∈ equipmentIndex exercises →
     eq_name entry = capitalize (eq_id entry) ∧ 1 ≤ eq_count entry).
Proof.
  unfold equipmentIndex.
  set (equipmentSet := foldl _ [] exercises).
  assert (∀ eq, eq ∈ sort equipmentSet ↔
                ∃ ex, ex ∈ exercises ∧ eq ∈ default [] (equipment (metadata ex)))
    as Hmem.
  { intros eq. destruct (sort_spec equipmentSet) as [_ ->].
    unfold equipmentSet. rewrite elem_of_equipmentSet.
    split; [intros [?%elem_of_nil|?]; done|by right]. }
  rewrite map_map. cbn [eq_id]. rewrite map_id.
  destruct (sort_spec equipmentSet) as [Hsorted Hperm]. split_and!.
  - done.
  - rewrite Hperm. by apply NoDup_equipmentSet, NoDup_nil.
  - done.
  - intros entry Hin. change (map ?f ?l) with (f <$> l) in Hin.
    apply list_elem_of_fmap in Hin as (eq & -> & Heq). cbn. split; [done|].
    apply Hmem in Heq as (ex & Hex & Heq).
    set (uses := List.filter _ exercises).
    assert (ex ∈ uses) as Hf.
    { apply elem_of_filter_bool. split; [done|].
      destruct (equipment (metadata ex)) as [l|]; [|by apply elem_of_nil in Heq].
      by apply arr_includes_spec. }
    destruct uses; [by apply elem_of_nil in Hf|simpl; lia].
Qed.

(** ** muscles.json *)

Lemma names_addUse muscle use unlessListed muscles :
  map muscle_name (addUse muscle use unlessListed muscles) =
  if bool_decide (muscle ∈ map muscle_name muscles)
  then map muscle_name muscles else map muscle_name muscles ++ [muscle].
Proof.
  induction muscles as [|entry muscles IH]; [done|]. cbn [addUse].
  destruct (String.eqb (muscle_name entry) muscle) eqn:E.
  - apply string_eqb_true in E. cbn [map].
    rewrite bool_decide_eq_true_2 by (rewrite E; left).
    destruct (unlessListed && _); [done|]. cbn [map muscle_name]. by rewrite E.
  - cbn [map]. rewrite IH.
    assert (muscle_name entry ≠ muscle) as Hne
      by (intros H; apply string_eqb_true in H; congruence).
    assert (bool_decide (muscle ∈ muscle_name entry :: map muscle_name muscles) =
            bool_decide (muscle ∈ map muscle_name muscles)) as ->.
    { apply bool_decide_ext. rewrite elem_of_cons. naive_solver. }
    by destruct (bool_decide (muscle ∈ map muscle_name muscles)).
Qed.

Lemma addUse_from exercises muscle use unlessListed muscles :
  Forall (λ entry, Forall (fromRecord exercises (muscle_name entry))
                          (muscle_exercises entry)) muscles →
  fromRecord exercises muscle use →
  Forall (λ entry, Forall (fromRecord exercises (muscle_name entry))
                          (muscle_exercises entry))
         (addUse muscle use unlessListed muscles).
Proof.
  intros Hall Huse. induction Hall as [|entry muscles Hentry Hall IH]; cbn [addUse].
  - repeat constructor. done.
  - destruct (String.eqb (muscle_name entry) muscle) eqn:E.
    + apply string_eqb_true in E. destruct (unlessListed && _); [by constructor|].
      constructor; [|done]. cbn. apply Forall_app. split; [by rewrite <- E|].
      by repeat constructor.
    + by constructor.
Qed.

(** What the loop over the muscles of one list has built when it has not
    thrown: no name of the list is inherited, the names are the ones there
    were and the new ones in the order of the list, and the exercises listed
    come from records. *)
Lemma addMuscles_built all use unlessListed muscles (l : list string) built :
  foldl (addMuscle use unlessListed) muscles l = Some built →
  ∃ before, muscles = Some before ∧
    (∀ m, m ∈ l → m ∉ inherited) ∧
    map muscle_name built =
      foldl (λ s x, if bool_decide (x ∈ s) then s else s ++ [x])
            (map muscle_name before) l ∧
    (Forall (λ entry, Forall (fromRecord all (muscle_name entry))
                             (muscle_exercises entry)) before →
     (∀ m, m ∈ l → fromRecord all m use) →
     Forall (λ entry, Forall (fromRecord all (muscle_name entry))
                             (muscle_exercises entry)) built).
Proof.
  revert muscles. induction l as [|m l IH]; intros muscles Hbuilt.
  { exists built. split_and!; [done|by intros m ?%elem_of_nil|done|done]. }
  cbn [foldl] in Hbuilt. apply IH in Hbuilt as (mid & Hmid & Hl & Hnames & Hfrom).
  unfold addMuscle in Hmid. destruct (arr_includes m inherited) eqn:E; [done|].
  destruct muscles as [before|]; [|done]. injection Hmid as <-.
  exists before. split_and!; [done| | |].
  - intros m' [->|Hm']%elem_of_cons; [|by apply Hl].
    intros Hin%arr_includes_spec. congruence.
  - cbn [foldl]. by rewrite Hnames, names_addUse.
  - intros Hall Huses. apply Hfrom; [|intros m' Hm'; apply Huses; by right].
    apply addUse_from; [done|]. apply Huses. by left.
Qed.

Lemma addMuscles_thrown use unlessListed (l : list string) :
  foldl (addMuscle use unlessListed) None l = None.
Proof.
  induction l as [|m l IH]; [done|]. cbn [foldl]. unfold addMuscle at 2.
  by destruct (arr_includes m inherited).
Qed.

(** The loop throws at the first inherited name. *)
Lemma addMuscles_throws use unlessListed muscles (l : list string) m :
  m ∈ l → m ∈ inherited → foldl (addMuscle use unlessListed) muscles l = None.
Proof.
  revert muscles. induction l as [|m' l IH]; intros muscles Hin Hm.
  { by apply elem_of_nil in Hin. }
  cbn [foldl]. apply elem_of_cons in Hin as [<-|Hin]; [|by apply IH].
  unfold addMuscle at 2. apply arr_includes_spec in Hm. rewrite Hm.
  apply addMuscles_thrown.
Qed.

Lemma addMuscles_returns use unlessListed before (l : list string) :
  (∀ m, m ∈ l → m ∉ inherited) →
  is_Some (foldl (addMuscle use unlessListed) (Some before) l).
Proof.
  revert before. induction l as [|m l IH]; intros before Hl; [by eexists|].
  cbn [foldl]. unfold addMuscle at 2.
  destruct (arr_includes m inherited) eqn:E.
  - apply arr_includes_spec in E. destruct (Hl m); [by left|done].
  - apply IH. intros m' Hm'. apply Hl. by right.
Qed.

Lemma collectMuscles_thrown exercises : collectMuscles None exercises = None.
Proof.
  induction exercises as [|ex exercises IH]; [done|].
  cbn [collectMuscles foldl]. cbv zeta. rewrite !addMuscles_thrown. exact IH.
Qed.

Lemma collectMuscles_built all muscles exercises built :
  collectMuscles muscles exercises = Some built →
  ∃ before, muscles = Some before ∧
    (∀ m, m ∈ concat (map targeted exercises) → m ∉ inherited) ∧
    map muscle_name built =
      foldl (λ s x, if bool_decide (x ∈ s) then s else s ++ [x])
            (map muscle_name before) (concat (map targeted exercises)) ∧
    ((∀ ex, ex ∈ exercises → ex ∈ all) →
     Forall (λ entry, Forall (fromRecord all (muscle_name entry))
                             (muscle_exercises entry)) before →
     Forall (λ entry, Forall (fromRecord all (muscle_name entry))
                             (muscle_exercises entry)) built).
Proof.
  revert muscles. induction exercises as [|ex exercises IH]; intros muscles Hbuilt.
  { exists built. split_and!; [done|by intros m ?%elem_of_nil|done|done]. }
  cbn [collectMuscles foldl] in Hbuilt. cbv zeta in Hbuilt.
  apply IH in Hbuilt as (mid & Hmid & Hrest & Hnames & Hfrom).
  apply (addMuscles_built all) in Hmid as (mid' & Hmid' & Hsec & Hnames2 & Hfrom2).
  apply (addMuscles_built all) in Hmid' as (before & -> & Hprim & Hnames1 & Hfrom1).
  exists before. split_and!; [done| | |].
  - cbn [map concat]. unfold targeted at 1. intros m Hm.
    rewrite !elem_of_app in Hm. destruct Hm as [[?|?]|?]; auto.
  - cbn [map concat]. unfold targeted at 1.
    by rewrite Hnames, Hnames2, Hnames1, !foldl_app.
  - intros Hsub Hall. apply Hfrom; [intros ex' ?; apply Hsub; by right|].
    assert (ex ∈ all) as Hex by (apply Hsub; by left).
    apply Hfrom2; [apply Hfrom1; [done|]|]; intros m Hm; by exists ex.
Qed.

Lemma collectMuscles_returns before exercises :
  (∀ m, m ∈ concat (map targeted exercises) → m ∉ inherited) →
  is_Some (collectMuscles (Some before) exercises).
Proof.
  revert before. induction exercises as [|ex exercises IH]; intros before Hl; [by eexists|].
  cbn [collectMuscles foldl]. cbv zeta.
  cbn [map concat] in Hl. unfold targeted at 1 in Hl.
  destruct (addMuscles_returns
              {| use_id := id (metadata ex); use_name := name (metadata ex);
                 isPrimary := true |} false before
              (default [] (primaryMuscles (metadata ex)))) as [mid ->].
  { intros m Hm. apply Hl. rewrite !elem_of_app. auto. }
  destruct (addMuscles_returns
              {| use_id := id (metadata ex); use_name := name (metadata ex);
                 isPrimary := false |} true mid
              (default [] (secondaryMuscles (metadata ex)))) as [mid' ->].
  { intros m Hm. apply Hl. rewrite !elem_of_app. auto. }
  apply IH. intros m Hm. apply Hl. rewrite !elem_of_app. auto.
Qed.

(** ** The order of the properties of an object *)

Lemma arrayIndex_inj key key' n :
  arrayIndex key = Some n → arrayIndex key' = Some n → key = key'.
Proof.
  unfold arrayIndex. intros H H'.
  destruct (all_digits key && String.eqb (pretty (Z.to_N (accum_digits 10 0 key))) key &&
            (Z.to_N (accum_digits 10 0 key) <? 4294967295)%N) eqn:E; [|done].
  destruct (all_digits key' &&
            String.eqb (pretty (Z.to_N (accum_digits 10 0 key'))) key' &&
            (Z.to_N (accum_digits 10 0 key') <? 4294967295)%N) eqn:E'; [|done].
  injection H as H. injection H' as H'.
  apply andb_true_iff in E as [[_ E]%andb_true_iff _].
  apply andb_true_iff in E' as [[_ E']%andb_true_iff _].
  apply string_eqb_true in E, E'. rewrite H in E. rewrite H' in E'. congruence.
Qed.

#[local] Instance indexLe_total {A} (name : A → string) : Total (indexLe name).
Proof. intros x y. unfold indexLe. lia. Qed.

#[local] Instance indexLe_trans {A} (name : A → string) : Transitive (indexLe name).
Proof. intros x y z. unfold indexLe. lia. Qed.

Lemma filter_fmap_name {A} (name : A → string) (P : string → Prop)
    `{∀ key, Decision (P key)} (l : list A) :
  name <$> filter (λ x, P (name x)) l = filter P (name <$> l).
Proof.
  induction l as [|x l IH]; [done|]. cbn [fmap list_fmap].
  rewrite !filter_cons. case_decide; [|done]. cbn [fmap list_fmap]. by rewrite IH.
Qed.

(** The order of the properties goes by their names alone. *)
Lemma ownOrder_names {A} (name : A → string) (l : list A) :
  name <$> ownOrder name l = ownOrder Datatypes.id (name <$> l).
Proof.
  unfold ownOrder. rewrite fmap_app. f_equal.
  - apply (StronglySorted_unique_strong (indexLe Datatypes.id)).
    + intros x y Hx Hy Hxy Hyx.
      rewrite merge_sort_Permutation in Hy. apply list_elem_of_filter in Hy as [[n Hn] _].
      apply list_elem_of_fmap in Hx as (a & -> & Ha).
      rewrite merge_sort_Permutation in Ha. apply list_elem_of_filter in Ha as [[k Hk] _].
      unfold indexLe in Hxy, Hyx. cbn in Hxy, Hyx, Hn. rewrite Hn, Hk in Hxy, Hyx.
      simpl in Hxy, Hyx. assert (k = n) as -> by lia.
      by apply (arrayIndex_inj _ _ n).
    + apply (StronglySorted_fmap name (indexLe name)); [by intros x y|].
      apply StronglySorted_merge_sort; apply _.
    + apply StronglySorted_merge_sort; apply _.
    + rewrite !merge_sort_Permutation.
      by rewrite (filter_fmap_name name (λ key, isIndex key) l).
  - exact (filter_fmap_name name (λ key, ¬ isIndex key) l).
Qed.

Lemma ownOrder_Permutation {A} (name : A → string) (l : list A) : ownOrder name l ≡ₚ l.
Proof. unfold ownOrder. rewrite merge_sort_Permutation. apply filter_app_complement. Qed.

Lemma elem_of_targeted exercises m :
  m ∈ concat (map targeted exercises) ↔ ∃ ex, ex ∈ exercises ∧ m ∈ targeted ex.
Proof.
  rewrite list_elem_of_In, in_concat. split.
  - intros (l & (ex & <- & Hex)%in_map_iff & Hm). exists ex.
    by rewrite !list_elem_of_In.
  - intros (ex & Hex & Hm). exists (targeted ex). rewrite in_map_iff.
    split; [exists ex|]; by rewrite <- !list_elem_of_In.
Qed.

(** Building the muscle reference throws exactly when some record targets
    a muscle whose name every object inherits. *)
Lemma muscle_reference_throws exercises :
  buildMuscleReference exercises = None ↔
  ∃ ex muscle, ex ∈ exercises ∧ muscle ∈ targeted ex ∧ muscle ∈ inherited.
Proof.
  unfold buildMuscleReference. split.
  - intros Hnone.
    destruct (collectMuscles (Some []) exercises) as [built|] eqn:E; [done|].
    destruct (decide (Exists (λ m, m ∈ inherited) (concat (map targeted exercises))))
      as [Hex|Hno].
    + apply Exists_exists in Hex as (m & Hm & Hin).
      apply elem_of_targeted in Hm as (ex & Hex & Hm). by exists ex, m.
    + destruct (collectMuscles_returns [] exercises) as [built Hbuilt]; [|congruence].
      intros m Hm Hin. apply Hno, Exists_exists. by exists m.
  - intros (ex & m & Hex & Hm & Hin).
    destruct (collectMuscles (Some []) exercises) as [built|] eqn:E; [|done].
    apply (collectMuscles_built exercises) in E as (_ & _ & Hno & _).
    destruct (Hno m); [|done]. apply elem_of_targeted. by exists ex.
Qed.

(** X24. The muscle reference. Building it throws exactly when some record
    targets a muscle whose name every object inherits. When it returns, it
    names each muscle some record targets, as primary or as secondary
    muscle, once: those named by an array index first, in ascending order,
    then the others in the order the records first name them; every
    exercise listed under a muscle is a record that targets it, with the
    record's id and name, marked primary or secondary as the record has
    it. *)
Theorem muscle_reference_lists_the_targeted_muscles exercises :
  (buildMuscleReference exercises = None ↔
   ∃ ex muscle, ex ∈ exercises ∧ muscle ∈ targeted ex ∧ muscle ∈ inherited) ∧
  ∀ muscles, buildMuscleReference exercises = Some muscles →
    muscle_name <$> muscles =
      ownOrder Datatypes.id (unique (concat (map targeted exercises))) ∧
    NoDup (muscle_name <$> muscles) ∧
    (∀ m, m ∈ muscle_name <$> muscles ↔ ∃ ex, ex ∈ exercises ∧ m ∈ targeted ex) ∧
    (∀ entry use,
       entry ∈ muscles → use ∈ muscle_exercises entry →
       fromRecord exercises (muscle_name entry) use).
Proof.
  split; [apply muscle_reference_throws|].
  unfold buildMuscleReference. intros muscles Hm.
  destruct (collectMuscles (Some []) exercises) as [built|] eqn:E; [|done].
  injection Hm as <-.
  apply (collectMuscles_built exercises) in E as (before & [= <-] & _ & Hnames & Hfrom).
  change (map muscle_name built) with (muscle_name <$> built) in Hnames.
  assert (muscle_name <$> ownOrder muscle_name built =
          ownOrder Datatypes.id (unique (concat (map targeted exercises)))) as Horder
    by by rewrite ownOrder_names, Hnames.
  split_and!.
  - exact Horder.
  - rewrite Horder, ownOrder_Permutation. apply NoDup_unique.
  - intros m. rewrite Horder, ownOrder_Permutation, elem_of_unique.
    apply elem_of_targeted.
  - intros entry use Hentry Huse. rewrite ownOrder_Permutation in Hentry.
    specialize (Hfrom (λ _ H, H) (Forall_nil_2 _)).
    rewrite Forall_forall in Hfrom. specialize (Hfrom entry Hentry).
    rewrite Forall_forall in Hfrom. exact (Hfrom use Huse).
Qed.

(** The order in which the reference lists muscles named by numbers. *)
Example muscles_named_by_numbers :
  ownOrder Datatypes.id ["b"; "10"; "a"; "2"; "01"; "4294967295"; "0"] =
  ["0"; "2"; "10"; "b"; "a"; "01"; "4294967295"].
Proof. vm_compute. reflexivity. Qed.

End IndexFacts.

(* ================================================================== *)
(** * Facts about asset references                                      *)
(* ================================================================== *)
Module AssetFacts.
Import JS Pipeline JSFacts PipelineFacts ScanFacts.

(** ** Thumbnails *)

Lemma app_inv_suffix (a b s : string) : a +:+ s = b +:+ s → a = b.
Proof.
  revert b. induction a as [|c a IH]; intros b H.
  - destruct b as [|d b]; [done|]. apply (f_equal String.length) in H.
    rewrite !length_app in H. simpl in H. exfalso. lia.
  - destruct b as [|d b].
    + apply (f_equal String.length) in H.
      rewrite !length_app in H. simpl in H. exfalso. lia.
    + rewrite !app_String in H. injection H as -> H. f_equal. by apply IH.
Qed.

(** A reference with a dot is a stem, a dot and an extension without dot. *)
Lemma last_dot p :
  occurs "." p = true → ∃ stem ext, p = stem +:+ "." +:+ ext ∧ occurs "." ext = false.
Proof.
  induction p as [|c p IH]; [done|]. rewrite occurs_String.
  destruct (occurs "." p) eqn:E.
  - intros _. destruct (IH eq_refl) as (stem & ext & -> & Hext).
    by exists (String c stem), ext.
  - rewrite orb_false_r. intros ->%ascii_eqb_true. by exists "", p.
Qed.

Lemma split_thumbnail stem ext :
  occurs "." ext = false →
  split "." (stem +:+ "-thumb." +:+ ext) = split "." (stem +:+ "-thumb") ++ [ext].
Proof.
  intros Hext.
  replace (stem +:+ "-thumb." +:+ ext) with ((stem +:+ "-thumb") +:+ String "." ext)
    by by rewrite app_assoc.
  by rewrite split_app_sep, (split_no_sep "." ext Hext).
Qed.

(** X25. The thumbnail of a reference without dot is [-thumb.] followed by the
    whole reference; on the references with a dot the thumbnail tells the
    images apart. *)
Theorem thumbnails_tell_images_apart :
  (∀ p, occurs "." p = false → thumbnail p = "-thumb." +:+ p) ∧
  (∀ p q, occurs "." p = true → occurs "." q = true →
          thumbnail p = thumbnail q → p = q).
Proof.
  split.
  - intros p Hp. unfold thumbnail. by rewrite (split_no_sep "." p Hp).
  - intros p q (stem & ext & -> & Hext)%last_dot (stem' & ext' & -> & Hext')%last_dot.
    rewrite !thumbnail_of_extension by done. intros H.
    apply (f_equal (split ".")) in H. rewrite !split_thumbnail in H by done.
    apply app_inj_tail in H as [H ->].
    apply (f_equal (join ".")) in H. rewrite !join_split in H.
    by apply app_inv_suffix in H as ->.
Qed.

(** ** Absolute references *)

Lemma absolute_settled BASE_URL p :
  startsWith "../" (BASE_URL +:+ "/") = false →
  startsWith "../" (absolute BASE_URL p) = false.
Proof.
  intros Hbase. unfold absolute. destruct (startsWith "../" p) eqn:E; [|done].
  destruct BASE_URL as [|a [|b base]].
  - done.
  - rewrite app_String. cbn [startsWith]. destruct (Ascii.eqb "." a); done.
  - rewrite <- app_assoc. rewrite startsWith_app_long; [done|].
    rewrite !app_String. cbn [String.length]. rewrite length_app. simpl. lia.
Qed.

Section ScriptFacts.

Variable BASE_URL : string.
Variable frontmatterMatch : string → option (string * string).
Variable yaml_load : string → option Metadata.
Variable lexer : string → list token.
Variable extractImageLinks : string → list string.
Variable extractVideoLinks : string → list string.
Variable now : string.

(** X26. Unless the base URL itself climbs, no image and no video of a parsed
    record is a reference that climbs out of the directory of its source:
    such references are made absolute, the others are kept. *)
Theorem references_of_a_record_do_not_climb content exerciseData url :
  startsWith "../" (BASE_URL +:+ "/") = false →
  parseMarkdownFile BASE_URL frontmatterMatch yaml_load lexer extractImageLinks
    extractVideoLinks now content = Some exerciseData →
  url ∈ images exerciseData ++ videos exerciseData →
  startsWith "../" url = false.
Proof.
  intros Hbase. unfold parseMarkdownFile.
  destruct (frontmatterMatch content) as [[frontmatter markdown]|]; [|done].
  destruct (yaml_load frontmatter) as [metadata|]; [|done].
  intros [= <-]. cbn [images videos]. rewrite <- map_app.
  change (map ?f ?l) with (f <$> l). intros (p & -> & _)%list_elem_of_fmap.
  by apply absolute_settled.
Qed.

End ScriptFacts.

Lemma references_of_a_record_do_not_climb_witness :
  startsWith "../" (Sample.sampleBase +:+ "/") = false ∧
  startsWith "../" (Sample.sampleBase +:+ "/../../assets/images/push-up.jpg") = false.
Proof.
  split; [reflexivity|].
  eapply (references_of_a_record_do_not_climb Sample.sampleBase Sample.sampleMatch
            Sample.sampleYaml Sample.sampleLexer Sample.sampleImages
            Sample.sampleVideos Sample.sampleNow Sample.pushUpSource _
            (Sample.sampleBase +:+ "/../../assets/images/push-up.jpg")
            eq_refl eq_refl).
  left.
Defined.

End AssetFacts.

(* ================================================================== *)
(** * Facts about the version and the ledger                          *)
(* ================================================================== *)
Module TrackerFacts.
Import JS Pipeline Converter JSFacts PipelineFacts ScanFacts AssetFacts.

(** ** JSON values *)

Lemma isString_spec v s : isString v s = true ↔ v = Some (JString s).
Proof.
  destruct v as [[]|]; simpl; try (split; [done|by intros [=]]).
  rewrite string_eqb_true. split; [by intros ->|by intros [= ->]].
Qed.

Lemma lookup_hashes (hashes : gmap string string) p :
  (JString <$> hashes : gmap string Json) !! p = JString <$> hashes !! p.
Proof. apply lookup_fmap. Qed.

Section ScriptFacts.

Variable BASE_URL : string.
Variable yaml_load : string → option Metadata.
Variable lexer : string → list token.
Variable clock : nat → string.
Variable calculateHash : string → string.
Variable readFileSync : string → option string.

Local Abbreviation parseFile := (Converter.parseMarkdownFile BASE_URL yaml_load lexer).
Local Abbreviation step :=
  (processFile BASE_URL yaml_load lexer clock calculateHash readFileSync).
Local Abbreviation loop :=
  (processAll BASE_URL yaml_load lexer clock calculateHash readFileSync).
Local Abbreviation run :=
  (processExerciseFiles BASE_URL yaml_load lexer clock calculateHash readFileSync).
Local Abbreviation leaves :=
  (left BASE_URL yaml_load lexer clock calculateHash readFileSync).
Local Abbreviation digestOf := (fileDigest calculateHash readFileSync).
Local Abbreviation digests := (digest calculateHash readFileSync).
Local Abbreviation isSource := (source readFileSync).
Local Abbreviation isChanged := (changed calculateHash readFileSync).
Local Abbreviation isUnchanged := (unchanged calculateHash readFileSync).
Local Abbreviation matter := (frontMatter yaml_load readFileSync).
Local Abbreviation validOf := (validSource yaml_load readFileSync).
Local Abbreviation recordOf := (record BASE_URL yaml_load lexer readFileSync).
Local Abbreviation recordsFrom := (records BASE_URL yaml_load lexer clock readFileSync).
Local Abbreviation isNamed := (named yaml_load readFileSync).

(** ** A parse *)

(** Whether a source parses does not depend on the clock, and the front
    matter of the record is the one that was loaded. *)
Lemma record_matter now file :
  match recordOf now file with
  | Some e => matter file = Some (metadata e)
  | None => matter file = None
  end.
Proof.
  unfold record, frontMatter. destruct (endsWith "index.md" file); [done|].
  destruct (readFileSync file) as [content|]; [|done].
  unfold Converter.parseMarkdownFile, Pipeline.parseMarkdownFile.
  destruct (Scans.frontmatterMatch content) as [[frontmatter markdown]|]; [|done].
  by destruct (yaml_load frontmatter).
Qed.

Lemma record_updatedAt now file e : recordOf now file = Some e → updatedAt e = now.
Proof.
  unfold record. destruct (endsWith "index.md" file); [done|].
  destruct (readFileSync file) as [content|]; [|done].
  unfold Converter.parseMarkdownFile, Pipeline.parseMarkdownFile.
  destruct (Scans.frontmatterMatch content) as [[frontmatter markdown]|]; [|done].
  destruct (yaml_load frontmatter); [|done]. by intros [= <-].
Qed.

(** ** One iteration of the loop, field by field *)

Lemma step_hashes prev st file :
  currentHashes (step prev st file) =
  match digestOf file with
  | Some h => <[file := h]> (currentHashes st)
  | None => currentHashes st
  end.
Proof.
  unfold processFile, fileDigest. destruct (endsWith "index.md" file); [done|].
  destruct (readFileSync file) as [content|]; [|done]. simpl.
  destruct prev; try done;
    destruct (parseFile _ content) as [e|]; try done;
    by destruct (Schema.validateExercise e).
Qed.

Lemma step_changes ledger st file :
  hasChanges (step (JObject ledger) st file) =
  hasChanges st ||
  match digestOf file with
  | Some h => negb (isString (ledger !! file) h)
  | None => false
  end.
Proof.
  unfold processFile, fileDigest. destruct (endsWith "index.md" file).
  { by rewrite orb_false_r. }
  destruct (readFileSync file) as [content|]; simpl.
  - destruct (parseFile _ content) as [e|]; [|done].
    by destruct (Schema.validateExercise e).
  - by rewrite orb_false_r.
Qed.

Lemma step_record ledger st file :
  step (JObject ledger) st file =
  match digestOf file with
  | None => if endsWith "index.md" file then st else invalid st
  | Some h =>
      let st := compared (negb (isString (ledger !! file) h)) (hashed file h st) in
      match recordOf (clock (readings st)) file with
      | Some e => if Schema.validateExercise e then valid e (read st) else invalid (read st)
      | None => invalid st
      end
  end.
Proof.
  unfold processFile, fileDigest, record. destruct (endsWith "index.md" file); [done|].
  by destruct (readFileSync file) as [content|].
Qed.

(** ** The whole loop *)

Lemma loop_hashes_from prev st files p :
  currentHashes (foldl (step prev) st files) !! p =
  match digests files p with
  | Some h => Some h
  | None => currentHashes st !! p
  end.
Proof.
  revert st. induction files as [|file files IH]; intros st; [done|].
  simpl. rewrite IH, step_hashes. unfold digest.
  destruct (decide (p = file)) as [->|Hne].
  - rewrite (bool_decide_eq_true_2 (file ∈ file :: files)) by left.
    destruct (digestOf file) as [h|] eqn:E.
    + rewrite lookup_insert_eq. by destruct (bool_decide (file ∈ files)).
    + by destruct (bool_decide (file ∈ files)).
  - assert (bool_decide (p ∈ file :: files) = bool_decide (p ∈ files)) as ->.
    { apply bool_decide_ext. rewrite elem_of_cons. naive_solver. }
    destruct (digestOf file) as [h|]; [by rewrite lookup_insert_ne|done].
Qed.

(** The ledger written by a run: the digests computed in this run, whatever
    the ledger held before. *)
Lemma loop_hashes prev files p :
  currentHashes (loop prev files) !! p = digests files p.
Proof.
  unfold processAll. rewrite loop_hashes_from. simpl. rewrite lookup_empty.
  by destruct (digests files p).
Qed.

Lemma digest_source files file h :
  digests files file = Some h ↔
  ∃ content, isSource files file content ∧ h = calculateHash content.
Proof.
  unfold digest, source, fileDigest. case_bool_decide as Hin.
  - destruct (endsWith "index.md" file).
    + split; [done|]. by intros (? & (_ & ? & _) & _).
    + destruct (readFileSync file) as [content|]; simpl.
      * split; [intros [= <-]; by exists content|].
        by intros (? & (_ & _ & [= <-]) & ->).
      * split; [done|]. by intros (? & (_ & _ & ?) & _).
  - split; [done|]. by intros (? & (? & _) & _).
Qed.

Lemma differs_changed files ledger :
  differs calculateHash readFileSync files ledger = true ↔ isChanged files ledger.
Proof.
  unfold differs, changed, source, fileDigest. rewrite existsb_exists. split.
  - intros (file & Hin%list_elem_of_In & H).
    destruct (endsWith "index.md" file) eqn:E; [done|].
    destruct (readFileSync file) as [content|] eqn:Er; [|done]. simpl in H.
    exists file, content. split; [done|].
    apply negb_true_iff in H. intros Heq%isString_spec. congruence.
  - intros (file & content & (Hin & Hidx & Hread) & Hne). exists file.
    split; [by apply list_elem_of_In|]. rewrite Hidx, Hread. simpl.
    apply negb_true_iff. destruct (isString _ _) eqn:E; [|done].
    by apply isString_spec in E.
Qed.

Lemma loop_changes_from ledger st files :
  hasChanges (foldl (step (JObject ledger)) st files) =
  hasChanges st || differs calculateHash readFileSync files ledger.
Proof.
  revert st. induction files as [|file files IH]; intros st; simpl.
  - by rewrite orb_false_r.
  - by rewrite IH, step_changes, orb_assoc.
Qed.

(** The run counts as changed exactly when some computed digest differs
    from, or is absent from, the prior ledger. *)
Lemma loop_changes ledger files :
  hasChanges (loop (JObject ledger) files) = true ↔ isChanged files ledger.
Proof.
  unfold processAll. rewrite loop_changes_from. simpl. apply differs_changed.
Qed.

Lemma unchanged_not_changed ledger files :
  isUnchanged files ledger → hasChanges (loop (JObject ledger) files) = false.
Proof.
  intros Hu. destruct (hasChanges (loop (JObject ledger) files)) eqn:E; [|done].
  apply loop_changes in E as (f & c & Hs & Hd). by apply Hu in Hs.
Qed.

(** ** The records of the loop *)

Lemma loop_records_from ledger st files :
  exercises (foldl (step (JObject ledger)) st files) =
    exercises st ++ recordsFrom (readings st) files ∧
  validCount (foldl (step (JObject ledger)) st files) =
    validCount st + Z.of_nat (length (recordsFrom (readings st) files)) ∧
  readings (foldl (step (JObject ledger)) st files) =
    (readings st + length (parsed yaml_load readFileSync files))%nat.
Proof.
  revert st. induction files as [|file files IH]; intros st.
  { simpl. rewrite app_nil_r. split_and!; [done|lia|lia]. }
  cbn [foldl records]. unfold parsed in *. cbn [List.filter].
  destruct (IH (step (JObject ledger) st file)) as (-> & -> & ->). clear IH.
  rewrite step_record. pose proof (record_matter (clock (readings st)) file) as Hm.
  unfold fileDigest, record in *.
  destruct (endsWith "index.md" file).
  { rewrite Hm. simpl. split_and!; [done|lia|lia]. }
  destruct (readFileSync file) as [content|]; simpl.
  - destruct (parseFile _ content) as [e|]; rewrite Hm; simpl.
    + destruct (Schema.validateExercise e); simpl.
      * rewrite <- (assoc_L (++)). split_and!; [done|lia|lia].
      * split_and!; [done|lia|lia].
    + split_and!; [done|lia|lia].
  - rewrite Hm. simpl. split_and!; [done|lia|lia].
Qed.

(** The loop collects the records of the valid sources, counts them, and
    reads the clock once for each source whose front matter loads. *)
Lemma loop_records ledger files :
  exercises (loop (JObject ledger) files) = recordsFrom 0 files ∧
  validCount (loop (JObject ledger) files) = Z.of_nat (length (recordsFrom 0 files)) ∧
  readings (loop (JObject ledger) files) = length (parsed yaml_load readFileSync files).
Proof.
  unfold processAll.
  destruct (loop_records_from ledger startLoop files) as (-> & -> & ->).
  simpl. split_and!; [done|lia|lia].
Qed.

(** The front matter of the records: the one of the valid sources, in the
    order of discovery. *)
Lemma records_metadata n files :
  metadata <$> recordsFrom n files = omap validOf files.
Proof.
  revert n. induction files as [|file files IH]; intros n; [done|].
  cbn [records omap list_omap]. unfold validSource at 1.
  pose proof (record_matter (clock n) file) as Hm.
  destruct (recordOf (clock n) file) as [e|]; rewrite Hm.
  - unfold Schema.validateExercise.
    destruct (Schema.validate (metadata e)); simpl; by rewrite IH.
  - apply IH.
Qed.

Lemma records_valid n files e :
  e ∈ recordsFrom n files → ∃ file, file ∈ files ∧ validOf file = Some (metadata e).
Proof.
  intros He. apply (list_elem_of_fmap_2 metadata) in He.
  rewrite records_metadata in He. apply list_elem_of_omap in He as (file & ? & ?).
  by exists file.
Qed.

Lemma validSource_valid file m : validOf file = Some m → Schema.validate m = true.
Proof.
  unfold validSource. destruct (matter file) as [m'|]; [|done].
  destruct (Schema.validate m') eqn:E; [|done]. by intros [= <-].
Qed.

Lemma valid_named m : Schema.validate m = true → ∃ i, id m = Some i.
Proof.
  unfold Schema.validate, Schema.required. destruct (id m) as [i|]; [by exists i|done].
Qed.

Lemma length_records n files :
  length (recordsFrom n files) = length (validSources yaml_load readFileSync files).
Proof.
  rewrite <- (length_fmap metadata), records_metadata. unfold validSources.
  induction files as [|file files IH]; [done|]. cbn [omap list_omap List.filter].
  destruct (validOf file); simpl; by rewrite IH.
Qed.

(** The file of a record is named after the id of a valid source. *)
Lemma record_file n files e stem :
  e ∈ recordsFrom n files → fileStem e +:+ ".json" = stem +:+ ".json" →
  isNamed files stem.
Proof.
  intros (file & Hin & Hv)%records_valid Hname.
  destruct (valid_named _ (validSource_valid _ _ Hv)) as [i Hi].
  exists file, (metadata e). split_and!; [done..|].
  unfold fileStem, part in Hname. rewrite Hi in Hname. simpl in Hname.
  by apply app_inv_suffix in Hname as ->.
Qed.

(** ** The calls of a run *)

Lemma lookup_persist (dir : Dir) (calls : list (string * Document)) name :
  name ∉ calls.*1 →
  foldl (λ (dir : Dir) '(name, document), <[name := stringify document]> dir)
        dir calls !! name = dir !! name.
Proof.
  revert dir. induction calls as [|[n d] calls IH]; intros dir Hne; [done|].
  cbn [foldl]. apply not_elem_of_cons in Hne as [Hn Hne].
  rewrite IH by done. by apply lookup_insert_ne.
Qed.

Lemma persist_other dir r name :
  name ∉ (written r).*1 → persist dir r !! name = dir !! name.
Proof. apply lookup_persist. Qed.

Lemma persist_last dir r before name document later :
  written r = before ++ (name, document) :: later → name ∉ later.*1 →
  persist dir r !! name = Some (stringify document).
Proof.
  intros Hw Hne. unfold persist. rewrite Hw, foldl_app. cbn [foldl].
  rewrite lookup_persist by done. apply lookup_insert_eq.
Qed.

Lemma load_lastVersion dir v :
  lastVersion dir v → loadVersion dir = Some (Some (JString v)).
Proof.
  unfold lastVersion, loadVersion. intros [H|[-> ->]]; [|done].
  destruct (dir !! "version.json") as [[]|]; try done. simpl in *. by rewrite H.
Qed.

Lemma load_priorLedger dir ledger : priorLedger dir ledger → loadHashes dir = JObject ledger.
Proof. unfold priorLedger, loadHashes. by intros [->|[-> ->]]. Qed.

(** A run that finds a version and a ledger writes the ledger and the
    version record first; what it writes after them are the aggregate, the
    indexes and the files of the records. *)
Lemma run_tracker files dir v ledger :
  lastVersion dir v → priorLedger dir ledger →
  ∃ later,
    written (run files dir) =
      ("file-hashes.json", HashesFile (currentHashes (loop (JObject ledger) files))) ::
      ("version.json",
       VersionFile
         {| version := Some (JString (if hasChanges (loop (JObject ledger) files)
                                      then bumpPatch v else v));
            lastUpdated := clock (length (parsed yaml_load readFileSync files));
            exerciseCount :=
              Z.of_nat (length (validSources yaml_load readFileSync files)) |}) ::
      later ∧
    ∀ name, name ∈ later.*1 →
      name ∈ ["exercises.json"; "muscles.json"; "categories.json"; "equipment.json"] ∨
      ∃ e, e ∈ recordsFrom 0 files ∧ name = fileStem e +:+ ".json".
Proof.
  intros Hv Hl. unfold processExerciseFiles.
  rewrite (load_lastVersion _ _ Hv), (load_priorLedger _ _ Hl).
  destruct (loop_records ledger files) as (Hex & Hcount & Hread).
  rewrite Hex, Hcount, Hread, length_records.
  destruct (hasChanges (loop (JObject ledger) files));
    destruct (buildMuscleReference (recordsFrom 0 files)) as [muscleData|];
    cbn [written app];
    (eexists; split; [reflexivity|]); cbn [fmap list_fmap fst];
    try (intros name Hin; by apply elem_of_nil in Hin).
  all: intros name Hin; rewrite !elem_of_cons in Hin;
    destruct Hin as [->|[->|[->|[->|Hin]]]];
    [left; set_solver..|].
  all: right; rewrite <- list_fmap_compose in Hin;
    apply list_elem_of_fmap in Hin as (e & -> & He); by exists e.
Qed.

(** The whole run, when it finds a version and a ledger. *)
Lemma run_written files dir v ledger :
  lastVersion dir v → priorLedger dir ledger →
  run files dir =
    let st := loop (JObject ledger) files in
    let currentVersion :=
      Some (JString (if hasChanges st then bumpPatch v else v)) in
    let tracker :=
      [("file-hashes.json", HashesFile (currentHashes st));
       ("version.json",
        VersionFile
          {| version := currentVersion;
             lastUpdated := clock (length (parsed yaml_load readFileSync files));
             exerciseCount :=
               Z.of_nat (length (validSources yaml_load readFileSync files)) |})] in
    match buildMuscleReference (recordsFrom 0 files) with
    | None => {| written := tracker; outcome := Thrown |}
    | Some muscleData =>
        {| written :=
             tracker ++
             [("exercises.json",
               ExercisesFile
                 {| agg_version := currentVersion;
                    agg_lastUpdated :=
                      clock (S (length (parsed yaml_load readFileSync files)));
                    agg_count := Z.of_nat (length (recordsFrom 0 files));
                    agg_exercises := recordsFrom 0 files |});
              ("muscles.json", MusclesFile muscleData);
              ("categories.json", CategoriesFile (categoryIndex (recordsFrom 0 files)));
              ("equipment.json", EquipmentFile (equipmentIndex (recordsFrom 0 files)))] ++
             map (λ exercise, (fileStem exercise +:+ ".json", ExerciseFile exercise))
                 (recordsFrom 0 files);
           outcome := Returned |}
    end.
Proof.
  intros Hv Hl. unfold processExerciseFiles.
  rewrite (load_lastVersion _ _ Hv), (load_priorLedger _ _ Hl).
  destruct (loop_records ledger files) as (Hex & Hcount & Hread).
  rewrite Hex, Hcount, Hread, length_records. cbv zeta.
  by destruct (hasChanges (loop (JObject ledger) files)).
Qed.

(** A valid source targets an inherited muscle name exactly when a record
    of the loop does. *)
Lemma inheritedMuscle_records n files :
  inheritedMuscle yaml_load readFileSync files ↔
  ∃ ex muscle, ex ∈ recordsFrom n files ∧ muscle ∈ Reference.targeted ex ∧
               muscle ∈ inherited.
Proof.
  unfold inheritedMuscle, Reference.targeted. split.
  - intros (file & m & muscle & Hin & Hv & Hinh & Hm).
    assert (m ∈ metadata <$> recordsFrom n files) as Hrec.
    { rewrite records_metadata. apply list_elem_of_omap. by exists file. }
    apply list_elem_of_fmap in Hrec as (ex & -> & Hex).
    exists ex, muscle. split_and!; [done| |done]. by apply elem_of_app.
  - intros (ex & muscle & (file & Hin & Hv)%records_valid & Hm & Hinh).
    exists file, (metadata ex), muscle. split_and!; [done..|].
    by apply elem_of_app.
Qed.

(** Each record carries a reading of the clock taken in the loop. *)
Lemma records_readings n files e :
  e ∈ recordsFrom n files →
  ∃ k, (n ≤ k < n + length (parsed yaml_load readFileSync files))%nat ∧
       updatedAt e = clock k.
Proof.
  revert n. induction files as [|file files IH]; intros n; [by intros ?%elem_of_nil|].
  cbn [records]. unfold parsed. cbn [List.filter].
  pose proof (record_matter (clock n) file) as Hm.
  destruct (recordOf (clock n) file) as [e'|] eqn:Er; rewrite Hm; simpl.
  - intros [He|He]%elem_of_app.
    + destruct (Schema.validateExercise e'); [|by apply elem_of_nil in He].
      apply list_elem_of_singleton in He as ->. exists n. split; [lia|].
      by apply (record_updatedAt _ file).
    + destruct (IH _ He) as (k & Hk & Ht). exists k. split; [|done].
      unfold parsed in Hk. lia.
  - intros He. destruct (IH _ He) as (k & Hk & Ht). exists k. split; [|done].
    unfold parsed in Hk. lia.
Qed.

Lemma step_counts prev st file :
  validCount (step prev st file) + invalidCount (step prev st file) =
  validCount st + invalidCount st + (if endsWith "index.md" file then 0 else 1).
Proof.
  unfold processFile. destruct (endsWith "index.md" file); [lia|].
  destruct (readFileSync file) as [content|]; simpl; [|lia].
  destruct prev; simpl; try lia;
    destruct (parseFile _ content) as [e|]; simpl; try lia;
    destruct (Schema.validateExercise e); simpl; lia.
Qed.

(** The valid and the invalid sources are the discovered files other than
    index files. *)
Lemma loop_counts prev files :
  validCount (loop prev files) + invalidCount (loop prev files) =
  Z.of_nat (length (List.filter (λ file, negb (endsWith "index.md" file)) files)).
Proof.
  unfold processAll.
  assert (∀ st, validCount (foldl (step prev) st files) +
                invalidCount (foldl (step prev) st files) =
                validCount st + invalidCount st +
                Z.of_nat (length (List.filter
                                    (λ file, negb (endsWith "index.md" file)) files)))
    as Hfrom.
  { induction files as [|file files IH]; intros st; simpl; [lia|].
    rewrite IH, step_counts. destruct (endsWith "index.md" file); simpl; lia. }
  rewrite Hfrom. simpl. lia.
Qed.

(** Whatever the ledger, a record the loop collects is the parse of a source
    that passes the schema. *)
Lemma loop_exercises_parsed prev files e :
  e ∈ exercises (loop prev files) →
  ∃ file content now,
    file ∈ files ∧ readFileSync file = Some content ∧
    parseFile now content = Some e ∧ Schema.validate (metadata e) = true.
Proof.
  unfold processAll.
  assert (∀ st, e ∈ exercises (foldl (step prev) st files) →
            e ∈ exercises st ∨
            ∃ file content now,
              file ∈ files ∧ readFileSync file = Some content ∧
              parseFile now content = Some e ∧ Schema.validate (metadata e) = true)
    as Hfrom.
  { induction files as [|file files IH]; intros st; [by left|]. cbn [foldl].
    intros [He|(f & c & now & Hin & H)]%IH;
      [|right; exists f, c, now; split; [by right|done]].
    unfold processFile in He. destruct (endsWith "index.md" file); [by left|].
    destruct (readFileSync file) as [content|] eqn:Er; [|by left].
    destruct prev; try (by left);
      destruct (parseFile _ content) as [e'|] eqn:Ep; try (by left);
      destruct (Schema.validateExercise e') eqn:Ev; try (by left);
      cbn [exercises valid read compared hashed] in He;
      (apply elem_of_app in He as [He|He]; [by left|]);
      apply list_elem_of_singleton in He as ->;
      right; eexists file, content, _; (split_and!; [by left|done|exact Ep|exact Ev]). }
  intros [He|H]%Hfrom; [by apply elem_of_nil in He|done].
Qed.

(** What a reader finds in the files of the tracker. *)
Lemma version_of_record r : get "version" (stringify (VersionFile r)) = version r.
Proof. destruct r as [[v|] t c]; reflexivity. Qed.

Lemma count_of_record r :
  get "exerciseCount" (stringify (VersionFile r)) = Some (JNumber (exerciseCount r)).
Proof. destruct r as [[v|] t c]; reflexivity. Qed.

Lemma lastVersion_unique dir v v' : lastVersion dir v → lastVersion dir v' → v = v'.
Proof.
  unfold lastVersion. intros [H|[H ->]] [H'|[H' ->]]; [congruence| | |done].
  - by rewrite H' in H.
  - by rewrite H in H'.
Qed.

Lemma semver_patch_inj major minor patch patch' :
  semver major minor patch = semver major minor patch' → patch = patch'.
Proof.
  unfold semver. intros H. rewrite <- !app_assoc in H.
  apply app_inv_prefix in H. by apply (inj pretty) in H.
Qed.

(** The tracker of a run whose records are not named as its files are: the
    ledger and the version record the run wrote are in the directory. *)
Lemma tracker_persisted files dir v ledger :
  lastVersion dir v → priorLedger dir ledger →
  ¬ isNamed files "version" → ¬ isNamed files "file-hashes" →
  leaves files dir !! "file-hashes.json" =
    Some (JObject (JString <$> currentHashes (loop (JObject ledger) files))) ∧
  leaves files dir !! "version.json" =
    Some (stringify (VersionFile
            {| version := Some (JString (if hasChanges (loop (JObject ledger) files)
                                         then bumpPatch v else v));
               lastUpdated := clock (length (parsed yaml_load readFileSync files));
               exerciseCount :=
                 Z.of_nat (length (validSources yaml_load readFileSync files)) |})).
Proof.
  intros Hv Hl Hversion Hhashes.
  destruct (run_tracker files dir v ledger Hv Hl) as (later & Hw & Hlater).
  assert (∀ stem, ¬ isNamed files stem →
            stem +:+ ".json" ∉
              ["exercises.json"; "muscles.json"; "categories.json"; "equipment.json"] →
            stem +:+ ".json" ∉ later.*1) as Hfree.
  { intros stem Hstem Hindex Hin. destruct (Hlater _ Hin) as [?|(e & He & Hname)]; [done|].
    apply Hstem. by apply (record_file 0 files e). }
  unfold left. split.
  - apply (persist_last _ _ [] "file-hashes.json" _ _ Hw).
    cbn [fmap list_fmap fst]. apply not_elem_of_cons. split; [done|].
    apply (Hfree "file-hashes" Hhashes). set_solver.
  - apply (persist_last _ _ [_] "version.json" _ _ Hw).
    apply (Hfree "version" Hversion). set_solver.
Qed.

(** C6 (version tracker). A run that finds a ledger and a last recorded
    version major.minor.patch, and none of whose valid records is named
    [version] or [file-hashes], persists the refreshed ledger, holding
    exactly the digests computed in this run, and a version record with a
    new reading of the clock and the number of valid records; the version
    it records is major.minor.(patch+1) when some computed digest differs
    from, or is absent from, the prior ledger and patch+1 is below 2^53,
    and the version it found when there is no such digest. *)
Theorem changed_run_increments_patch files dir ledger major minor patch :
  priorLedger dir ledger → lastVersion dir (semver major minor patch) →
  ¬ isNamed files "version" → ¬ isNamed files "file-hashes" →
  (∃ ledger', leaves files dir !! "file-hashes.json" = Some (JObject ledger') ∧
              ∀ p, ledger' !! p = JString <$> digests files p) ∧
  (∃ v, leaves files dir !! "version.json" =
          Some (stringify (VersionFile
                  {| version := Some (JString v);
                     lastUpdated := clock (length (parsed yaml_load readFileSync files));
                     exerciseCount :=
                       Z.of_nat (length (validSources yaml_load readFileSync files)) |})) ∧
        lastVersion (leaves files dir) v ∧
        (isChanged files ledger → (patch + 1 < 2 ^ 53)%N →
         v = semver major minor (patch + 1)) ∧
        (isUnchanged files ledger → v = semver major minor patch)).
Proof.
  intros Hl Hv Hversion Hhashes.
  destruct (tracker_persisted files dir _ ledger Hv Hl Hversion Hhashes) as [Hledger Hrecord].
  split.
  - eexists. split; [exact Hledger|]. intros p. by rewrite lookup_hashes, loop_hashes.
  - eexists. split; [exact Hrecord|]. split_and!.
    + left. rewrite Hrecord. cbn [mbind option_bind]. by rewrite version_of_record.
    + intros Hc Hsafe. apply loop_changes in Hc. rewrite Hc. by apply bumpPatch_semver.
    + intros Hu. by rewrite (unchanged_not_changed _ _ Hu).
Qed.

(** C7 (idempotence). A run over sources whose computed digests all equal
    their entries in the prior ledger leaves the persisted ledger and the
    last recorded version as they were, when the ledger holds no entry for
    another path and no valid record is named [version] or [file-hashes];
    whatever the version file held for its version, it holds after the
    run. *)
Theorem rerun_leaves_ledger_and_version files dir ledger :
  dir !! "file-hashes.json" = Some (JObject ledger) → isUnchanged files ledger →
  (∀ p, is_Some (ledger !! p) → ∃ content, isSource files p content) →
  ¬ isNamed files "version" → ¬ isNamed files "file-hashes" →
  leaves files dir !! "file-hashes.json" = dir !! "file-hashes.json" ∧
  (∀ v, lastVersion dir v → lastVersion (leaves files dir) v) ∧
  (is_Some (dir !! "version.json") →
   leaves files dir !! "version.json" ≫= get "version" =
     dir !! "version.json" ≫= get "version").
Proof.
  intros Hl Hu Hdom Hversion Hhashes.
  assert (priorLedger dir ledger) as Hprior by by left.
  destruct (loadVersion dir) as [currentVersion|] eqn:Hload.
  - assert (∃ later,
      written (run files dir) =
        ("file-hashes.json", HashesFile (currentHashes (loop (JObject ledger) files))) ::
        ("version.json",
         VersionFile {| version := currentVersion;
                        lastUpdated := clock (readings (loop (JObject ledger) files));
                        exerciseCount := validCount (loop (JObject ledger) files) |}) ::
        later ∧
      ∀ name, name ∈ later.*1 →
        name ∈ ["exercises.json"; "muscles.json"; "categories.json"; "equipment.json"] ∨
        ∃ e, e ∈ recordsFrom 0 files ∧ name = fileStem e +:+ ".json")
      as (later & Hw & Hlater).
    { unfold processExerciseFiles.
      rewrite Hload, (load_priorLedger _ _ Hprior), (unchanged_not_changed _ _ Hu).
      destruct (loop_records ledger files) as (Hex & _ & _). rewrite Hex.
      destruct (buildMuscleReference (recordsFrom 0 files)) as [muscleData|];
        cbn [written app];
        (eexists; split; [reflexivity|]); cbn [fmap list_fmap fst];
        try (intros name Hin; by apply elem_of_nil in Hin).
      intros name Hin; rewrite !elem_of_cons in Hin;
        destruct Hin as [->|[->|[->|[->|Hin]]]];
        [left; set_solver..|].
      right; rewrite <- list_fmap_compose in Hin;
        apply list_elem_of_fmap in Hin as (e & -> & He); by exists e. }
    assert (∀ stem, ¬ isNamed files stem →
              stem +:+ ".json" ∉
                ["exercises.json"; "muscles.json"; "categories.json"; "equipment.json"] →
              stem +:+ ".json" ∉ later.*1) as Hfree.
    { intros stem Hstem Hindex Hin.
      destruct (Hlater _ Hin) as [?|(e & He & Hname)]; [done|].
      apply Hstem. by apply (record_file 0 files e). }
    assert (leaves files dir !! "version.json" ≫= get "version" = currentVersion)
      as Hafter.
    { unfold left. rewrite (persist_last _ _ [_] "version.json" _ _ Hw).
      2:{ apply (Hfree "version" Hversion). set_solver. }
      cbn [mbind option_bind]. by rewrite version_of_record. }
    split_and!.
    + unfold left. rewrite (persist_last _ _ [] "file-hashes.json" _ _ Hw).
      2:{ cbn [fmap list_fmap fst]. apply not_elem_of_cons. split; [done|].
          apply (Hfree "file-hashes" Hhashes). set_solver. }
      rewrite Hl. cbn [stringify]. do 2 f_equal. apply map_eq. intros p.
      rewrite lookup_hashes, loop_hashes.
      destruct (digests files p) as [h|] eqn:E.
      * apply digest_source in E as (content & Hs & ->). symmetry. by apply Hu.
      * destruct (ledger !! p) as [entry|] eqn:Ep; [|done].
        destruct (Hdom p) as [content Hs]; [by eexists|].
        assert (digests files p = Some (calculateHash content)) as Hd
          by (apply digest_source; by exists content).
        congruence.
    + intros v Hv. left. rewrite Hafter.
      rewrite (load_lastVersion _ _ Hv) in Hload. by injection Hload as <-.
    + intros [versionData Hfile]. rewrite Hafter.
      unfold loadVersion in Hload. rewrite Hfile in *. cbn [mbind option_bind].
      destruct versionData; try done; by injection Hload as <-.
  - unfold left, persist, processExerciseFiles. rewrite Hload. by split_and!.
Qed.

(** C10 (removed sources). A run over sources whose computed digests all
    equal their entries in the prior ledger is not treated as changed,
    whatever else the ledger holds; when none of its valid records is named
    [version] or [file-hashes], the last recorded version stays as it was,
    its patch component not incremented, and the persisted ledger has no
    entry for a path that is not a source of this run. *)
Theorem removed_source_is_not_a_change files dir ledger major minor patch :
  dir !! "file-hashes.json" = Some (JObject ledger) →
  lastVersion dir (semver major minor patch) → isUnchanged files ledger →
  ¬ isNamed files "version" → ¬ isNamed files "file-hashes" →
  hasChanges (loop (loadHashes dir) files) = false ∧
  lastVersion (leaves files dir) (semver major minor patch) ∧
  ¬ lastVersion (leaves files dir) (semver major minor (patch + 1)) ∧
  ∀ p, (∀ content, ¬ isSource files p content) →
       leaves files dir !! "file-hashes.json" ≫= get p = None.
Proof.
  intros Hl Hv Hu Hversion Hhashes.
  assert (priorLedger dir ledger) as Hprior by by left.
  destruct (tracker_persisted files dir _ ledger Hv Hprior Hversion Hhashes)
    as [Hledger Hrecord].
  rewrite (unchanged_not_changed _ _ Hu) in Hrecord.
  assert (lastVersion (leaves files dir) (semver major minor patch)) as Hstays.
  { left. rewrite Hrecord. cbn [mbind option_bind]. by rewrite version_of_record. }
  split_and!.
  - rewrite (load_priorLedger _ _ Hprior). by apply unchanged_not_changed.
  - exact Hstays.
  - intros Hup. pose proof (lastVersion_unique _ _ _ Hstays Hup) as Heq.
    apply semver_patch_inj in Heq. lia.
  - intros p Hp. rewrite Hledger. cbn [mbind option_bind get].
    rewrite lookup_hashes, loop_hashes.
    destruct (digests files p) as [h|] eqn:E; [|done].
    apply digest_source in E as (content & Hs & _). by destruct (Hp content).
Qed.

End ScriptFacts.

(** ** The facts at the sample sources *)

Lemma sample_names stem :
  stem ≠ "push-up" →
  ¬ named Worlds.yaml Worlds.readSources Sample.discovered stem.
Proof.
  intros Hne (file & m & Hin & Hv & Hid).
  apply elem_of_cons in Hin as [->|Hin].
  - vm_compute in Hv. injection Hv as <-. injection Hid as <-. done.
  - apply list_elem_of_singleton in Hin as ->. discriminate Hv.
Qed.

Lemma sample_outdated :
  changed Sample.lengthHash Worlds.readSources Sample.discovered
    {[ Sample.pushUpPath := JString "0" ]}.
Proof.
  exists Sample.pushUpPath, Sample.pushUpSource. split.
  - split_and!; [by left|reflexivity|reflexivity].
  - intros H. vm_compute in H. discriminate H.
Qed.

Lemma sample_unchanged (ledger : gmap string Json) :
  ledger !! Sample.pushUpPath = Some (JString (Sample.lengthHash Sample.pushUpSource)) →
  unchanged Sample.lengthHash Worlds.readSources Sample.discovered ledger.
Proof.
  intros Hledger file content (Hin & Hidx & Hread).
  apply elem_of_cons in Hin as [->|Hin].
  - injection Hread as <-. exact Hledger.
  - apply list_elem_of_singleton in Hin as ->. discriminate Hidx.
Qed.

Lemma sample_squat_removed content :
  ¬ source Worlds.readSources Sample.discovered Sample.squatPath content.
Proof.
  intros (Hin & _).
  by apply (not_elem_of_strings Sample.squatPath Sample.discovered).
Qed.

(** The version tracker as stated fails for a record named [version], which
    takes the place of the version record, and for a patch component of
    2^53, which the increment leaves as it is. *)
Lemma record_named_version_replaces_the_version_record :
  ¬ trackerAsStated Sample.sampleBase Worlds.yaml Sample.sampleLexer Worlds.sampleClock
      Sample.lengthHash Worlds.readSources [Worlds.versionPath]
      (Worlds.recorded "1.0.4" ∅) ∧
  ¬ trackerAsStated Sample.sampleBase Worlds.yaml Sample.sampleLexer Worlds.sampleClock
      Sample.lengthHash Worlds.readSources Sample.discovered Worlds.largePatch.
Proof.
  split.
  - intros H. destruct (H ∅ 1%N 0%N 4%N) as (_ & _ & v & Hv).
    + by left.
    + by left.
    + apply (f_equal (λ file, file ≫= get "exerciseCount")) in Hv.
      cbn [mbind option_bind] in Hv. rewrite count_of_record in Hv.
      vm_compute in Hv. discriminate Hv.
  - intros H.
    destruct (H {[ Sample.pushUpPath := JString "0" ]} 1%N 0%N 9007199254740992%N)
      as (Hup & _).
    + by left.
    + by left.
    + pose proof (Hup sample_outdated) as Hversion.
      assert (lastVersion
                (left Sample.sampleBase Worlds.yaml Sample.sampleLexer Worlds.sampleClock
                   Sample.lengthHash Worlds.readSources Sample.discovered
                   Worlds.largePatch) "1.0.9007199254740992") as Hstays
        by (left; vm_compute; reflexivity).
      pose proof (lastVersion_unique _ _ _ Hversion Hstays) as Heq.
      vm_compute in Heq. discriminate Heq.
Qed.

Lemma changed_run_increments_patch_witness :
  priorLedger Worlds.outdated {[ Sample.pushUpPath := JString "0" ]} ∧
  lastVersion Worlds.outdated (semver 1 0 1) ∧
  changed Sample.lengthHash Worlds.readSources Sample.discovered
    {[ Sample.pushUpPath := JString "0" ]} ∧
  lastVersion (Worlds.leaves Worlds.sampleWorld Worlds.outdated) (semver 1 0 2).
Proof.
  assert (priorLedger Worlds.outdated {[ Sample.pushUpPath := JString "0" ]}) as Hl
    by by left.
  assert (lastVersion Worlds.outdated (semver 1 0 1)) as Hv by by left.
  split_and!; [exact Hl|exact Hv|exact sample_outdated|].
  destruct (changed_run_increments_patch Sample.sampleBase Worlds.yaml
              Sample.sampleLexer Worlds.sampleClock Sample.lengthHash
              Worlds.readSources Sample.discovered Worlds.outdated _ 1 0 1 Hl Hv
              (sample_names "version" ltac:(discriminate))
              (sample_names "file-hashes" ltac:(discriminate)))
    as (_ & v & _ & Hlast & Hup & _).
  rewrite (Hup sample_outdated ltac:(reflexivity)) in Hlast. exact Hlast.
Defined.

(** Idempotence as stated fails when the ledger lists a source that is
    gone, whose entry the run drops, and for a record named [version],
    which takes the place of the version record. *)
Lemma stale_entry_changes_the_ledger :
  ¬ rerunAsStated Sample.sampleBase Worlds.yaml Sample.sampleLexer Worlds.sampleClock
      Sample.lengthHash Worlds.readSources Sample.discovered Worlds.afterRemoval ∧
  ¬ rerunAsStated Sample.sampleBase Worlds.yaml Sample.sampleLexer Worlds.sampleClock
      Sample.lengthHash Worlds.readSources [Worlds.versionPath]
      (Worlds.recorded "1.0.4"
         {[ Worlds.versionPath := Sample.lengthHash Worlds.versionSource ]}).
Proof.
  split.
  - intros H. destruct (H _ eq_refl) as [Hledger _].
    + by apply sample_unchanged.
    + apply (f_equal (λ file, file ≫= get Sample.squatPath)) in Hledger.
      vm_compute in Hledger. discriminate Hledger.
  - intros H. destruct (H _ eq_refl) as [_ Hversion].
    + intros file content (Hin & _ & Hread).
      apply list_elem_of_singleton in Hin as ->. by injection Hread as <-.
    + vm_compute in Hversion. discriminate Hversion.
Qed.

Lemma rerun_leaves_ledger_and_version_witness :
  unchanged Sample.lengthHash Worlds.readSources Sample.discovered
    {[ Sample.pushUpPath := JString (Sample.lengthHash Sample.pushUpSource) ]} ∧
  Worlds.leaves Worlds.sampleWorld Worlds.upToDate !! "file-hashes.json" =
    Worlds.upToDate !! "file-hashes.json" ∧
  lastVersion (Worlds.leaves Worlds.sampleWorld Worlds.upToDate) "1.0.1".
Proof.
  assert (unchanged Sample.lengthHash Worlds.readSources Sample.discovered
            {[ Sample.pushUpPath := JString (Sample.lengthHash Sample.pushUpSource) ]})
    as Hu by by apply sample_unchanged.
  split; [exact Hu|].
  destruct (rerun_leaves_ledger_and_version Sample.sampleBase Worlds.yaml
              Sample.sampleLexer Worlds.sampleClock Sample.lengthHash
              Worlds.readSources Sample.discovered Worlds.upToDate _ eq_refl Hu)
    as (Hledger & Hversion & _).
  - intros p [entry Hp]. apply lookup_fmap_Some in Hp as (h & _ & Hp).
    apply lookup_singleton_Some in Hp as [<- _].
    exists Sample.pushUpSource. split_and!; [by left|reflexivity|reflexivity].
  - apply sample_names. discriminate.
  - apply sample_names. discriminate.
  - split; [exact Hledger|]. apply Hversion. by left.
Defined.

(** The removal of sources as stated fails for a record named [version]
    whose front matter has a version of its own: the file of the record
    takes the place of the version record, and 1.0.4 becomes 1.0.5. *)
Lemma record_named_version_sets_the_version :
  ¬ removalAsStated Sample.sampleBase Worlds.yaml Sample.sampleLexer Worlds.sampleClock
      Sample.lengthHash Worlds.readSources [Worlds.versionPath] Worlds.versionRemoval.
Proof.
  intros H. destruct (H _ 1%N 0%N 4%N eq_refl) as (_ & Hstays & _).
  - by left.
  - intros file content (Hin & _ & Hread).
    apply list_elem_of_singleton in Hin as ->. by injection Hread as <-.
  - apply Hstays. left. vm_compute. reflexivity.
Qed.

Lemma removed_source_is_not_a_change_witness :
  Worlds.afterRemoval !! "file-hashes.json" ≫= get Sample.squatPath =
    Some (JString "77") ∧
  lastVersion Worlds.afterRemoval (semver 1 0 4) ∧
  lastVersion (Worlds.leaves Worlds.sampleWorld Worlds.afterRemoval) (semver 1 0 4) ∧
  Worlds.leaves Worlds.sampleWorld Worlds.afterRemoval !! "file-hashes.json"
    ≫= get Sample.squatPath = None.
Proof.
  assert (lastVersion Worlds.afterRemoval (semver 1 0 4)) as Hv by by left.
  split; [reflexivity|]. split; [exact Hv|].
  destruct (removed_source_is_not_a_change Sample.sampleBase Worlds.yaml
              Sample.sampleLexer Worlds.sampleClock Sample.lengthHash
              Worlds.readSources Sample.discovered Worlds.afterRemoval _ 1 0 4
              eq_refl Hv)
    as (_ & Hstays & _ & Hgone).
  - by apply sample_unchanged.
  - apply sample_names. discriminate.
  - apply sample_names. discriminate.
  - split; [exact Hstays|]. exact (Hgone Sample.squatPath sample_squat_removed).
Defined.

End TrackerFacts.

(* ================================================================== *)
(** * Facts about the files of a run                                    *)
(* ================================================================== *)
Module RunFacts.
Import JS Pipeline Converter JSFacts PipelineFacts ScanFacts IndexFacts AssetFacts
  TrackerFacts.

Section ScriptFacts.

Variable BASE_URL : string.
Variable yaml_load : string → option Metadata.
Variable lexer : string → list token.
Variable clock : nat → string.
Variable calculateHash : string → string.
Variable readFileSync : string → option string.

Local Abbreviation loop :=
  (processAll BASE_URL yaml_load lexer clock calculateHash readFileSync).
Local Abbreviation run :=
  (processExerciseFiles BASE_URL yaml_load lexer clock calculateHash readFileSync).
Local Abbreviation leaves :=
  (left BASE_URL yaml_load lexer clock calculateHash readFileSync).
Local Abbreviation validOf := (validSource yaml_load readFileSync).
Local Abbreviation recordsFrom := (records BASE_URL yaml_load lexer clock readFileSync).
Local Abbreviation isNamed := (named yaml_load readFileSync).
Local Abbreviation throws := (inheritedMuscle yaml_load readFileSync).
Local Abbreviation readings := (length (parsed yaml_load readFileSync _)).

(** X17. The aggregate of a run that finds a version and a ledger. The run
    throws, after the ledger and the version record and before the
    aggregate, exactly when a valid source targets a muscle whose name every
    object inherits. Otherwise the aggregate is written third: it carries
    the version of the version record and the reading of the clock after
    the one of the version record, and the records of the valid sources in
    the order of discovery, with their number; each record carries the
    front matter of its source and a reading of the clock earlier than
    these two. The valid and the invalid sources are the discovered files
    other than index files. *)
Theorem aggregate_lists_the_valid_records files dir v ledger :
  lastVersion dir v → priorLedger dir ledger →
  (throws files ↔ outcome (run files dir) = Thrown) ∧
  (outcome (run files dir) = Thrown →
   (written (run files dir)).*1 = ["file-hashes.json"; "version.json"]) ∧
  (outcome (run files dir) = Returned →
   ∃ versionData aggregate,
     written (run files dir) !! 1%nat = Some ("version.json", VersionFile versionData) ∧
     written (run files dir) !! 2%nat = Some ("exercises.json", ExercisesFile aggregate) ∧
     agg_version aggregate = version versionData ∧
     lastUpdated versionData = clock (length (parsed yaml_load readFileSync files)) ∧
     agg_lastUpdated aggregate =
       clock (S (length (parsed yaml_load readFileSync files))) ∧
     agg_count aggregate = Z.of_nat (length (agg_exercises aggregate)) ∧
     exerciseCount versionData = agg_count aggregate ∧
     metadata <$> agg_exercises aggregate = omap validOf files ∧
     ∀ e, e ∈ agg_exercises aggregate →
          ∃ k, (k < length (parsed yaml_load readFileSync files))%nat ∧
               updatedAt e = clock k) ∧
  validCount (loop (loadHashes dir) files) + invalidCount (loop (loadHashes dir) files) =
    Z.of_nat (length (List.filter (λ file, negb (endsWith "index.md" file)) files)).
Proof.
  intros Hv Hl.
  rewrite (run_written BASE_URL yaml_load lexer clock calculateHash readFileSync
             files dir v ledger Hv Hl). cbv zeta.
  rewrite (inheritedMuscle_records BASE_URL yaml_load lexer clock readFileSync 0 files),
    <- muscle_reference_throws.
  destruct (buildMuscleReference (recordsFrom 0 files)) as [muscleData|];
    cbn [outcome written]; split_and!; try done.
  - intros _. eexists _, _. split_and!; try reflexivity.
    + cbn [exerciseCount agg_count]. by rewrite length_records.
    + apply records_metadata.
    + intros e (k & Hk & Ht)%records_readings. exists k. split; [lia|done].
  - apply loop_counts.
  - apply loop_counts.
Qed.

(** X18. The files of the records. A run that finds a version and a ledger
    removes no file and leaves a file as it is unless it is one of the six
    files of the tracker and the indexes or named after a valid record.
    When no valid source targets a muscle whose name every object inherits,
    the file named after a valid record holds the last record with that id,
    also when it is one of the six; otherwise no file of a record is
    written. *)
Theorem record_files_are_written_and_never_removed files dir v ledger :
  lastVersion dir v → priorLedger dir ledger →
  (∀ name, name ∉ runFiles → (∀ stem, isNamed files stem → name ≠ stem +:+ ".json") →
     leaves files dir !! name = dir !! name) ∧
  (¬ throws files →
   ∀ before e later,
     recordsFrom 0 files = before ++ e :: later →
     (∀ e', e' ∈ later → fileStem e' ≠ fileStem e) →
     leaves files dir !! (fileStem e +:+ ".json") = Some (exerciseJson e)) ∧
  (throws files →
   ∀ name, name ∉ ["file-hashes.json"; "version.json"] →
     leaves files dir !! name = dir !! name).
Proof.
  intros Hv Hl. unfold left.
  rewrite (run_written BASE_URL yaml_load lexer clock calculateHash readFileSync
             files dir v ledger Hv Hl). cbv zeta.
  rewrite (inheritedMuscle_records BASE_URL yaml_load lexer clock readFileSync 0 files),
    <- muscle_reference_throws.
  assert (∀ name, (∀ stem, isNamed files stem → name ≠ stem +:+ ".json") →
            name ∉ (map (λ exercise, (fileStem exercise +:+ ".json", ExerciseFile exercise))
                        (recordsFrom 0 files)).*1) as Hrecords.
  { intros name Hname Hin. rewrite <- list_fmap_compose in Hin.
    apply list_elem_of_fmap in Hin as (e & -> & He).
    apply (Hname (fileStem e)); [|done].
    by apply (record_file BASE_URL yaml_load lexer clock readFileSync 0 files e). }
  destruct (buildMuscleReference (recordsFrom 0 files)) as [muscleData|]; split_and!.
  - intros name Hsix Hname. apply persist_other. cbn [written].
    rewrite !fmap_app, !elem_of_app.
    intros [Hin|[Hin|Hin]]. 3:{ by apply (Hrecords name Hname). }
    all: cbn [fmap list_fmap fst] in Hin; apply Hsix; unfold runFiles; set_solver.
  - intros _ before e later Hrec Hlast. unfold persist. cbn [written].
    rewrite Hrec, map_app, !foldl_app. cbn [map foldl].
    rewrite lookup_persist; [apply lookup_insert_eq|].
    intros Hin. rewrite <- list_fmap_compose in Hin.
    apply list_elem_of_fmap in Hin as (e' & Heq & He'). cbn in Heq.
    apply app_inv_suffix in Heq. specialize (Hlast e' He'). congruence.
  - intros [=].
  - intros name Hsix Hname. apply persist_other. cbn [written fmap list_fmap fst].
    intros Hin. apply Hsix. unfold runFiles. set_solver.
  - intros Hreturns. by destruct Hreturns.
  - intros _ name Hname. by apply persist_other.
Qed.

End ScriptFacts.

(** ** At the sample sources *)

Lemma aggregate_lists_the_valid_records_witness :
  lastVersion Worlds.upToDate "1.0.1" ∧
  outcome (Worlds.run Worlds.plankWorld Worlds.upToDate) = Thrown ∧
  inheritedMuscle Worlds.yaml Worlds.readSources [Sample.pushUpPath; Worlds.plankPath] ∧
  (written (Worlds.run Worlds.plankWorld Worlds.upToDate)).*1 =
    ["file-hashes.json"; "version.json"].
Proof.
  assert (lastVersion Worlds.upToDate "1.0.1") as Hv by by left.
  assert (outcome (Worlds.run Worlds.plankWorld Worlds.upToDate) = Thrown) as Hthrown
    by (vm_compute; reflexivity).
  destruct (aggregate_lists_the_valid_records Sample.sampleBase Worlds.yaml
              Sample.sampleLexer Worlds.sampleClock Sample.lengthHash
              Worlds.readSources [Sample.pushUpPath; Worlds.plankPath]
              Worlds.upToDate "1.0.1" _ Hv (or_introl eq_refl))
    as (Hiff & Hnames & _).
  split_and!; [exact Hv|exact Hthrown|exact (proj2 Hiff Hthrown)|exact (Hnames Hthrown)].
Defined.

Lemma record_files_are_written_and_never_removed_witness :
  lastVersion Worlds.stale "1.0.4" ∧
  ("squat.json" ∉ runFiles) ∧
  Worlds.leaves Worlds.sampleWorld Worlds.stale !! "squat.json" =
    Worlds.stale !! "squat.json".
Proof.
  assert (lastVersion Worlds.stale "1.0.4") as Hv by by left.
  assert ("squat.json" ∉ runFiles) as Hsix
    by (intros Hin; by apply (not_elem_of_strings "squat.json" runFiles)).
  split_and!; [exact Hv|exact Hsix|].
  destruct (record_files_are_written_and_never_removed Sample.sampleBase Worlds.yaml
              Sample.sampleLexer Worlds.sampleClock Sample.lengthHash
              Worlds.readSources Sample.discovered Worlds.stale "1.0.4" _ Hv
              (or_introl eq_refl))
    as (Hkept & _).
  apply (Hkept "squat.json" Hsix). intros stem Hnamed Heq.
  destruct (decide (stem = "push-up")) as [->|Hne]; [discriminate Heq|].
  by apply (sample_names stem Hne).
Defined.

End RunFacts.

(* ================================================================== *)
(** * Facts about runs one after the other                              *)
(* ================================================================== *)
Module HistoryFacts.
Import JS Pipeline Converter History JSFacts PipelineFacts TrackerFacts.

Section ScriptFacts.

Variable BASE_URL : string.
Variable yaml_load : string → option Metadata.
Variable lexer : string → list token.
Variable calculateHash : string → string.

Local Abbreviation runOnce := (after BASE_URL yaml_load lexer calculateHash).
Local Abbreviation runAll := (runsIn BASE_URL yaml_load lexer calculateHash).
Local Abbreviation sees := (changedIn calculateHash).
Local Abbreviation count := (changedRuns BASE_URL yaml_load lexer calculateHash).
Local Abbreviation plain := (plainNames yaml_load).

Lemma sees_differs w dir ledger :
  priorLedger dir ledger →
  sees w dir = differs calculateHash (readFileSync w) (files w) ledger.
Proof. unfold changedIn. by intros [->|[-> ->]]. Qed.

(** The tracker after a run whose records are not named as its files
    are: the ledger holds the digests of the run, and the version is the one
    there was, bumped when the run found a digest that differs. *)
Lemma runOnce_tracker w dir v ledger :
  lastVersion dir v → priorLedger dir ledger → plain [w] →
  (∃ recorded, runOnce w dir !! "file-hashes.json" = Some (JObject recorded) ∧
               ∀ p, recorded !! p =
                    JString <$> digest calculateHash (readFileSync w) (files w) p) ∧
  lastVersion (runOnce w dir) (if sees w dir then bumpPatch v else v).
Proof.
  intros Hv Hl Hplain.
  destruct (tracker_persisted BASE_URL yaml_load lexer (clock w) calculateHash
              (readFileSync w) (files w) dir v ledger Hv Hl) as [Hledger Hrecord].
  { apply Hplain; [left|left]. }
  { apply Hplain; [left|right; left]. }
  unfold after. split.
  - eexists. split; [exact Hledger|]. intros p. by rewrite lookup_hashes, loop_hashes.
  - left. rewrite Hrecord. cbn [mbind option_bind]. rewrite version_of_record.
    cbn [version]. unfold processAll. rewrite loop_changes_from. simpl.
    by rewrite (sees_differs w dir ledger Hl).
Qed.

(** X19. Over any history of runs none of whose valid records is named
    [version] or [file-hashes], from a directory with a ledger and a last
    recorded version major.minor.patch: the last recorded version stays a
    triple with these major and minor components, and its patch component
    is the one it had plus the number of runs that found a digest differing
    from, or absent from, the ledger on record, as long as this stays below
    2^53; so it never goes down and grows by at most one in a run. *)
Theorem version_counts_the_changed_runs history dir ledger major minor patch :
  lastVersion dir (semver major minor patch) → priorLedger dir ledger →
  plain history → (patch + N.of_nat (length history) < 2 ^ 53)%N →
  lastVersion (runAll history dir) (semver major minor (patch + count history dir)) ∧
  (count history dir ≤ N.of_nat (length history))%N.
Proof.
  revert dir ledger patch.
  induction history as [|w history IH]; intros dir ledger patch Hv Hl Hplain Hsafe.
  - simpl. by rewrite N.add_0_r.
  - cbn [runsIn foldl changedRuns length] in *.
    fold (runAll history (runOnce w dir)).
    destruct (runOnce_tracker w dir _ ledger Hv Hl) as ((recorded & Hrec & _) & Hnext).
    { intros w' stem Hw'. apply list_elem_of_singleton in Hw' as ->.
      apply Hplain. by left. }
    assert (plain history) as Hrest
      by (intros w' stem Hw'; apply Hplain; by right).
    assert (priorLedger (runOnce w dir) recorded) as Hl' by by left.
    destruct (sees w dir) eqn:E.
    + rewrite bumpPatch_semver in Hnext by lia.
      destruct (IH _ _ (patch + 1)%N Hnext Hl' Hrest) as [Hlast Hle]; [lia|].
      split; [|lia].
      by replace (patch + (1 + count history (runOnce w dir)))%N
        with (patch + 1 + count history (runOnce w dir))%N by lia.
    + destruct (IH _ _ patch Hnext Hl' Hrest) as [Hlast Hle]; [lia|].
      split; [|lia]. by rewrite N.add_0_l.
Qed.

Lemma digest_edit file content' disk fs p :
  digest calculateHash (writeFile file content' disk) fs p =
  if String.eqb p file
  then (if bool_decide (file ∈ fs)
        then (if endsWith "index.md" file then None else Some (calculateHash content'))
        else None)
  else digest calculateHash disk fs p.
Proof.
  unfold digest, fileDigest, writeFile. destruct (String.eqb p file) eqn:E.
  - apply string_eqb_true in E as ->.
    by destruct (bool_decide (file ∈ fs)), (endsWith "index.md" file).
  - done.
Qed.

(** X20. Change detection goes by the digest of the content. When, after a
    run, one source is rewritten and the converter runs again, no valid
    record of either run being named [version] or [file-hashes]: if the
    digest of the new content differs from the one of the old content, the
    ledger changes at that source alone and the patch component is
    incremented; if the two digests are the same, the ledger and the last
    recorded version stay. *)
Theorem a_rewritten_source_counts_by_its_digest
    w dir ledger major minor patch file content content' :
  lastVersion dir (semver major minor patch) → priorLedger dir ledger →
  plain [w; edit file content' w] → (patch + 2 < 2 ^ 53)%N →
  file ∈ files w → endsWith "index.md" file = false →
  readFileSync w file = Some content →
  ∃ recorded patch',
    runOnce w dir !! "file-hashes.json" = Some (JObject recorded) ∧
    recorded !! file = Some (JString (calculateHash content)) ∧
    lastVersion (runOnce w dir) (semver major minor patch') ∧
    (calculateHash content' ≠ calculateHash content →
     runOnce (edit file content' w) (runOnce w dir) !! "file-hashes.json" =
       Some (JObject (<[file := JString (calculateHash content')]> recorded)) ∧
     lastVersion (runOnce (edit file content' w) (runOnce w dir))
       (semver major minor (patch' + 1))) ∧
    (calculateHash content' = calculateHash content →
     runOnce (edit file content' w) (runOnce w dir) !! "file-hashes.json" =
       runOnce w dir !! "file-hashes.json" ∧
     lastVersion (runOnce (edit file content' w) (runOnce w dir))
       (semver major minor patch')).
Proof.
  intros Hv Hl Hplain Hsafe Hin Hidx Hread.
  destruct (runOnce_tracker w dir _ ledger Hv Hl) as ((recorded & Hrec & Hdig) & Hnext).
  { intros w' stem Hw'. apply list_elem_of_singleton in Hw' as ->.
    apply Hplain. by left. }
  assert (priorLedger (runOnce w dir) recorded) as Hl' by by left.
  assert (∃ patch', (patch' ≤ patch + 1)%N ∧
            (if sees w dir then bumpPatch (semver major minor patch)
             else semver major minor patch) = semver major minor patch')
    as (patch' & Hle & Heq).
  { destruct (sees w dir).
    - exists (patch + 1)%N. split; [lia|]. apply bumpPatch_semver. lia.
    - exists patch. split; [lia|done]. }
  rewrite Heq in Hnext.
  destruct (runOnce_tracker (edit file content' w) (runOnce w dir) _ recorded Hnext Hl')
    as ((recorded' & Hrec' & Hdig') & Hlater).
  { intros w' stem Hw'. apply list_elem_of_singleton in Hw' as ->.
    apply Hplain. right; left. }
  assert (recorded !! file = Some (JString (calculateHash content))) as Hold.
  { rewrite Hdig. unfold digest, fileDigest.
    by rewrite bool_decide_eq_true_2, Hidx, Hread. }
  assert (∀ p, recorded' !! p =
               if String.eqb p file then Some (JString (calculateHash content'))
               else recorded !! p) as Hnew.
  { intros p. rewrite Hdig', Hdig. cbn [edit readFileSync files].
    rewrite digest_edit. rewrite bool_decide_eq_true_2, Hidx by done.
    by destruct (String.eqb p file). }
  rewrite (sees_differs _ _ recorded Hl') in Hlater.
  exists recorded, patch'. split_and!; [done..| |].
  - intros Hne. split.
    + rewrite Hrec'. do 2 f_equal. apply map_eq. intros p. rewrite Hnew.
      destruct (String.eqb p file) eqn:E.
      * apply string_eqb_true in E as ->. by rewrite lookup_insert_eq.
      * rewrite lookup_insert_ne; [done|]. intros ->. by rewrite String.eqb_refl in E.
    + assert (differs calculateHash (readFileSync (edit file content' w))
                (files (edit file content' w)) recorded = true) as Hd.
      { apply differs_changed. exists file, content'. split.
        - split_and!; [done..|]. cbn [edit readFileSync]. unfold writeFile.
          by rewrite String.eqb_refl.
        - rewrite Hold. congruence. }
      rewrite Hd in Hlater. rewrite bumpPatch_semver in Hlater by lia. exact Hlater.
  - intros Hsame. split.
    + rewrite Hrec', Hrec. do 2 f_equal. apply map_eq. intros p. rewrite Hnew.
      destruct (String.eqb p file) eqn:E; [|done].
      apply string_eqb_true in E as ->. by rewrite Hold, Hsame.
    + assert (differs calculateHash (readFileSync (edit file content' w))
                (files (edit file content' w)) recorded = false) as Hd.
      { destruct (differs _ _ _ recorded) eqn:E; [|done].
        apply differs_changed in E as (f & c & (Hf & Hi & Hr) & Hne).
        destruct Hne. cbn [edit readFileSync files] in *. unfold writeFile in Hr.
        destruct (String.eqb f file) eqn:Ef.
        - apply string_eqb_true in Ef as ->. injection Hr as <-.
          by rewrite Hold, Hsame.
        - rewrite Hdig. unfold digest, fileDigest.
          by rewrite bool_decide_eq_true_2, Hi, Hr. }
      by rewrite Hd in Hlater.
Qed.

End ScriptFacts.

(** ** At the sample sources *)

Lemma rewritten_names stem :
  stem ≠ "push-up" →
  ¬ named Worlds.yaml (readFileSync Worlds.rewritten) (files Worlds.rewritten) stem.
Proof.
  intros Hne (file & m & Hin & Hv & Hid).
  apply elem_of_cons in Hin as [->|Hin].
  - vm_compute in Hv. injection Hv as <-. injection Hid as <-. done.
  - apply list_elem_of_singleton in Hin as ->. discriminate Hv.
Qed.

Lemma sample_plain : plainNames Worlds.yaml [Worlds.sampleWorld; Worlds.rewritten].
Proof.
  intros w stem Hw Hstem.
  assert (stem ≠ "push-up") as Hne.
  { intros ->. repeat (apply elem_of_cons in Hstem as [Hstem|Hstem]; [discriminate|]).
    by apply elem_of_nil in Hstem. }
  apply elem_of_cons in Hw as [->|Hw]; [by apply sample_names|].
  apply list_elem_of_singleton in Hw as ->. by apply rewritten_names.
Qed.

Lemma version_counts_the_changed_runs_witness :
  lastVersion Worlds.upToDate (semver 1 0 1) ∧
  lastVersion
    (runsIn Sample.sampleBase Worlds.yaml Sample.sampleLexer Sample.lengthHash
       [Worlds.sampleWorld; Worlds.rewritten] Worlds.upToDate) "1.0.2".
Proof.
  assert (lastVersion Worlds.upToDate (semver 1 0 1)) as Hv by by left.
  split; [exact Hv|].
  destruct (version_counts_the_changed_runs Sample.sampleBase Worlds.yaml
              Sample.sampleLexer Sample.lengthHash
              [Worlds.sampleWorld; Worlds.rewritten] Worlds.upToDate _ 1 0 1
              Hv (or_introl eq_refl) sample_plain ltac:(reflexivity)) as [H _].
  assert (changedRuns Sample.sampleBase Worlds.yaml Sample.sampleLexer
            Sample.lengthHash [Worlds.sampleWorld; Worlds.rewritten]
            Worlds.upToDate = 1%N) as Hcount by (vm_compute; reflexivity).
  rewrite Hcount in H. exact H.
Defined.

Lemma a_rewritten_source_counts_by_its_digest_witness :
  Sample.lengthHash (Sample.pushUpSource +:+ "!") ≠
    Sample.lengthHash Sample.pushUpSource ∧
  lastVersion
    (after Sample.sampleBase Worlds.yaml Sample.sampleLexer Sample.lengthHash
       Worlds.rewritten
       (after Sample.sampleBase Worlds.yaml Sample.sampleLexer Sample.lengthHash
          Worlds.sampleWorld Worlds.upToDate)) "1.0.2".
Proof.
  assert (Sample.lengthHash (Sample.pushUpSource +:+ "!") ≠
            Sample.lengthHash Sample.pushUpSource) as Hne by discriminate.
  split; [exact Hne|].
  destruct (a_rewritten_source_counts_by_its_digest Sample.sampleBase Worlds.yaml
              Sample.sampleLexer Sample.lengthHash Worlds.sampleWorld Worlds.upToDate
              _ 1 0 1 Sample.pushUpPath Sample.pushUpSource
              (Sample.pushUpSource +:+ "!")
              (or_introl eq_refl) (or_introl eq_refl) sample_plain
              ltac:(reflexivity) ltac:(left) eq_refl eq_refl)
    as (recorded & patch' & _ & _ & Hbefore & Hdiffers & _).
  destruct (Hdiffers Hne) as [_ Hlater].
  assert (lastVersion
            (after Sample.sampleBase Worlds.yaml Sample.sampleLexer Sample.lengthHash
               Worlds.sampleWorld Worlds.upToDate) (semver 1 0 1)) as Hstays
    by (left; vm_compute; reflexivity).
  pose proof (lastVersion_unique _ _ _ Hbefore Hstays) as Heq.
  apply semver_patch_inj in Heq. rewrite Heq in Hlater. exact Hlater.
Defined.

End HistoryFacts.

(* ================================================================== *)
(** * Facts about validation                                            *)
(* ================================================================== *)
Module ValidationFacts.
Import JS Pipeline Converter RegExp JSFacts ApiFacts PipelineFacts RegExpFacts ScanFacts
  IndexFacts TrackerFacts.

(** ** The schema *)

Lemma accepted_excludes a c s :
  accepted a s = true → accepts a c = false → occurs c s = false.
Proof.
  intros Hs Hc. induction s as [|x s IH]; [done|].
  cbn [accepted] in Hs. apply andb_true_iff in Hs as [Hx Hs].
  rewrite occurs_String, (IH Hs), orb_false_r.
  destruct (Ascii.eqb x c) eqn:E; [|done]. apply ascii_eqb_true in E. congruence.
Qed.

Lemma validate_fields m :
  Schema.validate m = true →
  ∃ i n c muscle muscles d,
    id m = Some i ∧ name m = Some n ∧ category m = Some c ∧
    primaryMuscles m = Some (muscle :: muscles) ∧ difficulty m = Some d ∧
    i ≠ "" ∧ accepted Schema.idClass i = true ∧
    c ∈ Schema.categoryEnum ∧ d ∈ Schema.difficultyEnum.
Proof.
  unfold Schema.validate, Schema.required, Schema.property.
  destruct (id m) as [i|], (name m) as [n|], (category m) as [c|],
    (primaryMuscles m) as [[|muscle muscles]|], (difficulty m) as [d|];
    try (intros H; by repeat (apply andb_true_iff in H as [H ?])).
  intros H. repeat (apply andb_true_iff in H as [H ?]).
  exists i, n, c, muscle, muscles, d.
  match goal with Ht : test _ _ = true |- _ =>
    rewrite test_idPattern in Ht; apply andb_true_iff in Ht as [Hne Hacc] end.
  split_and!; try done.
  - intros ->. done.
  - by apply arr_includes_spec.
  - by apply arr_includes_spec.
Qed.

(** What validation lets through is ranked and named: the identifier is
    not empty and holds neither a slash nor a dot, the difficulty has one of
    the three ranks with its time, never the rank 999, and the category has
    its display name in the table of the API. *)
Lemma valid_metadata_is_ranked_and_named m :
  Schema.validate m = true →
  (∃ i, id m = Some i ∧ i ≠ "" ∧ occurs "/" i = false ∧ occurs "." i = false) ∧
  (getDifficultyOrder (difficulty m), estimateExerciseTime m) ∈
    [(1, 30); (2, 36); (3, 45)] ∧
  (∃ c n, category m = Some c ∧ getCategoryDisplayName (category m) = Some n ∧
          (c, n) ∈ Api.categoryTable).
Proof.
  intros (i & n & c & muscle & muscles & d & Hi & Hn & Hc & Hm & Hd & Hne & Hacc &
          Hcat & Hdiff)%validate_fields.
  split_and!.
  - exists i. split_and!; [done..| |]; by apply (accepted_excludes Schema.idClass).
  - unfold estimateExerciseTime. rewrite Hd.
    unfold Schema.difficultyEnum in Hdiff.
    repeat (apply elem_of_cons in Hdiff as [->|Hdiff]);
      [by left|by right; left|by right; right; left|by apply elem_of_nil in Hdiff].
  - exists c. rewrite Hc. unfold Schema.categoryEnum in Hcat.
    repeat (apply elem_of_cons in Hcat as [->|Hcat]);
      [eexists; split_and!; [done|reflexivity|]..|by apply elem_of_nil in Hcat].
    + by left.
    + by right; left.
    + by right; right; left.
    + by right; right; right; left.
    + by right; right; right; right; left.
Qed.

Section ScriptFacts.

Variable BASE_URL : string.
Variable yaml_load : string → option Metadata.
Variable lexer : string → list token.
Variable clock : nat → string.
Variable calculateHash : string → string.
Variable readFileSync : string → option string.

Local Abbreviation parseFile := (Converter.parseMarkdownFile BASE_URL yaml_load lexer).
Local Abbreviation loop :=
  (processAll BASE_URL yaml_load lexer clock calculateHash readFileSync).
Local Abbreviation run :=
  (processExerciseFiles BASE_URL yaml_load lexer clock calculateHash readFileSync).
Local Abbreviation matter := (frontMatter yaml_load readFileSync).
Local Abbreviation validOf := (validSource yaml_load readFileSync).
Local Abbreviation recordsFrom := (records BASE_URL yaml_load lexer clock readFileSync).
Local Abbreviation throws := (inheritedMuscle yaml_load readFileSync).
Local Abbreviation extract := (Validate.extractFrontmatter yaml_load readFileSync).
Local Abbreviation validator := (Validate.validateAll yaml_load readFileSync).

Lemma parseFile_mobile now content e :
  parseFile now content = Some e →
  displayOrder (mobile e) = getDifficultyOrder (difficulty (metadata e)) ∧
  categoryDisplayName (mobile e) = getCategoryDisplayName (category (metadata e)) ∧
  estimatedTime (mobile e) = estimateExerciseTime (metadata e).
Proof.
  unfold Converter.parseMarkdownFile, Pipeline.parseMarkdownFile.
  destruct (Scans.frontmatterMatch content) as [[frontmatter markdown]|]; [|done].
  destruct (yaml_load frontmatter) as [metadata|]; [|done].
  by intros [= <-].
Qed.

(** The aggregate a run writes holds the records of its loop. *)
Lemma aggregate_written files dir aggregate :
  ("exercises.json", ExercisesFile aggregate) ∈ written (run files dir) →
  agg_exercises aggregate = exercises (loop (loadHashes dir) files).
Proof.
  unfold processExerciseFiles.
  destruct (loadVersion dir) as [currentVersion|]; [|by intros ?%elem_of_nil].
  destruct (if hasChanges _ then _ else _) as [updated|]; [|by intros ?%elem_of_nil].
  destruct (buildMuscleReference _) as [muscleData|]; cbn [written app].
  - rewrite !elem_of_cons. intros [[=]|[[=]|[[= ->]|[[=]|[[=]|[[=]|Hin]]]]]]; [done|].
    change (map ?f ?l) with (f <$> l) in Hin.
    by apply list_elem_of_fmap in Hin as (? & [=] & _).
  - rewrite !elem_of_cons. by intros [[=]|[[=]|?%elem_of_nil]].
Qed.

(** X27. Every record of the aggregate the converter writes has an identifier
    that is not empty and holds no slash and no dot, under which its file is
    written; its display order and estimated time are 1 and 30, 2 and 36 or
    3 and 45, never the order 999 of an unknown difficulty; and its category
    and display name are a row of the table the Categories endpoint
    answers. *)
Theorem converted_records_are_ranked_and_named files dir aggregate e :
  ("exercises.json", ExercisesFile aggregate) ∈ written (run files dir) →
  e ∈ agg_exercises aggregate →
  (∃ i, id (metadata e) = Some i ∧ fileStem e = i ∧ i ≠ "" ∧
        occurs "/" i = false ∧ occurs "." i = false) ∧
  (displayOrder (mobile e), estimatedTime (mobile e)) ∈ [(1, 30); (2, 36); (3, 45)] ∧
  (∃ c n, category (metadata e) = Some c ∧ categoryDisplayName (mobile e) = Some n ∧
          (c, n) ∈ Api.categoryTable).
Proof.
  intros Hw He. rewrite (aggregate_written _ _ _ Hw) in He.
  apply loop_exercises_parsed in He as (file & content & now & _ & _ & Hparse & Hvalid).
  destruct (parseFile_mobile now content e Hparse) as (-> & -> & ->).
  destruct (valid_metadata_is_ranked_and_named _ Hvalid) as ((i & Hi & H) & ? & ?).
  split_and!; [|done..]. exists i. unfold fileStem. rewrite Hi.
  destruct H as (? & ? & ?). by split_and!.
Qed.

(** ** The validator *)

(** The validator and the converter load the same front matter. *)
Lemma extract_matter file :
  endsWith "index.md" file = false → extract file = matter file.
Proof.
  intros Hidx. unfold Validate.extractFrontmatter, frontMatter. rewrite Hidx.
  destruct (readFileSync file) as [content|]; [|done].
  rewrite frontmatterOf_cut, frontmatterMatch_cut.
  destruct (startsWith Scans.opening content); [|done].
  by destruct (Scans.cut "" _) as [[frontmatter markdown]|].
Qed.

Lemma validateFile_counts st file :
  Validate.validCount (Validate.validateFile yaml_load readFileSync st file) +
  Validate.invalidCount (Validate.validateFile yaml_load readFileSync st file) =
  Validate.validCount st + Validate.invalidCount st +
  (if endsWith "index.md" file then 0 else 1) ∧
  Validate.invalidCount st ≤
    Validate.invalidCount (Validate.validateFile yaml_load readFileSync st file) ∧
  (Validate.invalidCount (Validate.validateFile yaml_load readFileSync st file) =
     Validate.invalidCount st ↔
   (endsWith "index.md" file = false →
    ∃ metadata, extract file = Some metadata ∧ Schema.validate metadata = true)).
Proof.
  unfold Validate.validateFile. destruct (endsWith "index.md" file).
  { split_and!; [lia..|]. split; [done|lia]. }
  destruct (extract file) as [metadata|]; simpl.
  - destruct (Schema.validate metadata) eqn:E; simpl.
    + split_and!; [lia..|]. split; [intros _ _; by exists metadata|done].
    + split_and!; [lia..|]. split; [lia|].
      intros H. destruct (H eq_refl) as (? & [= <-] & ?). congruence.
  - split_and!; [lia..|]. split; [lia|].
    intros H. by destruct (H eq_refl) as (? & [=] & _).
Qed.

Lemma validateAll_from st files :
  let st' := foldl (Validate.validateFile yaml_load readFileSync) st files in
  Validate.validCount st' + Validate.invalidCount st' =
    Validate.validCount st + Validate.invalidCount st +
    Z.of_nat (length (List.filter (λ file, negb (endsWith "index.md" file)) files)) ∧
  Validate.invalidCount st ≤ Validate.invalidCount st' ∧
  (Validate.invalidCount st' = Validate.invalidCount st ↔
   ∀ file, file ∈ files → endsWith "index.md" file = false →
           ∃ metadata, extract file = Some metadata ∧ Schema.validate metadata = true).
Proof.
  revert st. induction files as [|file files IH]; intros st; cbn [foldl].
  - cbv zeta. split_and!; [simpl; lia|lia|]. split; [|done].
    intros _ file Hin. by apply elem_of_nil in Hin.
  - destruct (IH (Validate.validateFile yaml_load readFileSync st file))
      as (Hsum & Hle & Hiff).
    destruct (validateFile_counts st file) as (Hsum1 & Hle1 & Hiff1).
    cbv zeta in *. split_and!.
    + rewrite Hsum, Hsum1. simpl. destruct (endsWith "index.md" file); simpl; lia.
    + lia.
    + split.
      * intros Heq file' [->|Hin]%elem_of_cons.
        -- apply Hiff1. lia.
        -- apply Hiff; [lia|done].
      * intros Hall.
        assert (Validate.invalidCount
                  (Validate.validateFile yaml_load readFileSync st file) =
                Validate.invalidCount st) as Hfirst
          by (apply Hiff1, Hall; by left).
        rewrite <- Hfirst. apply Hiff. intros file' Hin. apply Hall. by right.
Qed.

(** X28. The validator answers for the sources one by one: the files it counts,
    valid or invalid, are the discovered files other than index files; it
    reports success, and the process exits with 0, exactly when every such
    file can be read, has front matter that loads, and passes the schema;
    otherwise the process exits with 1. *)
Theorem validator_succeeds_when_every_source_passes files :
  Validate.validCount (validator files) + Validate.invalidCount (validator files) =
    Z.of_nat (length (List.filter (λ file, negb (endsWith "index.md" file)) files)) ∧
  (Validate.validateExerciseFiles yaml_load readFileSync files = true ↔
   ∀ file, file ∈ files → endsWith "index.md" file = false →
           ∃ metadata, extract file = Some metadata ∧ Schema.validate metadata = true) ∧
  Validate.exitCode yaml_load readFileSync files =
    (if Validate.validateExerciseFiles yaml_load readFileSync files then 0 else 1).
Proof.
  destruct (validateAll_from {| Validate.validCount := 0; Validate.invalidCount := 0 |}
              files) as (Hsum & _ & Hiff).
  cbv zeta in *. split_and!; [exact Hsum| |done].
  unfold Validate.validateExerciseFiles. rewrite Z.eqb_eq. exact Hiff.
Qed.

(** X29. A source the validator passes is a record of the converter: when the
    validator reports success, a run of the converter that finds a version
    and a ledger counts no source invalid and collects one record for each
    discovered file other than index files; the aggregate it writes holds
    them. Success of the validator does not keep the run from throwing
    before the aggregate: it does when a source targets a muscle whose name
    every object inherits. *)
Theorem validated_sources_are_converted files dir v ledger :
  Validate.validateExerciseFiles yaml_load readFileSync files = true →
  lastVersion dir v → priorLedger dir ledger →
  invalidCount (loop (loadHashes dir) files) = 0 ∧
  length (exercises (loop (loadHashes dir) files)) =
    length (List.filter (λ file, negb (endsWith "index.md" file)) files) ∧
  (∀ aggregate,
     ("exercises.json", ExercisesFile aggregate) ∈ written (run files dir) →
     agg_count aggregate =
       Z.of_nat (length (List.filter (λ file, negb (endsWith "index.md" file)) files))) ∧
  (outcome (run files dir) = Thrown ↔ throws files).
Proof.
  intros Hok Hv Hl.
  destruct (validateAll_from {| Validate.validCount := 0; Validate.invalidCount := 0 |}
              files) as (_ & _ & Hiff).
  cbv zeta in Hiff. unfold Validate.validateExerciseFiles in Hok.
  apply Z.eqb_eq in Hok. pose proof (proj1 Hiff Hok) as Hall. clear Hiff Hok.
  assert (length (validSources yaml_load readFileSync files) =
          length (List.filter (λ file, negb (endsWith "index.md" file)) files)) as Hlen.
  { unfold validSources. induction files as [|file files IH]; [done|].
    cbn [List.filter].
    assert (∀ file', file' ∈ files → endsWith "index.md" file' = false →
              ∃ metadata, extract file' = Some metadata ∧
                          Schema.validate metadata = true) as Hrest
      by (intros file' Hin; apply Hall; by right).
    specialize (IH Hrest).
    destruct (endsWith "index.md" file) eqn:Eidx.
    - assert (validOf file = None) as ->
        by (unfold validSource, frontMatter; by rewrite Eidx).
      exact IH.
    - destruct (Hall file ltac:(by left) Eidx) as (m & Hm & Hvalid).
      rewrite (extract_matter file Eidx) in Hm.
      assert (validOf file = Some m) as ->
        by (unfold validSource; by rewrite Hm, Hvalid).
      simpl. by rewrite IH. }
  rewrite (load_priorLedger _ _ Hl).
  destruct (loop_records BASE_URL yaml_load lexer clock calculateHash readFileSync
              ledger files) as (Hex & Hcount & _).
  pose proof (length_records BASE_URL yaml_load lexer clock readFileSync 0 files)
    as Hrecords.
  split_and!.
  - pose proof (loop_counts BASE_URL yaml_load lexer clock calculateHash readFileSync
                  (JObject ledger) files) as Hsum.
    rewrite Hcount, Hrecords, Hlen in Hsum. lia.
  - by rewrite Hex, Hrecords.
  - intros aggregate Hw.
    rewrite (run_written BASE_URL yaml_load lexer clock calculateHash readFileSync
               files dir v ledger Hv Hl) in Hw. cbv zeta in Hw.
    destruct (buildMuscleReference (recordsFrom 0 files)) as [muscleData|];
      cbn [written app] in Hw.
    + rewrite !elem_of_cons in Hw.
      destruct Hw as [[=]|[[=]|[[= ->]|[[=]|[[=]|[[=]|Hin]]]]]].
      * cbn [agg_count]. by rewrite Hrecords, Hlen.
      * change (map ?f ?l) with (f <$> l) in Hin.
        by apply list_elem_of_fmap in Hin as (? & [=] & _).
    + rewrite !elem_of_cons in Hw. by destruct Hw as [[=]|[[=]|?%elem_of_nil]].
  - rewrite (run_written BASE_URL yaml_load lexer clock calculateHash readFileSync
               files dir v ledger Hv Hl). cbv zeta.
    rewrite (inheritedMuscle_records BASE_URL yaml_load lexer clock readFileSync 0 files),
      <- muscle_reference_throws.
    by destruct (buildMuscleReference (recordsFrom 0 files)).
Qed.

End ScriptFacts.

(** ** At the sample sources *)

(** The validator passes a source tree on which the converter throws. *)
Example validator_passes_where_the_converter_throws :
  Validate.validateExerciseFiles Worlds.yaml Worlds.readSources
    [Sample.pushUpPath; Worlds.plankPath] = true ∧
  outcome (Worlds.run Worlds.plankWorld Worlds.upToDate) = Thrown.
Proof. split; vm_compute; reflexivity. Qed.

Lemma converted_records_are_ranked_and_named_witness :
  ∃ aggregate e,
    ("exercises.json", ExercisesFile aggregate) ∈
      written (Worlds.run Worlds.sampleWorld Worlds.upToDate) ∧
    e ∈ agg_exercises aggregate ∧
    (displayOrder (mobile e), estimatedTime (mobile e)) ∈ [(1, 30); (2, 36); (3, 45)].
Proof.
  assert (∃ aggregate,
            written (Worlds.run Worlds.sampleWorld Worlds.upToDate) !! 2%nat =
              Some ("exercises.json", ExercisesFile aggregate) ∧
            is_Some (agg_exercises aggregate !! 0%nat)) as (aggregate & Hw & [e He]).
  { eexists. split; [vm_compute; reflexivity|]. by eexists. }
  apply list_elem_of_lookup_2 in Hw, He.
  exists aggregate, e. split; [exact Hw|]. split; [exact He|].
  exact (proj1 (proj2 (converted_records_are_ranked_and_named Sample.sampleBase
                         Worlds.yaml Sample.sampleLexer Worlds.sampleClock
                         Sample.lengthHash Worlds.readSources Sample.discovered
                         Worlds.upToDate aggregate e Hw He))).
Defined.

Lemma validated_sources_are_converted_witness :
  Validate.validateExerciseFiles Worlds.yaml Worlds.readSources Sample.discovered = true ∧
  lastVersion Worlds.upToDate "1.0.1" ∧
  invalidCount
    (processAll Sample.sampleBase Worlds.yaml Sample.sampleLexer Worlds.sampleClock
       Sample.lengthHash Worlds.readSources (loadHashes Worlds.upToDate)
       Sample.discovered) = 0.
Proof.
  assert (lastVersion Worlds.upToDate "1.0.1") as Hv by by left.
  split; [reflexivity|]. split; [exact Hv|].
  exact (proj1 (validated_sources_are_converted Sample.sampleBase Worlds.yaml
                  Sample.sampleLexer Worlds.sampleClock Sample.lengthHash
                  Worlds.readSources Sample.discovered Worlds.upToDate "1.0.1" _
                  eq_refl Hv (or_introl eq_refl))).
Defined.

End ValidationFacts.

(* ================================================================== *)
(** * Facts about the names of the files written                        *)
(* ================================================================== *)
Module DiskFacts.
Import JS Pipeline RegExp Disk JSFacts ScanFacts AssetFacts.

Lemma lookup_writes (dir : gmap string writer) (l : list (string * writer)) name :
  (∀ n w, (n, w) ∈ l → n ≠ name) →
  foldl (λ (dir : gmap string writer) '(name, w), <[name := w]> dir) dir l !! name =
  dir !! name.
Proof.
  revert dir. induction l as [|[n w] l IH]; intros dir Hne; [done|].
  cbn [foldl]. rewrite IH by (intros n' w' Hin; apply (Hne n' w'); by right).
  apply lookup_insert_ne. apply (Hne n w). by left.
Qed.

Lemma lookup_index_writes name :
  name ∈ indexFiles →
  foldl (λ (dir : gmap string writer) '(name, w), <[name := w]> dir) ∅
        (map (λ name, (name, Index)) indexFiles) !! name = Some Index.
Proof.
  unfold indexFiles. intros Hin.
  repeat (apply elem_of_cons in Hin as [->|Hin]); [reflexivity..|].
  by apply elem_of_nil in Hin.
Qed.

(** X30. The file of a record is written after the aggregate and the indexes,
    under the record's id, and the schema lets a record have the name of one
    of them for its id. A file of the six is the run's own unless a record
    is named as it is; the file named after a record holds the last record
    with that id, also when it is one of the six. *)
Theorem a_record_named_as_an_index_file_replaces_it records :
  (∀ name, name ∈ indexFiles →
     (∀ e, e ∈ records → fileStem e +:+ ".json" ≠ name) →
     lastWriter records name = Some Index) ∧
  (∀ before e after,
     records = before ++ e :: after →
     (∀ e', e' ∈ after → fileStem e' ≠ fileStem e) →
     lastWriter records (fileStem e +:+ ".json") = Some (Record e)) ∧
  (∀ stem, stem +:+ ".json" ∈ indexFiles → test Schema.idPattern stem = true).
Proof.
  unfold lastWriter, writes. split_and!.
  - intros name Hname Hne. rewrite foldl_app, lookup_writes.
    + by apply lookup_index_writes.
    + intros n w Hin. change (map ?f ?l) with (f <$> l) in Hin.
      apply list_elem_of_fmap in Hin as (e & [= -> ->] & He). by apply Hne.
  - intros before e after -> Hlast.
    rewrite foldl_app, map_app, foldl_app. cbn [map foldl].
    rewrite lookup_writes; [apply lookup_insert_eq|].
    intros n w Hin. change (map ?f ?l) with (f <$> l) in Hin.
    apply list_elem_of_fmap in Hin as (e' & [= -> ->] & He').
    intros Heq. apply app_inv_suffix in Heq. by apply (Hlast e').
  - intros stem Hin. unfold indexFiles in Hin.
    repeat (apply elem_of_cons in Hin as [Heq|Hin];
            [change "file-hashes.json" with ("file-hashes" +:+ ".json") in Heq;
             change "version.json" with ("version" +:+ ".json") in Heq;
             change "exercises.json" with ("exercises" +:+ ".json") in Heq;
             change "muscles.json" with ("muscles" +:+ ".json") in Heq;
             change "categories.json" with ("categories" +:+ ".json") in Heq;
             change "equipment.json" with ("equipment" +:+ ".json") in Heq;
             apply app_inv_suffix in Heq as ->; reflexivity|]).
    by apply elem_of_nil in Hin.
Qed.

End DiskFacts.
